(** * graph-tp2: the relational-to-graph ETL of [app/etl.py]

    A shallow embedding of [app/etl.py] and the properties of its
    chunker, schema loader, readiness gates and load phase.

    Conventions of the embedding.
    - A pandas [DataFrame] is the list of its rows in positional order
      (what [df.to_dict("records")] hands to the graph store); [len(df)]
      is the length of the list and [df.iloc[a:b]] a positional slice.
    - Python integers are [Z]; a Python [str] is the list of its code
      points.
    - A raised Python exception is the [Raise] constructor of [result].
    - A bulk statement is the list of the clauses of its text, evaluated
      for each record of its [rows] parameter in turn; the graph store
      and the meaning of the clauses are not part of the sources and
      follow the data model and the Cypher language. *)

From stdpp Require Import gmap strings list fin_maps sorting.
From Stdlib Require Import ZArith Lia.

Open Scope Z_scope.

(** ** Exceptions and results *)

Inductive exn : Type :=
| ValueError (msg : string)      (* raised by [range] on a zero step *)
| StoreError (msg : string).     (* any exception of the psycopg2/neo4j clients *)

Inductive result (A : Type) : Type :=
| Ok (a : A)
| Raise (e : exn).
Arguments Ok {A} a.
Arguments Raise {A} e.

(** ** Python builtins used by [chunk] *)

(** Number of items of [range(start, stop, step)] for a non-zero step
    (CPython's [compute_range_length]). *)
Definition range_len (start stop step : Z) : Z :=
  if 0 <? step
  then (if start <? stop then (stop - start - 1) / step + 1 else 0)
  else (if stop <? start then (start - stop - 1) / (- step) + 1 else 0).

(** [range(start, stop, step)], consumed: [ValueError] on a zero step. *)
Definition py_range (start stop step : Z) : result (list Z) :=
  if step =? 0
  then Raise (ValueError "range() arg 3 must not be zero")
  else Ok (map (fun i : nat => start + Z.of_nat i * step)
               (seq 0 (Z.to_nat (range_len start stop step)))).

(** A slice bound clipped against a sequence of length [n]: a negative
    bound counts from the end. *)
Definition slice_bound (n i : Z) : Z :=
  if i <? 0 then Z.max (i + n) 0 else Z.min i n.

(** [df.iloc[a:b]]: the rows at positions [a] (inclusive) to [b]
    (exclusive), both clipped; out-of-range bounds never raise. *)
Definition iloc {A : Type} (df : list A) (a b : Z) : list A :=
  let n := Z.of_nat (length df) in
  let lo := slice_bound n a in
  let hi := slice_bound n b in
  take (Z.to_nat (hi - lo)) (drop (Z.to_nat lo) df).

(** ** [chunk]: a generator of row batches

    [chunk(df, size)] is a generator function: calling it runs nothing.
    The body starts at the first [next], which is where [range] is
    evaluated and may raise. *)

Inductive chunk_gen (A : Type) : Type :=
| ChunkCreated (df : list A) (size : Z)
| ChunkSuspended (df : list A) (size : Z) (pending : list Z)
| ChunkDone.
Arguments ChunkCreated {A} df size.
Arguments ChunkSuspended {A} df size pending.
Arguments ChunkDone {A}.

Inductive gen_out (A : Type) : Type :=
| Yielded (batch : list A)
| StopIteration
| Raised (e : exn).
Arguments Yielded {A} batch.
Arguments StopIteration {A}.
Arguments Raised {A} e.

Definition chunk_default_size : Z := 1000.

Definition chunk {A : Type} (df : list A) (size : Z) : chunk_gen A :=
  ChunkCreated df size.

(** One iteration of [for start in range(0, len(df), size)]. *)
Definition chunk_resume {A : Type} (df : list A) (size : Z) (pending : list Z)
  : chunk_gen A * gen_out A :=
  match pending with
  | [] => (ChunkDone, StopIteration)
  | start :: rest =>
      (ChunkSuspended df size rest, Yielded (iloc df start (start + size)))
  end.

(** [next(gen)]. *)
Definition gen_next {A : Type} (g : chunk_gen A) : chunk_gen A * gen_out A :=
  match g with
  | ChunkCreated df size =>
      match py_range 0 (Z.of_nat (length df)) size with
      | Raise e => (ChunkDone, Raised e)
      | Ok pending => chunk_resume df size pending
      end
  | ChunkSuspended df size pending => chunk_resume df size pending
  | ChunkDone => (ChunkDone, StopIteration)
  end.

Fixpoint drain_pending {A : Type} (df : list A) (size : Z) (pending : list Z)
  : list (list A) :=
  match pending with
  | [] => []
  | start :: rest => iloc df start (start + size) :: drain_pending df size rest
  end.

(** The batches a [for] loop (or [list(gen)]) receives from the generator,
    or the exception that ends the iteration. *)
Definition drain {A : Type} (g : chunk_gen A) : result (list (list A)) :=
  match g with
  | ChunkCreated df size =>
      match py_range 0 (Z.of_nat (length df)) size with
      | Raise e => Raise e
      | Ok pending => Ok (drain_pending df size pending)
      end
  | ChunkSuspended df size pending => Ok (drain_pending df size pending)
  | ChunkDone => Ok []
  end.

(** ceil(n / s) for a positive [s]. *)
Definition ceil_div (n s : Z) : Z := (n + s - 1) / s.

(** The batches of a positive size [s], as windows of [df]. *)
Definition windows {A : Type} (df : list A) (s : nat) (k : nat) : list (list A) :=
  map (fun i : nat => take s (drop (i * s) df)) (seq 0 k).

(** ** Python string operations used by [run_cypher_file]

    A [str] is the list of its code points. *)

Abbreviation text := (list N).

Definition text_of (s : string) : text :=
  map (fun a : Ascii.ascii => Ascii.N_of_ascii a) (String.list_ascii_of_string s).

Definition semicolon : N := 59%N.

(** [str.isspace] on one code point (CPython's [_PyUnicode_IsWhitespace]). *)
Definition py_isspace (c : N) : bool :=
  ((9 <=? c) && (c <=? 13) || (28 <=? c) && (c <=? 32)
   || (c =? 133) || (c =? 160) || (c =? 5760)
   || (8192 <=? c) && (c <=? 8202)
   || (c =? 8232) || (c =? 8233) || (c =? 8239) || (c =? 8287)
   || (c =? 12288))%N.

(** [s.split(sep)] for a one-character separator: never empty, and an
    empty fragment for every leading, trailing or doubled separator. *)
Fixpoint py_split (sep : N) (s : text) : list text :=
  match s with
  | [] => [[]]
  | c :: rest =>
      if (c =? sep)%N then [] :: py_split sep rest
      else match py_split sep rest with
           | frag :: frags => (c :: frag) :: frags
           | [] => [[c]]
           end
  end.

Fixpoint py_lstrip (s : text) : text :=
  match s with
  | [] => []
  | c :: rest => if py_isspace c then py_lstrip rest else s
  end.

Definition py_rstrip (s : text) : text := reverse (py_lstrip (reverse s)).

(** [s.strip()] *)
Definition py_strip (s : text) : text := py_rstrip (py_lstrip s).

(** Truth value of a [str]: non-empty. *)
Definition py_truthy (s : text) : bool :=
  match s with [] => false | _ :: _ => true end.

(** [[s.strip() for s in text.split(";") if s.strip()]] *)
Definition statements_of (file : text) : list text :=
  map py_strip (filter (fun s => py_truthy (py_strip s) = true) (py_split semicolon file)).

(** ** Source rows

    A row is the record that [df.to_dict("records")] hands to the driver
    for it. Key and foreign-key columns are integer columns without a
    missing cell; the other columns carry scalars. [VNull] is Python's
    [None], which the store takes as a null; [VNaN] is the float
    not-a-number, which the store takes as a value like any other. Which
    of the two stands for a SQL NULL is decided by the data frame, column
    by column (not-a-number in a numeric column), and not by [etl]: the
    rows here are the records as they are sent. *)

Inductive value : Type :=
| VNull
| VInt (z : Z)
| VStr (s : string)
| VNaN.

Record customer_row : Type :=
  { cu_id : Z; cu_name : value; cu_join_date : value }.
Record category_row : Type :=
  { ca_id : Z; ca_name : value }.
Record product_row : Type :=
  { pr_id : Z; pr_name : value; pr_price : value; pr_category_id : Z }.
Record order_row : Type :=
  { or_id : Z; or_customer_id : Z; or_ts : value }.
Record order_item_row : Type :=
  { oi_order_id : Z; oi_product_id : Z; oi_quantity : value }.
Record event_row : Type :=
  { ev_customer_id : Z; ev_product_id : Z; ev_event_type : string; ev_ts : value }.

(** The six tables as read by step 2 of [etl]. *)
Record snapshot : Type :=
  { customers : list customer_row;
    categories : list category_row;
    products : list product_row;
    orders : list order_row;
    order_items : list order_item_row;
    events : list event_row }.

(** ** The graph store

    Modelled from the spec: the schema file [queries.cypher] is not part
    of the sources; by the data model nodes are keyed by their label and
    source id (the id is unique per label), and a relationship by its
    (source, kind, target) triple. Nodes and relationships carry a map of
    properties. *)

Inductive label : Type := Category | Product | Customer | Order.

Inductive rel_kind : Type :=
| IN_CATEGORY | PLACED | CONTAINS | VIEW | CLICK | ADD_TO_CART.

#[global] Instance value_eq_dec : EqDecision value.
Proof. solve_decision. Defined.

#[global] Instance label_eq_dec : EqDecision label.
Proof. solve_decision. Defined.

#[global] Instance rel_kind_eq_dec : EqDecision rel_kind.
Proof. solve_decision. Defined.

#[global] Instance label_countable : Countable label.
Proof.
  refine (inj_countable'
            (fun l => match l with
                      | Category => 0 | Product => 1
                      | Customer => 2 | Order => 3
                      end%nat)
            (fun n => match n with
                      | 0 => Category | 1 => Product
                      | 2 => Customer | _ => Order
                      end%nat) _).
  by intros [].
Defined.

#[global] Instance rel_kind_countable : Countable rel_kind.
Proof.
  refine (inj_countable'
            (fun k => match k with
                      | IN_CATEGORY => 0 | PLACED => 1 | CONTAINS => 2
                      | VIEW => 3 | CLICK => 4 | ADD_TO_CART => 5
                      end%nat)
            (fun n => match n with
                      | 0 => IN_CATEGORY | 1 => PLACED | 2 => CONTAINS
                      | 3 => VIEW | 4 => CLICK | _ => ADD_TO_CART
                      end%nat) _).
  by intros [].
Defined.

Abbreviation props := (gmap string value).
Abbreviation node_key := (label * Z)%type.
Abbreviation edge_key := (label * Z * rel_kind * (label * Z))%type.

Record graph : Type := Graph
  { nodes : gmap (label * Z) (gmap string value);
    edges : gmap (label * Z * rel_kind * (label * Z)) (gmap string value) }.

Definition empty_graph : graph := Graph ∅ ∅.

(** *** Cypher clauses *)

(** [SET x.f = v]: a null removes the property; every other value,
    not-a-number included, is stored. *)
Definition set_prop (f : string) (v : value) (p : props) : props :=
  match v with
  | VNull => delete f p
  | _ => <[f := v]> p
  end.

(** [MERGE (n:L {id: i})]: bind the node, creating it when absent. *)
Definition merge_node (k : node_key) (g : graph) : graph :=
  match nodes g !! k with
  | Some _ => g
  | None => Graph (<[k := {[ "id" := VInt k.2 ]}]> (nodes g)) (edges g)
  end.

(** [SET n.f = v] on the bound node. *)
Definition set_node (k : node_key) (f : string) (v : value) (g : graph) : graph :=
  Graph (alter (set_prop f v) k (nodes g)) (edges g).

(** [MATCH (n:L {id: i})]: whether the row survives the clause. *)
Definition match_node (k : node_key) (g : graph) : bool :=
  bool_decide (is_Some (nodes g !! k)).

(** [MERGE (a)-[r:K]->(b)] between two bound nodes. *)
Definition merge_rel (e : edge_key) (g : graph) : graph :=
  match edges g !! e with
  | Some _ => g
  | None => Graph (nodes g) (<[e := ∅]> (edges g))
  end.

(** [SET r.f = v] on the bound relationship. *)
Definition set_rel (e : edge_key) (f : string) (v : value) (g : graph) : graph :=
  Graph (nodes g) (alter (set_prop f v) e (edges g)).

(** *** The text of the bulk statements

    The clauses that the statements of [etl] are written with. Every
    statement starts with [UNWIND $rows AS row]: its other clauses are
    evaluated for each record of [rows] in turn, with the variables bound
    so far. Whatever lies outside what [etl] writes (an unbound or
    rebound variable, a column of something that is not the record, a
    relationship between nodes that are not in the graph) is an error of
    the statement. The meaning of the clauses is the graph store's, which
    is not part of the sources: it follows the Cypher language. *)

(** What a variable of a statement is bound to. *)
Inductive binding (A : Type) : Type :=
| BRow (r : A)
| BNode (k : node_key)
| BRel (e : edge_key).
Arguments BRow {A} r.
Arguments BNode {A} k.
Arguments BRel {A} e.

Abbreviation scope A := (list (string * binding A)).

(** The clauses, over records of type [A]; [rv] is the variable of the
    record and [id], [col] the column read from it. *)
Inductive clause (A : Type) : Type :=
| MERGE_node (x : string) (l : label) (rv : string) (id : A -> Z)
    (* [MERGE (x:l {id: rv.id})] *)
| SET_prop (x : string) (f : string) (rv : string) (col : A -> value)
    (* [SET x.f = rv.col] *)
| WITH (xs : list string)
    (* [WITH x1, x2, ...] *)
| MATCH_node (x : string) (l : label) (rv : string) (id : A -> Z)
    (* [MATCH (x:l {id: rv.id})] *)
| MERGE_rel (a : string) (r : option string) (k : rel_kind) (b : string).
    (* [MERGE (a)-[r:k]->(b)], with or without a variable [r] *)
Arguments MERGE_node {A} x l rv id.
Arguments SET_prop {A} x f rv col.
Arguments WITH {A} xs.
Arguments MATCH_node {A} x l rv id.
Arguments MERGE_rel {A} a r k b.

(** The binding of the variable [x], if it is in scope. *)
Fixpoint bound {A : Type} (x : string) (sc : scope A) : option (binding A) :=
  match sc with
  | [] => None
  | (y, b) :: rest => if String.eqb x y then Some b else bound x rest
  end.

(** [rv.col] *)
Definition column {A R : Type} (sc : scope A) (rv : string) (col : A -> R)
  : result R :=
  match bound rv sc with
  | Some (BRow r) => Ok (col r)
  | Some _ => Raise (StoreError "type mismatch: expected a map")
  | None => Raise (StoreError "variable not defined")
  end.

(** The node that the variable [x] is bound to. *)
Definition node_of {A : Type} (sc : scope A) (x : string) : result node_key :=
  match bound x sc with
  | Some (BNode k) => Ok k
  | Some _ => Raise (StoreError "type mismatch: expected a node")
  | None => Raise (StoreError "variable not defined")
  end.

(** A clause binds a new variable. *)
Definition declare {A : Type} (x : string) (b : binding A) (sc : scope A)
  : result (scope A) :=
  match bound x sc with
  | Some _ => Raise (StoreError "variable already declared")
  | None => Ok ((x, b) :: sc)
  end.

(** [WITH xs]: only the variables of [xs] stay in scope. *)
Fixpoint project {A : Type} (xs : list string) (sc : scope A) : result (scope A) :=
  match xs with
  | [] => Ok []
  | x :: rest =>
      match bound x sc with
      | None => Raise (StoreError "variable not defined")
      | Some b =>
          match project rest sc with
          | Ok sc' => Ok ((x, b) :: sc')
          | Raise e => Raise e
          end
      end
  end.

(** One clause for one record: the scope for the next clause and the
    graph, or no scope when a [MATCH] finds no node, which ends the
    evaluation for this record without an error. *)
Definition eval_clause {A : Type} (c : clause A) (sc : scope A) (g : graph)
  : result (option (scope A) * graph) :=
  match c with
  | MERGE_node x l rv id =>
      match column sc rv id with
      | Raise e => Raise e
      | Ok i =>
          match declare x (BNode (l, i)) sc with
          | Raise e => Raise e
          | Ok sc' => Ok (Some sc', merge_node (l, i) g)
          end
      end
  | SET_prop x f rv col =>
      match column sc rv col with
      | Raise e => Raise e
      | Ok v =>
          match bound x sc with
          | Some (BNode k) => Ok (Some sc, set_node k f v g)
          | Some (BRel e) => Ok (Some sc, set_rel e f v g)
          | Some (BRow _) =>
              Raise (StoreError "type mismatch: expected a node or a relationship")
          | None => Raise (StoreError "variable not defined")
          end
      end
  | WITH xs =>
      match project xs sc with
      | Raise e => Raise e
      | Ok sc' => Ok (Some sc', g)
      end
  | MATCH_node x l rv id =>
      match column sc rv id with
      | Raise e => Raise e
      | Ok i =>
          match declare x (BNode (l, i)) sc with
          | Raise e => Raise e
          | Ok sc' => if match_node (l, i) g then Ok (Some sc', g) else Ok (None, g)
          end
      end
  | MERGE_rel a r k b =>
      match node_of sc a with
      | Raise e => Raise e
      | Ok ka =>
          match node_of sc b with
          | Raise e => Raise e
          | Ok kb =>
              if match_node ka g && match_node kb g then
                match r with
                | None => Ok (Some sc, merge_rel (ka, k, kb) g)
                | Some x =>
                    match declare x (BRel (ka, k, kb)) sc with
                    | Raise e => Raise e
                    | Ok sc' => Ok (Some sc', merge_rel (ka, k, kb) g)
                    end
                end
              else Raise (StoreError "relationship endpoint is not in the graph")
          end
      end
  end.

Fixpoint eval_clauses {A : Type} (cs : list (clause A)) (sc : scope A) (g : graph)
  : result graph :=
  match cs with
  | [] => Ok g
  | c :: rest =>
      match eval_clause c sc g with
      | Raise e => Raise e
      | Ok (None, g') => Ok g'
      | Ok (Some sc', g') => eval_clauses rest sc' g'
      end
  end.

(** [UNWIND $rows AS rv] followed by the clauses [cs]. *)
Fixpoint unwind {A : Type} (rv : string) (cs : list (clause A)) (rows : list A)
  (g : graph) : result graph :=
  match rows with
  | [] => Ok g
  | r :: rest =>
      match eval_clauses cs [(rv, BRow r)] g with
      | Ok g' => unwind rv cs rest g'
      | Raise e => Raise e
      end
  end.

(** The eight statements of [etl], without their [UNWIND]. *)
Definition categories_query : list (clause category_row) :=
  [ MERGE_node "c" Category "row" ca_id;
    SET_prop "c" "name" "row" ca_name ].

Definition products_query : list (clause product_row) :=
  [ MERGE_node "p" Product "row" pr_id;
    SET_prop "p" "name" "row" pr_name;
    SET_prop "p" "price" "row" pr_price;
    WITH ["p"; "row"];
    MATCH_node "c" Category "row" pr_category_id;
    MERGE_rel "p" None IN_CATEGORY "c" ].

Definition customers_query : list (clause customer_row) :=
  [ MERGE_node "c" Customer "row" cu_id;
    SET_prop "c" "name" "row" cu_name;
    SET_prop "c" "join_date" "row" cu_join_date ].

Definition orders_query : list (clause order_row) :=
  [ MERGE_node "o" Order "row" or_id;
    SET_prop "o" "ts" "row" or_ts;
    WITH ["o"; "row"];
    MATCH_node "c" Customer "row" or_customer_id;
    MERGE_rel "c" None PLACED "o" ].

Definition order_items_query : list (clause order_item_row) :=
  [ MATCH_node "o" Order "row" oi_order_id;
    MATCH_node "p" Product "row" oi_product_id;
    MERGE_rel "o" (Some "r") CONTAINS "p";
    SET_prop "r" "quantity" "row" oi_quantity ].

(** The three event statements differ only in the relationship type. *)
Definition events_query (kind : rel_kind) : list (clause event_row) :=
  [ MATCH_node "c" Customer "row" ev_customer_id;
    MATCH_node "p" Product "row" ev_product_id;
    MERGE_rel "c" (Some "r") kind "p";
    SET_prop "r" "ts" "row" ev_ts ].

(** *** The effect of the bulk statements on the graph, for one row of
    [UNWIND $rows AS row], in closed form *)

Definition category_row_query (row : category_row) (g : graph) : graph :=
  let c := (Category, ca_id row) in
  let g := merge_node c g in
  set_node c "name" (ca_name row) g.

Definition product_row_query (row : product_row) (g : graph) : graph :=
  let p := (Product, pr_id row) in
  let g := merge_node p g in
  let g := set_node p "name" (pr_name row) g in
  let g := set_node p "price" (pr_price row) g in
  let c := (Category, pr_category_id row) in
  if match_node c g then merge_rel (p, IN_CATEGORY, c) g else g.

Definition customer_row_query (row : customer_row) (g : graph) : graph :=
  let c := (Customer, cu_id row) in
  let g := merge_node c g in
  let g := set_node c "name" (cu_name row) g in
  set_node c "join_date" (cu_join_date row) g.

Definition order_row_query (row : order_row) (g : graph) : graph :=
  let o := (Order, or_id row) in
  let g := merge_node o g in
  let g := set_node o "ts" (or_ts row) g in
  let c := (Customer, or_customer_id row) in
  if match_node c g then merge_rel (c, PLACED, o) g else g.

Definition order_item_row_query (row : order_item_row) (g : graph) : graph :=
  let o := (Order, oi_order_id row) in
  let p := (Product, oi_product_id row) in
  if match_node o g then
    if match_node p g then
      let g := merge_rel (o, CONTAINS, p) g in
      set_rel (o, CONTAINS, p) "quantity" (oi_quantity row) g
    else g
  else g.

(** The closed form of the three event statements. *)
Definition event_row_query (kind : rel_kind) (row : event_row) (g : graph) : graph :=
  let c := (Customer, ev_customer_id row) in
  let p := (Product, ev_product_id row) in
  if match_node c g then
    if match_node p g then
      let g := merge_rel (c, kind, p) g in
      set_rel (c, kind, p) "ts" (ev_ts row) g
    else g
  else g.

(** A bulk statement together with its [rows] parameter. *)
Inductive load_query : Type :=
| LoadCategories (rows : list category_row)
| LoadProducts (rows : list product_row)
| LoadCustomers (rows : list customer_row)
| LoadOrders (rows : list order_row)
| LoadOrderItems (rows : list order_item_row)
| LoadViews (rows : list event_row)
| LoadClicks (rows : list event_row)
| LoadAddToCarts (rows : list event_row).

(** The effect of a bulk statement: the rows are processed in order. *)
Definition apply_query (q : load_query) (g : graph) : graph :=
  match q with
  | LoadCategories rows => foldl (fun g row => category_row_query row g) g rows
  | LoadProducts rows => foldl (fun g row => product_row_query row g) g rows
  | LoadCustomers rows => foldl (fun g row => customer_row_query row g) g rows
  | LoadOrders rows => foldl (fun g row => order_row_query row g) g rows
  | LoadOrderItems rows => foldl (fun g row => order_item_row_query row g) g rows
  | LoadViews rows => foldl (fun g row => event_row_query VIEW row g) g rows
  | LoadClicks rows => foldl (fun g row => event_row_query CLICK row g) g rows
  | LoadAddToCarts rows => foldl (fun g row => event_row_query ADD_TO_CART row g) g rows
  end.

(** The evaluation of a bulk statement on its [rows] parameter. *)
Definition run_query (q : load_query) (g : graph) : result graph :=
  match q with
  | LoadCategories rows => unwind "row" categories_query rows g
  | LoadProducts rows => unwind "row" products_query rows g
  | LoadCustomers rows => unwind "row" customers_query rows g
  | LoadOrders rows => unwind "row" orders_query rows g
  | LoadOrderItems rows => unwind "row" order_items_query rows g
  | LoadViews rows => unwind "row" (events_query VIEW) rows g
  | LoadClicks rows => unwind "row" (events_query CLICK) rows g
  | LoadAddToCarts rows => unwind "row" (events_query ADD_TO_CART) rows g
  end.

(** ** The environment and the state of a run *)

(** What the run does to the outside world, in order. Console output is
    not recorded. *)
Inductive event : Type :=
| EvProbe (store : string) (ok : bool)   (* one connectivity check of a gate *)
| EvSleep (seconds : Z)
| EvPgConnect
| EvDriverCreate
| EvSessionOpen
| EvSessionClose
| EvReadText
| EvRunSchema (stmt : text)               (* [session.run(stmt)] of the schema loader *)
| EvReadSql (table : string)
| EvRun (q : load_query)                  (* [session.run(query, {"rows": ...})] *)
| EvPgClose
| EvDriverClose.

Record env : Type :=
  { (* outcome of the n-th connectivity check of each gate *)
    pg_probe : nat -> result unit;
    neo4j_probe : nat -> result unit;
    (* [psycopg2.connect] of [etl] itself *)
    pg_connect : result unit;
    (* contents of [queries.cypher] *)
    queries_file : result text;
    (* what the graph store does with a schema statement *)
    run_schema : text -> graph -> result graph;
    (* [pd.read_sql] on each table *)
    tbl_customers : result (list customer_row);
    tbl_categories : result (list category_row);
    tbl_products : result (list product_row);
    tbl_orders : result (list order_row);
    tbl_order_items : result (list order_item_row);
    tbl_events : result (list event_row);
    (* a store-client exception raised by a bulk statement, given the
       history of the run so far *)
    run_fault : list event -> option exn }.

Record st : Type := St
  { st_graph : graph;
    st_trace : list event;
    pg_open : bool;
    driver_open : bool;
    session_open : bool }.

(** Computations that read and update the state and may raise. *)
Definition M (A : Type) : Type := st -> result A * st.

Definition ret {A : Type} (a : A) : M A := fun s => (Ok a, s).

Definition raise {A : Type} (e : exn) : M A := fun s => (Raise e, s).

Definition bind {A B : Type} (m : M A) (k : A -> M B) : M B :=
  fun s =>
    match m s with
    | (Ok a, s') => k a s'
    | (Raise e, s') => (Raise e, s')
    end.

#[global] Instance M_ret : MRet M := @ret.
#[global] Instance M_bind : MBind M := fun A B k m => bind m k.

Definition emit (ev : event) : M unit :=
  fun s => (Ok tt, St (st_graph s) (st_trace s ++ [ev])
                      (pg_open s) (driver_open s) (session_open s)).

Definition lift {A : Type} (r : result A) : M A :=
  match r with
  | Ok a => ret a
  | Raise e => raise e
  end.

(** [try: body finally: fin]: [fin] runs however [body] ends; the
    exception of [body] propagates unless [fin] raises itself. *)
Definition try_finally {A : Type} (body : M A) (fin : M unit) : M A :=
  fun s =>
    match body s with
    | (r, s1) =>
        match fin s1 with
        | (Ok _, s2) => (r, s2)
        | (Raise e, s2) => (Raise e, s2)
        end
    end.

(** [for x in xs: body(x)] *)
Fixpoint for_each {A : Type} (xs : list A) (body : A -> M unit) : M unit :=
  match xs with
  | [] => ret tt
  | x :: rest => body x ;; for_each rest body
  end.

(** [for df in gen: body(df)]: the generator has no effect on the state,
    and can only raise at its first [next]. *)
Definition for_chunks {A : Type} (gen : chunk_gen A) (body : list A -> M unit)
  : M unit :=
  match drain gen with
  | Raise e => raise e
  | Ok batches => for_each batches body
  end.

(** ** Readiness gates *)

Definition PG_RETRY_SECONDS : Z := 2.
Definition NEO4J_RETRY_SECONDS : Z := 2.

(** The [while True] loop of a gate, from its [n]-th iteration. [None]
    is a gate that is still looping when the fuel is spent. *)
Fixpoint wait_loop (store : string) (retry : Z) (probe : nat -> result unit)
  (fuel : nat) (n : nat) (s : st) : option (result unit * st) :=
  match fuel with
  | O => None
  | S fuel' =>
      match probe n with
      | Ok _ =>
          Some (emit (EvProbe store true) s)
      | Raise _ =>
          match (emit (EvProbe store false) ;; emit (EvSleep retry)) s with
          | (Ok _, s') => wait_loop store retry probe fuel' (S n) s'
          | (Raise e, s') => Some (Raise e, s')
          end
      end
  end.

Definition wait_for_postgres (w : env) (fuel : nat) (s : st)
  : option (result unit * st) :=
  wait_loop "postgres" PG_RETRY_SECONDS (pg_probe w) fuel 0 s.

Definition wait_for_neo4j (w : env) (fuel : nat) (s : st)
  : option (result unit * st) :=
  wait_loop "neo4j" NEO4J_RETRY_SECONDS (neo4j_probe w) fuel 0 s.

(** ** Schema loader *)

(** [session.run(stmt)] for a schema statement. *)
Definition exec_schema (w : env) (stmt : text) : M unit :=
  fun s =>
    match run_schema w stmt (st_graph s) with
    | Ok g => (Ok tt, St g (st_trace s) (pg_open s) (driver_open s) (session_open s))
    | Raise e => (Raise e, s)
    end.

Definition session_run_schema (w : env) (stmt : text) : M unit :=
  emit (EvRunSchema stmt) ;; exec_schema w stmt.

Definition run_cypher_file (w : env) : M unit :=
  file ← (emit EvReadText ;; lift (queries_file w));
  let statements := statements_of file in
  for_each statements (fun stmt => session_run_schema w stmt).

(** ** Load phase *)

(** [session.run(query, {"rows": df.to_dict("records")})]: the statement
    runs in a transaction of its own, so that a failing statement changes
    nothing in the graph. It fails when the store client does, or when
    the statement itself raises. *)
Definition session_run (w : env) (q : load_query) : M unit :=
  fun s =>
    let s' := St (st_graph s) (st_trace s ++ [EvRun q])
                 (pg_open s) (driver_open s) (session_open s) in
    match run_fault w (st_trace s) with
    | Some e => (Raise e, s')
    | None =>
        match run_query q (st_graph s) with
        | Ok g =>
            (Ok tt, St g (st_trace s') (pg_open s) (driver_open s) (session_open s))
        | Raise e => (Raise e, s')
        end
    end.

Definition read_sql {A : Type} (table : string) (rows : result (list A))
  : M (list A) :=
  emit (EvReadSql table) ;; lift rows.

(** Step 2 of [etl]. *)
Definition extract (w : env) : M snapshot :=
  customers ← read_sql "customers" (tbl_customers w);
  categories ← read_sql "categories" (tbl_categories w);
  products ← read_sql "products" (tbl_products w);
  orders ← read_sql "orders" (tbl_orders w);
  order_items ← read_sql "order_items" (tbl_order_items w);
  events ← read_sql "events" (tbl_events w);
  ret {| customers := customers; categories := categories;
         products := products; orders := orders;
         order_items := order_items; events := events |}.

(** Steps 3 to 8 of [etl]. *)
Definition load_phase (w : env) (t : snapshot) : M unit :=
  for_chunks (chunk (categories t) 100) (fun df => session_run w (LoadCategories df)) ;;
  for_chunks (chunk (products t) 100) (fun df => session_run w (LoadProducts df)) ;;
  for_chunks (chunk (customers t) 100) (fun df => session_run w (LoadCustomers df)) ;;
  for_chunks (chunk (orders t) 100) (fun df => session_run w (LoadOrders df)) ;;
  for_chunks (chunk (order_items t) 100) (fun df => session_run w (LoadOrderItems df)) ;;
  let view_df := filter (fun r => ev_event_type r = "view") (events t) in
  for_chunks (chunk view_df 100) (fun df => session_run w (LoadViews df)) ;;
  let click_df := filter (fun r => ev_event_type r = "click") (events t) in
  for_chunks (chunk click_df 100) (fun df => session_run w (LoadClicks df)) ;;
  let atc_df := filter (fun r => ev_event_type r = "add_to_cart") (events t) in
  for_chunks (chunk atc_df 100) (fun df => session_run w (LoadAddToCarts df)).

(** The body of [with driver.session() as session]. *)
Definition etl_session (w : env) : M unit :=
  run_cypher_file w ;;
  t ← extract w;
  load_phase w t.

Definition set_session (b : bool) : M unit :=
  fun s => (Ok tt, St (st_graph s) (st_trace s) (pg_open s) (driver_open s) b).

Definition set_pg (b : bool) : M unit :=
  fun s => (Ok tt, St (st_graph s) (st_trace s) b (driver_open s) (session_open s)).

Definition set_driver (b : bool) : M unit :=
  fun s => (Ok tt, St (st_graph s) (st_trace s) (pg_open s) b (session_open s)).

(** [with driver.session() as session: body]: the session is closed
    however [body] ends. *)
Definition with_session (body : M unit) : M unit :=
  emit EvSessionOpen ;; set_session true ;;
  try_finally body (emit EvSessionClose ;; set_session false).

(** The [try ... finally] of [etl]. *)
Definition etl_try (w : env) : M unit :=
  try_finally
    (with_session (etl_session w))
    (emit EvPgClose ;; set_pg false ;;
     emit EvDriverClose ;; set_driver false).

(** [etl()]. [None] is a run still blocked in a readiness gate when the
    fuel is spent. *)
Definition etl (w : env) (fuel : nat) (s : st) : option (result unit * st) :=
  match wait_for_postgres w fuel s with
  | None => None
  | Some (Raise e, s1) => Some (Raise e, s1)
  | Some (Ok _, s1) =>
      match wait_for_neo4j w fuel s1 with
      | None => None
      | Some (Raise e, s2) => Some (Raise e, s2)
      | Some (Ok _, s2) =>
          Some ((emit EvPgConnect ;; lift (pg_connect w) ;; set_pg true ;;
                 emit EvDriverCreate ;; set_driver true ;;
                 etl_try w) s2)
      end
  end.

Definition initial_state : st := St empty_graph [] false false false.

(** ** Vocabulary of the statements *)

Definition is_ok {A : Type} (r : result A) : bool :=
  match r with Ok _ => true | Raise _ => false end.

(** The state after the run has done [tr] to the outside world. *)
Definition add_trace (tr : list event) (s : st) : st :=
  St (st_graph s) (st_trace s ++ tr) (pg_open s) (driver_open s) (session_open s).

(** What a gate does when its first [k] checks fail and the next one
    succeeds: [k] failed checks, each followed by a sleep of [retry]
    seconds, then the successful check. *)
Definition gate_trace (store : string) (retry : Z) (k : nat) : list event :=
  mjoin (replicate k [EvProbe store false; EvSleep retry]) ++ [EvProbe store true].

Definition is_probe (ev : event) : bool :=
  match ev with EvProbe _ _ => true | _ => false end.

(** Number of connectivity checks in a trace. *)
Definition attempts (tr : list event) : nat := length (filter (fun ev => is_probe ev = true) tr).

(** The contract of a readiness gate [gate] that checks [probe]. *)
Definition gate_spec (store : string) (retry : Z) (probe : nat -> result unit)
  (gate : nat -> st -> option (result unit * st)) : Prop :=
  (* it never returns an error *)
  (forall fuel s r s', gate fuel s = Some (r, s') -> r = Ok tt)
  (* when some check succeeds, it returns right after the first success *)
  /\ (forall n, is_ok (probe n) = true ->
        exists k, (k <= n)%nat
          /\ is_ok (probe k) = true
          /\ (forall j, (j < k)%nat -> is_ok (probe j) = false)
          /\ attempts (gate_trace store retry k) = S k
          /\ forall fuel s, (k < fuel)%nat ->
               gate fuel s = Some (Ok tt, add_trace (gate_trace store retry k) s))
  (* when no check ever succeeds, it never returns *)
  /\ ((forall n, is_ok (probe n) = false) -> forall fuel s, gate fuel s = None).

Definition with_graph (g : graph) (s : st) : st :=
  St g (st_trace s) (pg_open s) (driver_open s) (session_open s).

(** [sep.join(frags)] *)
Fixpoint py_join (sep : N) (frags : list text) : text :=
  match frags with
  | [] => []
  | f :: rest =>
      match rest with
      | [] => f
      | _ :: _ => f ++ sep :: py_join sep rest
      end
  end.

Definition whitespace (s : text) : Prop := Forall (fun c => py_isspace c = true) s.

(** [t] is [s] without its leading and trailing whitespace. *)
Definition trimmed (s t : text) : Prop :=
  (exists l r, s = l ++ t ++ r /\ whitespace l /\ whitespace r)
  /\ (forall c rest, t = c :: rest -> py_isspace c = false)
  /\ (forall c, last t = Some c -> py_isspace c = false).

(** The graph after all of [stmts] have executed, in order, without a
    failure. *)
Fixpoint run_all (w : env) (stmts : list text) (g : graph) : result graph :=
  match stmts with
  | [] => Ok g
  | stmt :: rest =>
      match run_schema w stmt g with
      | Ok g' => run_all w rest g'
      | Raise e => Raise e
      end
  end.

(** The batches of the loops of [etl], whose size is always 100. *)
Definition batches {A : Type} (rows : list A) : list (list A) :=
  windows rows 100 (Z.to_nat (ceil_div (Z.of_nat (length rows)) 100)).

(** The bulk statements that a load phase without failure issues, in order. *)
Definition load_plan (t : snapshot) : list load_query :=
  map LoadCategories (batches (categories t))
  ++ map LoadProducts (batches (products t))
  ++ map LoadCustomers (batches (customers t))
  ++ map LoadOrders (batches (orders t))
  ++ map LoadOrderItems (batches (order_items t))
  ++ map LoadViews (batches (filter (fun r => ev_event_type r = "view") (events t)))
  ++ map LoadClicks (batches (filter (fun r => ev_event_type r = "click") (events t)))
  ++ map LoadAddToCarts
       (batches (filter (fun r => ev_event_type r = "add_to_cart") (events t))).

(** The bulk statements of a trace. *)
Definition runs_of (tr : list event) : list load_query :=
  omap (fun ev => match ev with EvRun q => Some q | _ => None end) tr.

(** Position of a bulk statement in the text of [etl]. *)
Definition phase (q : load_query) : nat :=
  match q with
  | LoadCategories _ => 0
  | LoadProducts _ => 1
  | LoadCustomers _ => 2
  | LoadOrders _ => 3
  | LoadOrderItems _ => 4
  | LoadViews _ => 5
  | LoadClicks _ => 6
  | LoadAddToCarts _ => 7
  end.

(** The order that the data model requires: categories before products,
    customers before orders, and customers, orders and products before
    order items and events. *)
Definition must_precede (a b : load_query) : bool :=
  match a, b with
  | LoadCategories _, LoadProducts _ => true
  | LoadCustomers _, LoadOrders _ => true
  | (LoadCustomers _ | LoadOrders _ | LoadProducts _),
    (LoadOrderItems _ | LoadViews _ | LoadClicks _ | LoadAddToCarts _) => true
  | _, _ => false
  end.

(** The state in which the body of [with driver.session()] starts. *)
Definition session_opened (s : st) : st :=
  St (st_graph s) (st_trace s ++ [EvSessionOpen]) (pg_open s) (driver_open s) true.

(** Computations that issue no bulk statement. *)
Definition quiet {A : Type} (m : M A) : Prop :=
  forall s, exists tr, st_trace (m s).2 = st_trace s ++ tr /\ runs_of tr = [].

(** ** A normal form for the bulk statements

    Every bulk statement amounts to a list of keyed writes: the upsert of
    a node, or the upsert of a relationship guarded by the presence of
    the nodes that its [MATCH] clauses look up. *)

(** The property assignments of a [SET] clause, left to right. *)
Definition set_props (a : list (string * value)) (p : props) : props :=
  foldl (fun p fv => set_prop fv.1 fv.2 p) p a.

(** Upsert by key: create the entry with its initial properties when it
    is absent, then assign. *)
Definition upsert {K : Type} `{Countable K} (init : K -> props)
  (u : K * list (string * value)) (m : gmap K props) : gmap K props :=
  <[u.1 := set_props u.2 (default (init u.1) (m !! u.1))]> m.

Definition run_upserts {K : Type} `{Countable K} (init : K -> props)
  (us : list (K * list (string * value))) (m : gmap K props) : gmap K props :=
  foldl (fun m u => upsert init u m) m us.

Definition node_init (k : node_key) : props := {[ "id" := VInt k.2 ]}.
Definition edge_init (e : edge_key) : props := ∅.

Inductive op : Type :=
| NodeUp (k : node_key) (a : list (string * value))
| EdgeIf (tests : list node_key) (e : edge_key) (a : list (string * value)).

Definition run_op (o : op) (g : graph) : graph :=
  match o with
  | NodeUp k a => Graph (upsert node_init (k, a) (nodes g)) (edges g)
  | EdgeIf tests e a =>
      if forallb (fun k => match_node k g) tests
      then Graph (nodes g) (upsert edge_init (e, a) (edges g))
      else g
  end.

Definition run_ops (ops : list op) (g : graph) : graph :=
  foldl (fun g o => run_op o g) g ops.

Definition category_ops (row : category_row) : list op :=
  [NodeUp (Category, ca_id row) [("name", ca_name row)]].

Definition product_ops (row : product_row) : list op :=
  [NodeUp (Product, pr_id row) [("name", pr_name row); ("price", pr_price row)];
   EdgeIf [(Category, pr_category_id row)]
     ((Product, pr_id row), IN_CATEGORY, (Category, pr_category_id row)) []].

Definition customer_ops (row : customer_row) : list op :=
  [NodeUp (Customer, cu_id row)
     [("name", cu_name row); ("join_date", cu_join_date row)]].

Definition order_ops (row : order_row) : list op :=
  [NodeUp (Order, or_id row) [("ts", or_ts row)];
   EdgeIf [(Customer, or_customer_id row)]
     ((Customer, or_customer_id row), PLACED, (Order, or_id row)) []].

Definition order_item_ops (row : order_item_row) : list op :=
  [EdgeIf [(Order, oi_order_id row); (Product, oi_product_id row)]
     ((Order, oi_order_id row), CONTAINS, (Product, oi_product_id row))
     [("quantity", oi_quantity row)]].

Definition event_ops (kind : rel_kind) (row : event_row) : list op :=
  [EdgeIf [(Customer, ev_customer_id row); (Product, ev_product_id row)]
     ((Customer, ev_customer_id row), kind, (Product, ev_product_id row))
     [("ts", ev_ts row)]].

Definition query_ops (q : load_query) : list op :=
  match q with
  | LoadCategories rows => flat_map category_ops rows
  | LoadProducts rows => flat_map product_ops rows
  | LoadCustomers rows => flat_map customer_ops rows
  | LoadOrders rows => flat_map order_ops rows
  | LoadOrderItems rows => flat_map order_item_ops rows
  | LoadViews rows => flat_map (event_ops VIEW) rows
  | LoadClicks rows => flat_map (event_ops CLICK) rows
  | LoadAddToCarts rows => flat_map (event_ops ADD_TO_CART) rows
  end.

(** The node writes of a list of operations. *)
Definition node_upds (ops : list op) : list (node_key * list (string * value)) :=
  omap (fun o => match o with NodeUp k a => Some (k, a) | EdgeIf _ _ _ => None end) ops.

(** The relationship writes whose guards hold in the set [S] of nodes. *)
Definition edge_upds (S : gset node_key) (ops : list op)
  : list (edge_key * list (string * value)) :=
  omap (fun o => match o with
                 | NodeUp _ _ => None
                 | EdgeIf tests e a =>
                     if forallb (fun k => bool_decide (k ∈ S)) tests
                     then Some (e, a) else None
                 end) ops.

Definition op_tests (o : op) : list node_key :=
  match o with NodeUp _ _ => [] | EdgeIf tests _ _ => tests end.

(** No node that a guard looks up is written by a later operation. *)
Fixpoint staged (ops : list op) : Prop :=
  match ops with
  | [] => True
  | o :: rest =>
      (forall x, x ∈ op_tests o -> x ∉ (node_upds rest).*1) /\ staged rest
  end.

Definition label_phase (l : label) : nat :=
  match l with Category => 0 | Product => 1 | Customer => 2 | Order => 3 end.

Definition kind_phase (k : rel_kind) : nat :=
  match k with
  | IN_CATEGORY => 1 | PLACED => 3 | CONTAINS => 4
  | VIEW => 5 | CLICK => 6 | ADD_TO_CART => 7
  end.

Definition op_phase (o : op) : nat :=
  match o with
  | NodeUp k _ => label_phase k.1
  | EdgeIf _ e _ => kind_phase e.1.2
  end.

(** The labels that a guard looks up are loaded in an earlier phase. *)
Definition tests_ok (o : op) : Prop :=
  match o with
  | NodeUp _ _ => True
  | EdgeIf tests e _ =>
      Forall (fun x : node_key => (label_phase x.1 < kind_phase e.1.2)%nat) tests
  end.

(** The last value assigned to [f], if any. *)
Fixpoint assigned (f : string) (a : list (string * value)) : option value :=
  match a with
  | [] => None
  | fv :: rest =>
      match assigned f rest with
      | Some v => Some v
      | None => if decide (f = fv.1) then Some fv.2 else None
      end
  end.

Definition stored (v : value) : option value :=
  match v with VNull => None | _ => Some v end.

(** All the assignments to the key [k], in order. *)
Definition assigns_for {K : Type} `{Countable K} (k : K)
  (us : list (K * list (string * value))) : list (string * value) :=
  concat (map snd (filter (fun u => u.1 = k) us)).

(** ** Vocabulary of the load-phase statements *)

Definition with_events (t : snapshot) (evs : list event_row) : snapshot :=
  {| customers := customers t; categories := categories t;
     products := products t; orders := orders t;
     order_items := order_items t; events := evs |}.

(** A snapshot whose entity tables are empty. *)
Definition only_events (evs : list event_row) : snapshot :=
  {| customers := []; categories := []; products := []; orders := [];
     order_items := []; events := evs |}.

Definition known_event_type (ty : string) : Prop :=
  ty = "view" \/ ty = "click" \/ ty = "add_to_cart".

(** The nodes that the [MERGE] of a statement creates or finds. *)
Definition merged_nodes (q : load_query) : list node_key :=
  match q with
  | LoadCategories rows => map (fun r => (Category, ca_id r)) rows
  | LoadProducts rows => map (fun r => (Product, pr_id r)) rows
  | LoadCustomers rows => map (fun r => (Customer, cu_id r)) rows
  | LoadOrders rows => map (fun r => (Order, or_id r)) rows
  | LoadOrderItems _ | LoadViews _ | LoadClicks _ | LoadAddToCarts _ => []
  end.

(** The relationship type that the load phase gives to an event type. *)
Definition event_kind (ty : string) : option rel_kind :=
  if decide (ty = "view") then Some VIEW
  else if decide (ty = "click") then Some CLICK
  else if decide (ty = "add_to_cart") then Some ADD_TO_CART
  else None.

Definition event_key (kind : rel_kind) (r : event_row) : edge_key :=
  ((Customer, ev_customer_id r), kind, (Product, ev_product_id r)).

(** The relationship that each row of a statement asks for. *)
Definition row_edges (q : load_query) : list edge_key :=
  match q with
  | LoadCategories _ | LoadCustomers _ => []
  | LoadProducts rows =>
      map (fun r => ((Product, pr_id r), IN_CATEGORY, (Category, pr_category_id r))) rows
  | LoadOrders rows =>
      map (fun r => ((Customer, or_customer_id r), PLACED, (Order, or_id r))) rows
  | LoadOrderItems rows =>
      map (fun r => ((Order, oi_order_id r), CONTAINS, (Product, oi_product_id r))) rows
  | LoadViews rows => map (event_key VIEW) rows
  | LoadClicks rows => map (event_key CLICK) rows
  | LoadAddToCarts rows => map (event_key ADD_TO_CART) rows
  end.

(** The endpoints that the statement of a relationship looks up with
    [MATCH]. The product and order statements look up one endpoint and
    merge the other themselves. *)
Definition looked_up (e : edge_key) : list node_key :=
  match e.1.2 with
  | IN_CATEGORY => [e.2]
  | PLACED => [e.1.1]
  | CONTAINS | VIEW | CLICK | ADD_TO_CART => [e.1.1; e.2]
  end.

(** The relationship that an event row is loaded into, if any. *)
Definition event_edge (r : event_row) : option edge_key :=
  match event_kind (ev_event_type r) with
  | Some kind => Some (event_key kind r)
  | None => None
  end.

Definition event_triple (r : event_row) : Z * Z * string :=
  (ev_customer_id r, ev_product_id r, ev_event_type r).

Definition valid_endpoints (g : graph) (r : event_row) : Prop :=
  is_Some (nodes g !! (Customer, ev_customer_id r))
  /\ is_Some (nodes g !! (Product, ev_product_id r)).

(** ** A sample run

    The scenario of one category, one product in it, one customer, one
    order of that customer with three units of that product, and one view
    of the product by the customer. The relational store refuses the first
    two connections. *)

Definition sample_file : text :=
  text_of "CREATE CONSTRAINT c1 ;
 ; CREATE CONSTRAINT c2;".

Definition sample_snapshot : snapshot :=
  {| customers :=
       [ {| cu_id := 1; cu_name := VStr "Ann"; cu_join_date := VStr "2024-01-01" |} ];
     categories := [ {| ca_id := 7; ca_name := VStr "Books" |} ];
     products :=
       [ {| pr_id := 3; pr_name := VStr "Novel"; pr_price := VInt 12;
            pr_category_id := 7 |} ];
     orders := [ {| or_id := 5; or_customer_id := 1; or_ts := VStr "t0" |} ];
     order_items := [ {| oi_order_id := 5; oi_product_id := 3; oi_quantity := VInt 3 |} ];
     events :=
       [ {| ev_customer_id := 1; ev_product_id := 3; ev_event_type := "view";
            ev_ts := VStr "t1" |} ] |}.

Definition sample_env : env :=
  {| pg_probe := fun n => if (n <? 2)%nat then Raise (StoreError "refused") else Ok tt;
     neo4j_probe := fun _ => Ok tt;
     pg_connect := Ok tt;
     queries_file := Ok sample_file;
     run_schema := fun _ g => Ok g;
     tbl_customers := Ok (customers sample_snapshot);
     tbl_categories := Ok (categories sample_snapshot);
     tbl_products := Ok (products sample_snapshot);
     tbl_orders := Ok (orders sample_snapshot);
     tbl_order_items := Ok (order_items sample_snapshot);
     tbl_events := Ok (events sample_snapshot);
     run_fault := fun _ => None |}.

(** The same store, refusing the second schema statement. *)
Definition failing_schema_env : env :=
  {| pg_probe := pg_probe sample_env;
     neo4j_probe := neo4j_probe sample_env;
     pg_connect := Ok tt;
     queries_file := Ok sample_file;
     run_schema := fun stmt g =>
       if decide (stmt = text_of "CREATE CONSTRAINT c2")
       then Raise (StoreError "syntax error") else Ok g;
     tbl_customers := tbl_customers sample_env;
     tbl_categories := tbl_categories sample_env;
     tbl_products := tbl_products sample_env;
     tbl_orders := tbl_orders sample_env;
     tbl_order_items := tbl_order_items sample_env;
     tbl_events := tbl_events sample_env;
     run_fault := fun _ => None |}.

(** The same store, raising on the third bulk statement. *)
Definition failing_load_env : env :=
  {| pg_probe := pg_probe sample_env;
     neo4j_probe := neo4j_probe sample_env;
     pg_connect := Ok tt;
     queries_file := Ok sample_file;
     run_schema := fun _ g => Ok g;
     tbl_customers := tbl_customers sample_env;
     tbl_categories := tbl_categories sample_env;
     tbl_products := tbl_products sample_env;
     tbl_orders := tbl_orders sample_env;
     tbl_order_items := tbl_order_items sample_env;
     tbl_events := tbl_events sample_env;
     run_fault := fun tr =>
       if (length (runs_of tr) =? 2)%nat
       then Some (StoreError "connection lost") else None |}.

(** A graph that holds customer 1 and product 3 and no relationship. *)
Definition seeded_graph : graph :=
  Graph (<[(Customer, 1) := node_init (Customer, 1)]>
           (<[(Product, 3) := node_init (Product, 3)]> ∅)) ∅.

Definition seeded_state : st := St seeded_graph [] true true true.

(** Two views of product 3 by customer 1, at different times. *)
Definition two_views : list event_row :=
  [ {| ev_customer_id := 1; ev_product_id := 3; ev_event_type := "view";
       ev_ts := VStr "t1" |};
    {| ev_customer_id := 1; ev_product_id := 3; ev_event_type := "view";
       ev_ts := VStr "t2" |} ].

(** A view and a click of product 3 by customer 1. *)
Definition view_and_click : list event_row :=
  [ {| ev_customer_id := 1; ev_product_id := 3; ev_event_type := "view";
       ev_ts := VStr "t1" |};
    {| ev_customer_id := 1; ev_product_id := 3; ev_event_type := "click";
       ev_ts := VStr "t2" |} ].

Definition capital_view : event_row :=
  {| ev_customer_id := 1; ev_product_id := 3; ev_event_type := "View";
     ev_ts := VStr "t1" |}.

(** A product whose category 9 is in no table. *)
Definition orphan_product : product_row :=
  {| pr_id := 4; pr_name := VStr "Lamp"; pr_price := VInt 30; pr_category_id := 9 |}.

(** A graph that holds category 7 only. *)
Definition one_category : graph :=
  Graph {[ (Category, 7) := node_init (Category, 7) ]} ∅.

(** The product of the sample, whose category is 7, and the product
    whose category is in no table, in one batch. *)
Definition mixed_products : list product_row :=
  products sample_snapshot ++ [orphan_product].

(** ** Vocabulary of the further properties *)

(** The outcomes of [n] successive calls of [next] on a generator. *)
Fixpoint nexts {A : Type} (n : nat) (g : chunk_gen A) : list (gen_out A) :=
  match n with
  | O => []
  | S n' => let '(g', out) := gen_next g in out :: nexts n' g'
  end.



(** The tables in the order in which [etl] reads them. *)
Definition table_names : list string :=
  ["customers"; "categories"; "products"; "orders"; "order_items"; "events"].

Definition error_of {A : Type} (r : result A) : option exn :=
  match r with Ok _ => None | Raise e => Some e end.

(** For each table, in reading order, the exception of its read, if any. *)
Definition table_errors (w : env) : list (option exn) :=
  [error_of (tbl_customers w); error_of (tbl_categories w);
   error_of (tbl_products w); error_of (tbl_orders w);
   error_of (tbl_order_items w); error_of (tbl_events w)].

Definition rows_of {A : Type} (r : result (list A)) : list A :=
  match r with Ok rows => rows | Raise _ => [] end.

(** The snapshot that the store holds. *)
Definition tables_of (w : env) : snapshot :=
  {| customers := rows_of (tbl_customers w);
     categories := rows_of (tbl_categories w);
     products := rows_of (tbl_products w);
     orders := rows_of (tbl_orders w);
     order_items := rows_of (tbl_order_items w);
     events := rows_of (tbl_events w) |}.

Fixpoint first_error (errs : list (option exn)) : option exn :=
  match errs with
  | [] => None
  | Some e :: _ => Some e
  | None :: rest => first_error rest
  end.

(** Number of reads up to and including the first one that fails. *)
Fixpoint reads_attempted (errs : list (option exn)) : nat :=
  match errs with
  | [] => 0
  | Some _ :: _ => 1
  | None :: rest => S (reads_attempted rest)
  end.

(** What a readiness gate does to the outside world. *)
Definition gate_event (ev : event) : Prop :=
  match ev with EvProbe _ _ | EvSleep _ => True | _ => False end.

(** The sample store with an unreadable products table and an unreadable
    orders table. *)
Definition failing_read_env : env :=
  {| pg_probe := pg_probe sample_env;
     neo4j_probe := neo4j_probe sample_env;
     pg_connect := Ok tt;
     queries_file := Ok sample_file;
     run_schema := fun _ g => Ok g;
     tbl_customers := tbl_customers sample_env;
     tbl_categories := tbl_categories sample_env;
     tbl_products := Raise (StoreError "relation products does not exist");
     tbl_orders := Raise (StoreError "relation orders does not exist");
     tbl_order_items := tbl_order_items sample_env;
     tbl_events := tbl_events sample_env;
     run_fault := fun _ => None |}.

(** The sample store behind a relational server that passes the gate and
    then refuses the connection of [etl] itself. *)
Definition refusing_env : env :=
  {| pg_probe := pg_probe sample_env;
     neo4j_probe := neo4j_probe sample_env;
     pg_connect := Raise (StoreError "too many connections");
     queries_file := Ok sample_file;
     run_schema := fun _ g => Ok g;
     tbl_customers := tbl_customers sample_env;
     tbl_categories := tbl_categories sample_env;
     tbl_products := tbl_products sample_env;
     tbl_orders := tbl_orders sample_env;
     tbl_order_items := tbl_order_items sample_env;
     tbl_events := tbl_events sample_env;
     run_fault := fun _ => None |}.

(** What [etl] does once both gates have let it through. *)
Definition after_gates (w : env) : M unit :=
  emit EvPgConnect ;; lift (pg_connect w) ;; set_pg true ;;
  emit EvDriverCreate ;; set_driver true ;; etl_try w.

(** One bulk statement per table and event type, holding all its rows. *)
Definition unbatched_plan (t : snapshot) : list load_query :=
  [LoadCategories (categories t); LoadProducts (products t);
   LoadCustomers (customers t); LoadOrders (orders t);
   LoadOrderItems (order_items t);
   LoadViews (filter (fun r => ev_event_type r = "view") (events t));
   LoadClicks (filter (fun r => ev_event_type r = "click") (events t));
   LoadAddToCarts (filter (fun r => ev_event_type r = "add_to_cart") (events t))].

(** The properties that the bulk statements assign. *)
Definition node_fields : list string := ["name"; "price"; "join_date"; "ts"].
Definition edge_fields : list string := ["quantity"; "ts"].

Definition fields_ok (o : op) : Prop :=
  match o with
  | NodeUp _ a => Forall (fun fv : string * value => fv.1 ∈ node_fields) a
  | EdgeIf _ _ a => Forall (fun fv : string * value => fv.1 ∈ edge_fields) a
  end.

(** The nodes that the rows of a snapshot are loaded into. *)
Definition snapshot_nodes (t : snapshot) : list node_key :=
  map (fun r => (Category, ca_id r)) (categories t)
  ++ map (fun r => (Product, pr_id r)) (products t)
  ++ map (fun r => (Customer, cu_id r)) (customers t)
  ++ map (fun r => (Order, or_id r)) (orders t).

(** The relationships that the rows of a snapshot are loaded into, given
    the set [N] of the nodes of the loaded graph: a row gives its
    relationship when the nodes that its statement looks up are in [N]. *)
Definition snapshot_edges (N : gset node_key) (t : snapshot) : list edge_key :=
  omap (fun r =>
          if bool_decide ((Category, pr_category_id r) ∈ N)
          then Some ((Product, pr_id r), IN_CATEGORY, (Category, pr_category_id r))
          else None) (products t)
  ++ omap (fun r =>
             if bool_decide ((Customer, or_customer_id r) ∈ N)
             then Some ((Customer, or_customer_id r), PLACED, (Order, or_id r))
             else None) (orders t)
  ++ omap (fun r =>
             if bool_decide ((Order, oi_order_id r) ∈ N)
                && bool_decide ((Product, oi_product_id r) ∈ N)
             then Some ((Order, oi_order_id r), CONTAINS, (Product, oi_product_id r))
             else None) (order_items t)
  ++ omap (fun r =>
             if bool_decide ((Customer, ev_customer_id r) ∈ N)
                && bool_decide ((Product, ev_product_id r) ∈ N)
             then event_edge r
             else None) (events t).

(** The labels of the source and of the target of a relationship type. *)
Definition edge_signature (k : rel_kind) : label * label :=
  match k with
  | IN_CATEGORY => (Product, Category)
  | PLACED => (Customer, Order)
  | CONTAINS => (Order, Product)
  | VIEW | CLICK | ADD_TO_CART => (Customer, Product)
  end.

(** Every relationship joins two nodes of the graph, of the labels of its
    type. *)
Definition well_formed (g : graph) : Prop :=
  forall e : edge_key,
    e ∈ dom (edges g) ->
    e.1.1 ∈ dom (nodes g) /\ e.2 ∈ dom (nodes g)
    /\ (e.1.1.1, e.2.1) = edge_signature e.1.2.

(** A products table in which the id 3 comes twice, the second time
    with [None] for the name and not-a-number for the price. *)
Definition repriced_products : snapshot :=
  {| customers := [];
     categories := [ {| ca_id := 7; ca_name := VStr "Books" |} ];
     products :=
       [ {| pr_id := 3; pr_name := VStr "Novel"; pr_price := VInt 12;
            pr_category_id := 7 |};
         {| pr_id := 3; pr_name := VNull; pr_price := VNaN;
            pr_category_id := 7 |} ];
     orders := []; order_items := []; events := [] |}.

(** Order 5 holds product 3 in two rows, of 3 and then of 4 units. *)
Definition repeated_items : snapshot :=
  {| customers := customers sample_snapshot;
     categories := categories sample_snapshot;
     products := products sample_snapshot;
     orders := orders sample_snapshot;
     order_items :=
       [ {| oi_order_id := 5; oi_product_id := 3; oi_quantity := VInt 3 |};
         {| oi_order_id := 5; oi_product_id := 3; oi_quantity := VInt 4 |} ];
     events := [] |}.

(** Number of rows that a bulk statement carries. *)
Definition query_rows (q : load_query) : nat :=
  match q with
  | LoadCategories rows => length rows
  | LoadProducts rows => length rows
  | LoadCustomers rows => length rows
  | LoadOrders rows => length rows
  | LoadOrderItems rows => length rows
  | LoadViews rows => length rows
  | LoadClicks rows => length rows
  | LoadAddToCarts rows => length rows
  end.

(** * Properties *)

(** ** The chunker *)

(** [drain] is the iteration of [gen_next] until the generator stops. *)
Lemma drain_unfold {A : Type} (g : chunk_gen A) :
  drain g =
  match gen_next g with
  | (_, Raised e) => Raise e
  | (_, StopIteration) => Ok []
  | (g', Yielded b) =>
      match drain g' with
      | Ok bs => Ok (b :: bs)
      | Raise e => Raise e
      end
  end.
Proof.
  destruct g as [df size | df size pending | ]; simpl; trivial.
  - destruct (py_range 0 (Z.of_nat (length df)) size) as [pending | e]; trivial.
    destruct pending; reflexivity.
  - destruct pending; reflexivity.
Qed.

Lemma ceil_div_bounds (n s : Z) :
  0 < s -> 0 <= n -> (ceil_div n s - 1) * s < n <= ceil_div n s * s.
Proof.
  intros Hs Hn. unfold ceil_div.
  pose proof (Z.div_mod (n + s - 1) s ltac:(lia)) as Hdm.
  pose proof (Z.mod_pos_bound (n + s - 1) s Hs) as Hm.
  nia.
Qed.

Lemma range_len_ceil (n s : Z) :
  0 < s -> 0 <= n -> range_len 0 n s = ceil_div n s.
Proof.
  intros Hs Hn. unfold range_len, ceil_div.
  destruct (Z.ltb_spec 0 s) as [_ | ?]; [ | lia].
  destruct (Z.ltb_spec 0 n) as [Hpos | Hle].
  - replace (n - 0 - 1) with (n - 1) by lia.
    replace (n + s - 1) with (n - 1 + 1 * s) by lia.
    rewrite Z.div_add by lia. reflexivity.
  - assert (n = 0) as -> by lia. simpl.
    symmetry. apply Z.div_small. lia.
Qed.

(** For non-negative bounds a slice is [take] after [drop]. *)
Lemma iloc_nonneg {A : Type} (df : list A) (a s : nat) :
  iloc df (Z.of_nat a) (Z.of_nat a + Z.of_nat s) = take s (drop a df).
Proof.
  unfold iloc, slice_bound.
  destruct (Z.ltb_spec (Z.of_nat a) 0) as [? | _]; [lia | ].
  destruct (Z.ltb_spec (Z.of_nat a + Z.of_nat s) 0) as [? | _]; [lia | ].
  destruct (Z.le_gt_cases (Z.of_nat a) (Z.of_nat (length df))) as [Hin | Hout].
  - rewrite (Z.min_l (Z.of_nat a)) by lia. rewrite Nat2Z.id.
    destruct (Z.le_gt_cases (Z.of_nat a + Z.of_nat s) (Z.of_nat (length df))).
    + rewrite Z.min_l by lia.
      replace (Z.to_nat (Z.of_nat a + Z.of_nat s - Z.of_nat a)) with s by lia.
      reflexivity.
    + rewrite Z.min_r by lia.
      rewrite !take_ge; trivial; rewrite length_drop; lia.
  - rewrite !Z.min_r by lia. rewrite Nat2Z.id, Z.sub_diag. simpl.
    rewrite !drop_ge by lia. by destruct s.
Qed.

Lemma take_plus_drop {A : Type} (l : list A) (n m : nat) :
  take (n + m) l = take n l ++ take m (drop n l).
Proof.
  revert l. induction n as [ | n IH]; intros l; simpl.
  - by rewrite drop_0.
  - destruct l as [ | x l]; simpl.
    + by rewrite take_nil.
    + by rewrite IH.
Qed.

Lemma drain_pending_windows {A : Type} (df : list A) (s : nat) (k j : nat) :
  drain_pending df (Z.of_nat s)
    (map (fun i : nat => 0 + Z.of_nat i * Z.of_nat s) (seq j k))
  = map (fun i : nat => take s (drop (i * s) df)) (seq j k).
Proof.
  revert j. induction k as [ | k IH]; intros j; simpl; trivial.
  rewrite IH. f_equal.
  replace (0 + Z.of_nat j * Z.of_nat s) with (Z.of_nat (j * s)) by lia.
  apply iloc_nonneg.
Qed.

Lemma windows_concat {A : Type} (df : list A) (s k : nat) :
  concat (windows df s k) = take (k * s) df.
Proof.
  unfold windows. induction k as [ | k IH].
  - reflexivity.
  - rewrite seq_S, map_app, concat_app, IH. simpl.
    rewrite app_nil_r, <- take_plus_drop. f_equal. lia.
Qed.

Lemma windows_lookup {A : Type} (df : list A) (s k i : nat) (b : list A) :
  windows df s k !! i = Some b -> (i < k)%nat /\ b = take s (drop (i * s) df).
Proof.
  unfold windows. intros H.
  apply list_lookup_fmap_Some in H as (j & Hb & Hj).
  apply lookup_seq in Hj as [-> Hlt]. split; [lia | exact Hb].
Qed.

Lemma windows_cover {A : Type} (df : list A) (size : Z) :
  0 < size ->
  concat (windows df (Z.to_nat size)
            (Z.to_nat (ceil_div (Z.of_nat (length df)) size))) = df.
Proof.
  intros Hs.
  pose proof (ceil_div_bounds (Z.of_nat (length df)) size Hs ltac:(lia)) as Hc.
  rewrite windows_concat. apply take_ge. nia.
Qed.

Lemma chunk_drain_pos {A : Type} (df : list A) (size : Z) :
  0 < size ->
  drain (chunk df size)
  = Ok (windows df (Z.to_nat size)
          (Z.to_nat (ceil_div (Z.of_nat (length df)) size))).
Proof.
  intros Hs. unfold chunk, drain, py_range.
  destruct (Z.eqb_spec size 0) as [? | _]; [lia | ].
  rewrite range_len_ceil by lia. f_equal.
  pose proof (drain_pending_windows df (Z.to_nat size)
                (Z.to_nat (ceil_div (Z.of_nat (length df)) size)) 0) as H.
  rewrite Z2Nat.id in H by lia. exact H.
Qed.

(** C1. For every row collection of length N and every batch size S > 0,
    consuming [chunk] yields exactly ceil(N/S) batches; every batch but
    the last has exactly S rows; the last has at most S rows; and the
    concatenation of the batches in yielded order is the row collection. *)
Theorem chunk_batches {A : Type} (df : list A) (size : Z) :
  0 < size ->
  exists bs : list (list A),
    drain (chunk df size) = Ok bs
    /\ Z.of_nat (length bs) = ceil_div (Z.of_nat (length df)) size
    /\ (forall (i : nat) (b : list A),
          bs !! i = Some b -> (S i < length bs)%nat ->
          Z.of_nat (length b) = size)
    /\ (forall b : list A, last bs = Some b -> Z.of_nat (length b) <= size)
    /\ concat bs = df.
Proof.
  intros Hs.
  pose proof (ceil_div_bounds (Z.of_nat (length df)) size Hs ltac:(lia)) as Hc.
  set (k := ceil_div (Z.of_nat (length df)) size) in *.
  assert (0 <= k) as Hk by nia.
  exists (windows df (Z.to_nat size) (Z.to_nat k)).
  assert (length (windows df (Z.to_nat size) (Z.to_nat k)) = Z.to_nat k) as Hlen.
  { unfold windows. by rewrite length_map, length_seq. }
  split; [by apply chunk_drain_pos | ].
  split; [rewrite Hlen; lia | ].
  split; [ | split].
  - intros i b Hb Hi. rewrite Hlen in Hi.
    apply windows_lookup in Hb as [_ ->].
    rewrite length_take, length_drop. nia.
  - intros b Hb. rewrite last_lookup in Hb.
    apply windows_lookup in Hb as [_ ->].
    rewrite length_take. lia.
  - by apply windows_cover.
Qed.

Lemma chunk_batches_witness :
  exists bs : list (list nat),
    drain (chunk [1; 2; 3; 4; 5]%nat 2) = Ok bs
    /\ Z.of_nat (length bs) = ceil_div (Z.of_nat (length [1; 2; 3; 4; 5]%nat)) 2
    /\ (forall (i : nat) (b : list nat),
          bs !! i = Some b -> (S i < length bs)%nat ->
          Z.of_nat (length b) = 2)
    /\ (forall b : list nat, last bs = Some b -> Z.of_nat (length b) <= 2)
    /\ concat bs = [1; 2; 3; 4; 5]%nat.
Proof. apply (chunk_batches [1; 2; 3; 4; 5]%nat 2). lia. Defined.

Example chunk_five_by_two :
  drain (chunk [1; 2; 3; 4; 5]%nat 2) = Ok [[1; 2]; [3; 4]; [5]]%nat.
Proof. reflexivity. Qed.

(** C10. Outside the precondition [0 < size]: with batch size 0 creating
    the generator raises nothing, but its first [next] (hence any
    consumption) raises [ValueError]; with a negative batch size the
    generator stops at once and yields no batch, so a non-empty row
    collection is lost whole. *)
Theorem chunk_nonpositive_size {A : Type} (df : list A) (size : Z) :
  size <= 0 ->
  (size = 0 ->
     exists msg : string,
       gen_next (chunk df size) = (ChunkDone, Raised (ValueError msg))
       /\ drain (chunk df size) = Raise (ValueError msg))
  /\ (size < 0 ->
        gen_next (chunk df size) = (ChunkDone, StopIteration)
        /\ drain (chunk df size) = Ok []
        /\ (df <> [] -> forall bs, drain (chunk df size) = Ok bs -> concat bs <> df)).
Proof.
  intros Hle. split.
  - intros ->. eexists. split; reflexivity.
  - intros Hneg.
    assert (py_range 0 (Z.of_nat (length df)) size = Ok []) as Hr.
    { unfold py_range, range_len.
      destruct (Z.eqb_spec size 0) as [? | _]; [lia | ].
      destruct (Z.ltb_spec 0 size) as [? | _]; [lia | ].
      destruct (Z.ltb_spec (Z.of_nat (length df)) 0) as [? | _]; [lia | ].
      reflexivity. }
    unfold chunk, gen_next, drain. rewrite Hr. simpl.
    repeat split; trivial.
    intros Hne bs [= <-]. simpl. congruence.
Qed.

Lemma chunk_nonpositive_size_witness :
  (0 = 0 ->
     exists msg : string,
       gen_next (chunk [1; 2; 3]%nat 0) = (ChunkDone, Raised (ValueError msg))
       /\ drain (chunk [1; 2; 3]%nat 0) = Raise (ValueError msg))
  /\ (-2 < 0 ->
        gen_next (chunk [1; 2; 3]%nat (-2)) = (ChunkDone, StopIteration)
        /\ drain (chunk [1; 2; 3]%nat (-2)) = Ok []
        /\ ([1; 2; 3]%nat <> [] ->
            forall bs, drain (chunk [1; 2; 3]%nat (-2)) = Ok bs ->
                       concat bs <> [1; 2; 3]%nat)).
Proof.
  split.
  - apply (chunk_nonpositive_size [1; 2; 3]%nat 0). lia.
  - apply (chunk_nonpositive_size [1; 2; 3]%nat (-2)). lia.
Defined.

(** ** The monad *)

Lemma bind_eq {A B : Type} (m : M A) (k : A -> M B) (s : st) :
  (m ≫= k) s
  = match m s with
    | (Ok a, s') => k a s'
    | (Raise e, s') => (Raise e, s')
    end.
Proof. reflexivity. Qed.

Lemma for_each_cons {A : Type} (x : A) (xs : list A) (body : A -> M unit) (s : st) :
  for_each (x :: xs) body s
  = match body x s with
    | (Ok _, s') => for_each xs body s'
    | (Raise e, s') => (Raise e, s')
    end.
Proof. reflexivity. Qed.

(** ** Readiness gates *)

Lemma add_trace_app (t1 t2 : list event) (s : st) :
  add_trace t2 (add_trace t1 s) = add_trace (t1 ++ t2) s.
Proof. unfold add_trace. simpl. by rewrite app_assoc. Qed.

Lemma add_trace_nil (s : st) : add_trace [] s = s.
Proof. destruct s. unfold add_trace. simpl. by rewrite app_nil_r. Qed.

Lemma emit_add_trace (ev : event) (s : st) : emit ev s = (Ok tt, add_trace [ev] s).
Proof. reflexivity. Qed.

Section gate.
Variables (store : string) (retry : Z) (probe : nat -> result unit).

Lemma wait_loop_S (fuel n : nat) (s : st) :
  wait_loop store retry probe (S fuel) n s
  = match probe n with
    | Ok _ => Some (Ok tt, add_trace [EvProbe store true] s)
    | Raise _ =>
        wait_loop store retry probe fuel (S n)
          (add_trace [EvProbe store false; EvSleep retry] s)
    end.
Proof.
  simpl. destruct (probe n) as [ | e]; [done | ].
  unfold add_trace. by rewrite <- app_assoc.
Qed.

Lemma wait_loop_retry (k : nat) :
  forall fuel n s,
    (forall j, (j < k)%nat -> is_ok (probe (n + j)) = false) ->
    wait_loop store retry probe (k + fuel) n s
    = wait_loop store retry probe fuel (n + k)
        (add_trace (mjoin (replicate k [EvProbe store false; EvSleep retry])) s).
Proof.
  induction k as [ | k IH]; intros fuel n s Hfail.
  - simpl. by rewrite Nat.add_0_r, add_trace_nil.
  - pose proof (Hfail 0%nat ltac:(lia)) as H0.
    rewrite Nat.add_0_r in H0.
    change (S k + fuel)%nat with (S (k + fuel)). rewrite wait_loop_S.
    destruct (probe n) as [ | e]; [discriminate | ].
    rewrite IH.
    + rewrite add_trace_app. simpl. f_equal. lia.
    + intros j Hj. specialize (Hfail (S j) ltac:(lia)).
      by replace (S n + j)%nat with (n + S j)%nat by lia.
Qed.

Lemma wait_loop_never_raises :
  forall fuel n s r s',
    wait_loop store retry probe fuel n s = Some (r, s') -> r = Ok tt.
Proof.
  induction fuel as [ | fuel IH]; intros n s r s' H.
  - discriminate.
  - rewrite wait_loop_S in H. destruct (probe n) as [ | e].
    + by inversion H.
    + eauto.
Qed.

Lemma wait_loop_blocks :
  (forall n, is_ok (probe n) = false) ->
  forall fuel n s, wait_loop store retry probe fuel n s = None.
Proof.
  intros Hfail. induction fuel as [ | fuel IH]; intros n s; trivial.
  rewrite wait_loop_S.
  specialize (Hfail n). destruct (probe n) as [ | e]; [discriminate | ].
  apply IH.
Qed.

Lemma first_success_below (n : nat) :
  (forall j, (j < n)%nat -> is_ok (probe j) = false)
  \/ exists k, (k < n)%nat /\ is_ok (probe k) = true
               /\ forall j, (j < k)%nat -> is_ok (probe j) = false.
Proof.
  induction n as [ | n [Hall | (k & Hk & Hok & Hmin)]].
  - left. intros j Hj. lia.
  - destruct (is_ok (probe n)) eqn:E.
    + right. exists n. split; [lia | by split].
    + left. intros j Hj. destruct (decide (j = n)) as [-> | ?]; [done | ].
      apply Hall. lia.
  - right. exists k. split; [lia | by split].
Qed.

Lemma first_success (n : nat) :
  is_ok (probe n) = true ->
  exists k, (k <= n)%nat /\ is_ok (probe k) = true
            /\ forall j, (j < k)%nat -> is_ok (probe j) = false.
Proof.
  intros Hn. destruct (first_success_below (S n)) as [Hall | (k & Hk & H)].
  - rewrite Hall in Hn by lia. discriminate.
  - exists k. split; [lia | exact H].
Qed.

Lemma attempts_gate_trace (k : nat) : attempts (gate_trace store retry k) = S k.
Proof.
  unfold attempts, gate_trace. rewrite filter_app, length_app. simpl.
  induction k as [ | k IH]; simpl; [done | ].
  rewrite !filter_cons. simpl.
  destruct (decide (true = true)); [ | done].
  destruct (decide (false = true)); [done | ]. simpl. lia.
Qed.

Lemma wait_loop_spec :
  gate_spec store retry probe
    (fun fuel s => wait_loop store retry probe fuel 0 s).
Proof.
  split; [ | split].
  - intros fuel s r s'. apply wait_loop_never_raises.
  - intros n Hn. destruct (first_success n Hn) as (k & Hk & Hok & Hmin).
    exists k. repeat split; trivial; [apply attempts_gate_trace | ].
    intros fuel s Hfuel.
    replace fuel with (k + S (fuel - S k))%nat by lia.
    rewrite wait_loop_retry by (intros j Hj; by apply Hmin).
    rewrite wait_loop_S. simpl. destruct (probe k) as [[] | e]; [ | discriminate].
    by rewrite add_trace_app.
  - intros Hfail fuel s. by apply wait_loop_blocks.
Qed.
End gate.

(** C6. Both readiness gates check connectivity once per iteration and
    sleep a fixed interval after each failure; when some check succeeds
    they return, without error, right after the first success (after
    exactly [k + 1] attempts when the first [k] checks fail); they never
    return an error; and when no check ever succeeds they never return. *)
Theorem readiness_gates (w : env) :
  gate_spec "postgres" PG_RETRY_SECONDS (pg_probe w) (wait_for_postgres w)
  /\ gate_spec "neo4j" NEO4J_RETRY_SECONDS (neo4j_probe w) (wait_for_neo4j w).
Proof. split; apply wait_loop_spec. Qed.

(** ** Schema loader *)

Lemma py_split_cons (sep : N) (s : text) :
  exists f fs, py_split sep s = f :: fs.
Proof.
  destruct s as [ | c s]; simpl; [by eauto | ].
  destruct (c =? sep)%N; [by eauto | ].
  destruct (py_split sep s); eauto.
Qed.

Lemma py_split_join (sep : N) (s : text) : py_join sep (py_split sep s) = s.
Proof.
  induction s as [ | c s IH]; simpl; [done | ].
  destruct (N.eqb_spec c sep) as [-> | Hne].
  - destruct (py_split_cons sep s) as (f & fs & E). rewrite E in *.
    change (py_join sep ([] :: f :: fs)) with (sep :: py_join sep (f :: fs)).
    by rewrite IH.
  - destruct (py_split_cons sep s) as (f & fs & E). rewrite E in *.
    rewrite <- IH. simpl. by destruct fs.
Qed.

Lemma py_split_no_sep (sep : N) (s : text) :
  Forall (fun f => sep ∉ f) (py_split sep s).
Proof.
  induction s as [ | c s IH]; simpl.
  - constructor; [ | done]. by intros ?%elem_of_nil.
  - destruct (N.eqb_spec c sep) as [-> | Hne].
    + constructor; [ | done]. by intros ?%elem_of_nil.
    + destruct (py_split sep s) as [ | f fs].
      * constructor; [ | done]. intros [-> | ?%elem_of_nil]%elem_of_cons; done.
      * inversion IH as [ | ? ? Hf Hfs]; subst. constructor; [ | done].
        intros [-> | ?]%elem_of_cons; done.
Qed.

Lemma py_split_chars (P : N -> Prop) (sep : N) (s : text) :
  Forall P s -> Forall (Forall P) (py_split sep s).
Proof.
  induction 1 as [ | c s Hc Hs IH]; simpl.
  - by repeat constructor.
  - destruct (c =? sep)%N.
    + by constructor.
    + destruct (py_split sep s) as [ | f fs]; [by repeat constructor | ].
      inversion IH; subst. constructor; [by constructor | done].
Qed.

Lemma py_lstrip_spec (s : text) :
  exists l, s = l ++ py_lstrip s /\ whitespace l
            /\ forall c rest, py_lstrip s = c :: rest -> py_isspace c = false.
Proof.
  induction s as [ | c s (l & Hs & Hl & Hhd)]; simpl.
  - exists []. repeat split; [constructor | done].
  - destruct (py_isspace c) eqn:E.
    + exists (c :: l). split; [simpl; congruence | ].
      split; [by constructor | done].
    + exists []. split; [done | ]. split; [constructor | ].
      by intros c' rest [= <- _].
Qed.

Lemma py_lstrip_whitespace (s : text) : whitespace s -> py_lstrip s = [].
Proof. induction 1 as [ | c s Hc _ IH]; simpl; [done | by rewrite Hc]. Qed.

Lemma whitespace_reverse (s : text) : whitespace s -> whitespace (reverse s).
Proof. unfold whitespace. by rewrite Forall_reverse. Qed.

Lemma py_strip_trimmed (s : text) : trimmed s (py_strip s).
Proof.
  unfold py_strip, py_rstrip.
  destruct (py_lstrip_spec s) as (l & Hs & Hl & Hhd).
  destruct (py_lstrip_spec (reverse (py_lstrip s))) as (r & Hm & Hr & Hlast).
  set (m := py_lstrip s) in *. set (t := py_lstrip (reverse m)) in *.
  assert (m = reverse t ++ reverse r) as Hm'.
  { rewrite <- reverse_app, <- Hm. by rewrite reverse_involutive. }
  split; [ | split].
  - exists l, (reverse r). split; [by rewrite <- Hm' | ].
    split; [done | by apply whitespace_reverse].
  - intros c rest Ht. rewrite Ht in Hm'. apply (Hhd c (rest ++ reverse r)).
    by rewrite Hm'.
  - intros c Hc. rewrite last_reverse in Hc.
    destruct t as [ | c' t']; [done | ]. simpl in Hc. injection Hc as <-. eauto.
Qed.

Lemma py_strip_whitespace (s : text) : whitespace s -> py_strip s = [].
Proof.
  intros Hs. unfold py_strip. by rewrite (py_lstrip_whitespace s Hs).
Qed.

(** The code filters on the trimmed fragment and then trims; this is the
    same as trimming every fragment and discarding the empty ones. *)
Lemma statements_of_trim_discard (file : text) :
  statements_of file
  = filter (fun t => t <> []) (map py_strip (py_split semicolon file)).
Proof.
  unfold statements_of.
  induction (py_split semicolon file) as [ | f fs IH]; [done | ].
  cbn [map]. rewrite !filter_cons, <- IH.
  destruct (py_strip f) eqn:E; simpl; repeat case_decide; try done.
  simpl. by rewrite E.
Qed.

Lemma statements_of_blank (file : text) :
  Forall (fun c => py_isspace c = true \/ c = semicolon) file ->
  statements_of file = [].
Proof.
  intros Hfile. rewrite statements_of_trim_discard.
  pose proof (py_split_chars _ semicolon file Hfile) as Hchars.
  pose proof (py_split_no_sep semicolon file) as Hsep.
  induction (py_split semicolon file) as [ | f fs IH]; [done | ].
  inversion Hchars as [ | ? ? Hf Hfs]; inversion Hsep as [ | ? ? Hn Hns]; subst.
  cbn [map]. rewrite filter_cons, IH by done.
  rewrite py_strip_whitespace; [by case_decide | ].
  unfold whitespace. rewrite Forall_forall in Hf |- *.
  intros c Hc. destruct (Hf c Hc) as [? | ->]; done.
Qed.

Lemma session_run_schema_eq (w : env) (stmt : text) (s : st) :
  session_run_schema w stmt s
  = match run_schema w stmt (st_graph s) with
    | Ok g => (Ok tt, with_graph g (add_trace [EvRunSchema stmt] s))
    | Raise e => (Raise e, add_trace [EvRunSchema stmt] s)
    end.
Proof.
  unfold session_run_schema. rewrite bind_eq, emit_add_trace.
  unfold exec_schema. simpl. by destruct (run_schema w stmt (st_graph s)).
Qed.

Lemma for_each_schema (w : env) (stmts : list text) :
  forall s : st,
  exists pre g_pre,
    run_all w pre (st_graph s) = Ok g_pre
    /\ ((pre = stmts
         /\ for_each stmts (session_run_schema w) s
            = (Ok tt, with_graph g_pre (add_trace (map EvRunSchema stmts) s)))
        \/ (exists bad post e,
              stmts = pre ++ bad :: post
              /\ run_schema w bad g_pre = Raise e
              /\ for_each stmts (session_run_schema w) s
                 = (Raise e,
                    with_graph g_pre (add_trace (map EvRunSchema (pre ++ [bad])) s)))).
Proof.
  induction stmts as [ | stmt rest IH]; intros s.
  - exists [], (st_graph s). split; [done | ]. left. split; [done | ].
    simpl. unfold ret. f_equal. destruct s. unfold with_graph, add_trace. simpl.
    by rewrite app_nil_r.
  - destruct (run_schema w stmt (st_graph s)) as [g' | e] eqn:E.
    + destruct (IH (with_graph g' (add_trace [EvRunSchema stmt] s)))
        as (pre & g_pre & Hpre & Hcases).
      exists (stmt :: pre), g_pre. split; [simpl; by rewrite E | ].
      assert (forall tr,
                with_graph g_pre
                  (add_trace tr (with_graph g' (add_trace [EvRunSchema stmt] s)))
                = with_graph g_pre (add_trace (EvRunSchema stmt :: tr) s)) as Hst.
      { intros tr. unfold with_graph, add_trace. simpl. by rewrite <- app_assoc. }
      assert (for_each (stmt :: rest) (session_run_schema w) s
              = for_each rest (session_run_schema w)
                  (with_graph g' (add_trace [EvRunSchema stmt] s))) as Hstep.
      { by rewrite for_each_cons, session_run_schema_eq, E. }
      destruct Hcases as [[-> Hrun] | (bad & post & e & -> & Hbad & Hrun)].
      * left. split; [done | ]. by rewrite Hstep, Hrun, Hst.
      * right. exists bad, post, e. split; [done | ]. split; [done | ].
        by rewrite Hstep, Hrun, Hst.
    + exists [], (st_graph s). split; [done | ]. right.
      exists stmt, rest, e. split; [done | ]. split; [done | ].
      rewrite for_each_cons, session_run_schema_eq, E. f_equal.
Qed.

(** C5. The schema loader splits the file on [;] (joining the fragments
    with [;] gives the file back and no fragment contains a [;]), trims
    the whitespace around every fragment, discards the fragments that are
    empty once trimmed (a file of whitespace and [;] only executes
    nothing), executes the remaining statements in file order, and stops
    at the first statement that fails: the statements before it have all
    succeeded, it is the last one executed, and its exception ends the
    loader. *)
Theorem schema_loader (w : env) (file : text) (s : st) :
  queries_file w = Ok file ->
  let frags := py_split semicolon file in
  let stmts := statements_of file in
  (py_join semicolon frags = file /\ Forall (fun f => semicolon ∉ f) frags)
  /\ Forall (fun f => trimmed f (py_strip f)) frags
  /\ stmts = filter (fun t => t <> []) (map py_strip frags)
  /\ (Forall (fun c => py_isspace c = true \/ c = semicolon) file -> stmts = [])
  /\ exists pre g_pre,
       run_all w pre (st_graph s) = Ok g_pre
       /\ ((pre = stmts
            /\ run_cypher_file w s
               = (Ok tt,
                  with_graph g_pre
                    (add_trace (EvReadText :: map EvRunSchema stmts) s)))
           \/ (exists bad post e,
                 stmts = pre ++ bad :: post
                 /\ run_schema w bad g_pre = Raise e
                 /\ run_cypher_file w s
                    = (Raise e,
                       with_graph g_pre
                         (add_trace
                            (EvReadText :: map EvRunSchema (pre ++ [bad])) s)))).
Proof.
  intros Hfile frags stmts.
  split; [split; [apply py_split_join | apply py_split_no_sep] | ].
  split; [apply Forall_forall; intros f _; apply py_strip_trimmed | ].
  split; [apply statements_of_trim_discard | ].
  split; [apply statements_of_blank | ].
  assert (forall tr g,
            with_graph g (add_trace tr (add_trace [EvReadText] s))
            = with_graph g (add_trace (EvReadText :: tr) s)) as Hst.
  { intros tr g. unfold with_graph, add_trace. simpl. by rewrite <- app_assoc. }
  assert (run_cypher_file w s
          = for_each stmts (session_run_schema w) (add_trace [EvReadText] s))
    as Hstep.
  { unfold run_cypher_file. rewrite !bind_eq, emit_add_trace, Hfile.
    reflexivity. }
  destruct (for_each_schema w stmts (add_trace [EvReadText] s))
    as (pre & g_pre & Hpre & Hcases).
  exists pre, g_pre. split; [exact Hpre | ].
  destruct Hcases as [[-> Hrun] | (bad & post & e & Hsplit & Hbad & Hrun)].
  - left. split; [done | ]. by rewrite Hstep, Hrun, Hst.
  - right. exists bad, post, e. split; [done | ]. split; [done | ].
    by rewrite Hstep, Hrun, Hst.
Qed.

(** ** The bulk statements

    No statement of [etl] raises, whatever its rows and the graph: every
    variable is bound once and used in scope, and a relationship is only
    merged between two nodes that the statement has merged or found. Its
    effect is that of the closed form. *)

Lemma match_node_merge_node (k : node_key) (g : graph) :
  match_node k (merge_node k g) = true.
Proof.
  unfold match_node, merge_node. apply bool_decide_eq_true.
  destruct (nodes g !! k) eqn:E; simpl; [by rewrite E | by rewrite lookup_insert_eq].
Qed.

Lemma match_node_set_node (k k' : node_key) (f : string) (v : value) (g : graph) :
  match_node k (set_node k' f v g) = match_node k g.
Proof.
  unfold match_node, set_node. simpl. apply bool_decide_ext.
  rewrite <- !elem_of_dom. by rewrite dom_alter_L.
Qed.

Lemma eval_categories_row (r : category_row) (g : graph) :
  eval_clauses categories_query [("row", BRow r)] g = Ok (category_row_query r g).
Proof. reflexivity. Qed.

Lemma eval_customers_row (r : customer_row) (g : graph) :
  eval_clauses customers_query [("row", BRow r)] g = Ok (customer_row_query r g).
Proof. reflexivity. Qed.

Lemma eval_products_row (r : product_row) (g : graph) :
  eval_clauses products_query [("row", BRow r)] g = Ok (product_row_query r g).
Proof.
  unfold products_query, product_row_query.
  cbn -[merge_node set_node match_node merge_rel].
  destruct (match_node (Category, pr_category_id r) _) eqn:Hc; [ | done].
  cbn -[merge_node set_node match_node merge_rel].
  by rewrite Hc, !match_node_set_node, match_node_merge_node.
Qed.

Lemma eval_orders_row (r : order_row) (g : graph) :
  eval_clauses orders_query [("row", BRow r)] g = Ok (order_row_query r g).
Proof.
  unfold orders_query, order_row_query.
  cbn -[merge_node set_node match_node merge_rel].
  destruct (match_node (Customer, or_customer_id r) _) eqn:Hc; [ | done].
  cbn -[merge_node set_node match_node merge_rel].
  by rewrite Hc, !match_node_set_node, match_node_merge_node.
Qed.

Lemma eval_order_items_row (r : order_item_row) (g : graph) :
  eval_clauses order_items_query [("row", BRow r)] g
  = Ok (order_item_row_query r g).
Proof.
  unfold order_items_query, order_item_row_query.
  cbn -[match_node merge_rel set_rel].
  destruct (match_node (Order, oi_order_id r) g) eqn:Ho; [ | done].
  cbn -[match_node merge_rel set_rel].
  destruct (match_node (Product, oi_product_id r) g) eqn:Hp; [ | done].
  cbn -[match_node merge_rel set_rel]. by rewrite Ho, Hp.
Qed.

Lemma eval_events_row (kind : rel_kind) (r : event_row) (g : graph) :
  eval_clauses (events_query kind) [("row", BRow r)] g
  = Ok (event_row_query kind r g).
Proof.
  unfold events_query, event_row_query.
  cbn -[match_node merge_rel set_rel].
  destruct (match_node (Customer, ev_customer_id r) g) eqn:Hc; [ | done].
  cbn -[match_node merge_rel set_rel].
  destruct (match_node (Product, ev_product_id r) g) eqn:Hp; [ | done].
  cbn -[match_node merge_rel set_rel]. by rewrite Hc, Hp.
Qed.

Lemma unwind_rows {A : Type} (cs : list (clause A)) (f : A -> graph -> graph)
  (rows : list A) :
  (forall r g, eval_clauses cs [("row", BRow r)] g = Ok (f r g)) ->
  forall g, unwind "row" cs rows g = Ok (foldl (fun g r => f r g) g rows).
Proof.
  intros Hrow. induction rows as [ | r rows IH]; intros g; [done | ].
  cbn [unwind foldl]. by rewrite Hrow, IH.
Qed.

Lemma run_query_ok (q : load_query) (g : graph) :
  run_query q g = Ok (apply_query q g).
Proof.
  destruct q as [rows | rows | rows | rows | rows | rows | rows | rows]; simpl;
    apply unwind_rows; intros r g'.
  - apply eval_categories_row.
  - apply eval_products_row.
  - apply eval_customers_row.
  - apply eval_orders_row.
  - apply eval_order_items_row.
  - apply eval_events_row.
  - apply eval_events_row.
  - apply eval_events_row.
Qed.

(** ** Traces of the load phase *)

Lemma session_run_eq (w : env) (q : load_query) (s : st) :
  session_run w q s
  = match run_fault w (st_trace s) with
    | Some e => (Raise e, add_trace [EvRun q] s)
    | None => (Ok tt, with_graph (apply_query q (st_graph s)) (add_trace [EvRun q] s))
    end.
Proof.
  unfold session_run. rewrite run_query_ok.
  by destruct (run_fault w (st_trace s)).
Qed.

Lemma drain_chunk_100 {A : Type} (rows : list A) :
  drain (chunk rows 100) = Ok (batches rows).
Proof. by apply chunk_drain_pos. Qed.

Lemma batches_concat {A : Type} (rows : list A) : concat (batches rows) = rows.
Proof. by apply (windows_cover rows 100). Qed.

Lemma for_chunks_batches {A : Type} (rows : list A) (body : list A -> M unit) :
  for_chunks (chunk rows 100) body = for_each (batches rows) body.
Proof. unfold for_chunks. by rewrite drain_chunk_100. Qed.

Lemma for_each_map {A B : Type} (f : A -> B) (xs : list A) (body : B -> M unit) :
  for_each (map f xs) body = for_each xs (fun x => body (f x)).
Proof. induction xs as [ | x xs IH]; simpl; [done | by rewrite IH]. Qed.

Lemma for_each_app_bind {A : Type} (a b : list A) (body : A -> M unit)
  (k : M unit) (s : st) :
  (forall s', k s' = for_each b body s') ->
  (for_each a body ≫= fun _ => k) s = for_each (a ++ b) body s.
Proof.
  intros Hk. revert s. induction a as [ | x a IH]; intros s.
  - rewrite bind_eq. simpl. apply Hk.
  - rewrite bind_eq. simpl app. rewrite !for_each_cons.
    destruct (body x s) as [[[] | e] s1]; [ | done].
    rewrite <- IH. by rewrite bind_eq.
Qed.

Lemma for_each_map_app_bind {A B : Type} (K : A -> B) (xs : list A) (b : list B)
  (body : B -> M unit) (k : M unit) (s : st) :
  (forall s', k s' = for_each b body s') ->
  (for_each xs (fun x => body (K x)) ≫= fun _ => k) s
  = for_each (map K xs ++ b) body s.
Proof. intros Hk. rewrite <- for_each_map. by apply for_each_app_bind. Qed.

Lemma load_phase_plan (w : env) (t : snapshot) (s : st) :
  load_phase w t s = for_each (load_plan t) (session_run w) s.
Proof.
  unfold load_phase, load_plan. rewrite !for_chunks_batches.
  do 7 (apply for_each_map_app_bind; intros ?).
  by rewrite for_each_map.
Qed.

Lemma for_each_run (w : env) (qs : list load_query) :
  forall s : st,
  exists done,
    done `prefix_of` qs
    /\ st_trace (for_each qs (session_run w) s).2 = st_trace s ++ map EvRun done
    /\ ((for_each qs (session_run w) s).1 = Ok tt -> done = qs).
Proof.
  induction qs as [ | q qs IH]; intros s.
  - exists []. simpl. by rewrite app_nil_r.
  - rewrite for_each_cons, session_run_eq.
    destruct (run_fault w (st_trace s)) as [e | ].
    + exists [q]. simpl. split; [ | done].
      apply prefix_cons, prefix_nil.
    + destruct (IH (with_graph (apply_query q (st_graph s)) (add_trace [EvRun q] s)))
        as (done & Hpre & Htr & Hok).
      exists (q :: done). split; [by apply prefix_cons | ].
      split; [ | intros H; by rewrite (Hok H)].
      rewrite Htr. simpl. by rewrite <- app_assoc.
Qed.

Lemma for_each_run_ok (w : env) (qs : list load_query) :
  (forall tr, run_fault w tr = None) ->
  forall s : st,
    for_each qs (session_run w) s
    = (Ok tt,
       with_graph (foldl (fun g q => apply_query q g) (st_graph s) qs)
         (add_trace (map EvRun qs) s)).
Proof.
  intros Hquiet. induction qs as [ | q qs IH]; intros s.
  - simpl. unfold ret. f_equal. destruct s. unfold with_graph, add_trace. simpl.
    by rewrite app_nil_r.
  - rewrite for_each_cons, session_run_eq, Hquiet, IH. f_equal.
    unfold with_graph, add_trace. simpl. by rewrite <- app_assoc.
Qed.

Lemma runs_of_app (t1 t2 : list event) : runs_of (t1 ++ t2) = runs_of t1 ++ runs_of t2.
Proof. apply omap_app. Qed.

Lemma runs_of_map_run (qs : list load_query) : runs_of (map EvRun qs) = qs.
Proof. induction qs as [ | q qs IH]; simpl; [done | by f_equal]. Qed.

Lemma quiet_ret {A : Type} (a : A) : quiet (ret a).
Proof. intros s. exists []. simpl. by rewrite app_nil_r. Qed.

Lemma quiet_lift {A : Type} (r : result A) : quiet (lift r).
Proof. intros s. exists []. destruct r; simpl; by rewrite app_nil_r. Qed.

Lemma quiet_emit (ev : event) :
  (forall q, ev <> EvRun q) -> quiet (emit ev).
Proof.
  intros Hev s. exists [ev]. split; [done | ].
  destruct ev; try done. by destruct (Hev q).
Qed.

Lemma quiet_bind {A B : Type} (m : M A) (k : A -> M B) :
  quiet m -> (forall a, quiet (k a)) -> quiet (m ≫= k).
Proof.
  intros Hm Hk s. rewrite bind_eq. destruct (Hm s) as (t1 & H1 & Hq1).
  destruct (m s) as [[a | e] s1]; simpl in *.
  - destruct (Hk a s1) as (t2 & H2 & Hq2). exists (t1 ++ t2).
    rewrite H2, H1, runs_of_app, Hq1, Hq2. by rewrite app_assoc.
  - by exists t1.
Qed.

Lemma quiet_for_each {A : Type} (xs : list A) (body : A -> M unit) :
  (forall x, quiet (body x)) -> quiet (for_each xs body).
Proof.
  intros Hbody. induction xs as [ | x xs IH]; simpl.
  - apply quiet_ret.
  - apply quiet_bind; [apply Hbody | by intros _].
Qed.

Lemma quiet_exec_schema (w : env) (stmt : text) : quiet (exec_schema w stmt).
Proof.
  intros s. exists []. unfold exec_schema.
  destruct (run_schema w stmt (st_graph s)); simpl; by rewrite app_nil_r.
Qed.

Lemma quiet_run_cypher_file (w : env) : quiet (run_cypher_file w).
Proof.
  unfold run_cypher_file. apply quiet_bind.
  - apply quiet_bind; [by apply quiet_emit | intros _; apply quiet_lift].
  - intros file. apply quiet_for_each. intros stmt.
    apply quiet_bind; [by apply quiet_emit | intros _; apply quiet_exec_schema].
Qed.

Lemma quiet_read_sql {A : Type} (table : string) (rows : result (list A)) :
  quiet (read_sql table rows).
Proof.
  unfold read_sql. apply quiet_bind; [by apply quiet_emit | intros _; apply quiet_lift].
Qed.

(** The bulk statements of a session are a prefix of the plan of the
    snapshot that was read. *)
Lemma etl_session_trace (w : env) (s : st) :
  exists tr,
    st_trace (etl_session w s).2 = st_trace s ++ tr
    /\ exists t, runs_of tr `prefix_of` load_plan t.
Proof.
  unfold etl_session. rewrite bind_eq.
  destruct (quiet_run_cypher_file w s) as (t1 & H1 & Hq1).
  destruct (run_cypher_file w s) as [[[] | e] s1]; simpl in *.
  2:{ exists t1. split; [done | ]. exists (Build_snapshot [] [] [] [] [] []).
      rewrite Hq1. apply prefix_nil. }
  rewrite bind_eq.
  assert (quiet (extract w)) as Hex.
  { unfold extract. repeat (apply quiet_bind; [apply quiet_read_sql | intros ?]).
    apply quiet_ret. }
  destruct (Hex s1) as (t2 & H2 & Hq2).
  destruct (extract w s1) as [[t | e] s2]; simpl in *.
  2:{ exists (t1 ++ t2). rewrite H2, H1, app_assoc. split; [done | ].
      exists (Build_snapshot [] [] [] [] [] []).
      rewrite runs_of_app, Hq1, Hq2. apply prefix_nil. }
  rewrite load_phase_plan.
  destruct (for_each_run w (load_plan t) s2) as (done & Hpre & Htr & _).
  exists (t1 ++ t2 ++ map EvRun done). rewrite Htr, H2, H1, !app_assoc.
  split; [done | ]. exists t.
  by rewrite !runs_of_app, Hq1, Hq2, runs_of_map_run.
Qed.

Lemma etl_try_eq (w : env) (s : st) :
  etl_try w s
  = let '(r, s1) := etl_session w (session_opened s) in
    (r, St (st_graph s1)
           (st_trace s1 ++ [EvSessionClose; EvPgClose; EvDriverClose])
           false false false).
Proof.
  unfold etl_try, with_session, try_finally.
  cbv [mbind M_bind bind emit set_session set_pg set_driver]. simpl.
  change (St _ _ _ _ true) with (session_opened s).
  destruct (etl_session w (session_opened s)) as [r s1]. simpl.
  by rewrite <- !app_assoc.
Qed.

(** C8. However the body of the session ends, with [Ok] or with an
    exception raised by the schema loader, the extraction or a bulk
    statement, the run closes the session, the relational connection and
    the graph driver, in that order and as its last actions, and then
    returns what the body returned: the exception propagates. *)
Theorem connections_released (w : env) (s : st) :
  (exists tr,
     st_trace (etl_try w s).2
     = st_trace s ++ [EvSessionOpen] ++ tr
       ++ [EvSessionClose; EvPgClose; EvDriverClose])
  /\ pg_open (etl_try w s).2 = false
  /\ driver_open (etl_try w s).2 = false
  /\ session_open (etl_try w s).2 = false
  /\ (etl_try w s).1 = (etl_session w (session_opened s)).1.
Proof.
  rewrite etl_try_eq.
  destruct (etl_session_trace w (session_opened s)) as (tr & Htr & _).
  destruct (etl_session w (session_opened s)) as [r s1]. simpl in *.
  split; [ | done]. exists tr. rewrite Htr. by rewrite <- !app_assoc.
Qed.

(** ** Order of the load phase *)

Lemma must_precede_phase (a b : load_query) :
  must_precede a b = true -> (phase a < phase b)%nat.
Proof. destruct a, b; simpl; intros; (discriminate || lia). Qed.

Lemma sorted_segment {A : Type} (K : A -> load_query) (xs : list A) :
  (forall x y, phase (K x) = phase (K y)) ->
  StronglySorted (fun a b => (phase a <= phase b)%nat) (map K xs).
Proof.
  intros HK. induction xs as [ | x xs IH]; simpl; constructor; [done | ].
  apply Forall_forall. intros q (y & -> & _)%list_elem_of_fmap.
  rewrite (HK x y). lia.
Qed.

Lemma load_plan_sorted (t : snapshot) :
  StronglySorted (fun a b => (phase a <= phase b)%nat) (load_plan t).
Proof.
  unfold load_plan.
  repeat (apply StronglySorted_app_2;
          [ intros a b Ha Hb; apply list_elem_of_fmap in Ha as (x & -> & _);
            repeat (apply elem_of_app in Hb as [Hb | Hb]);
            apply list_elem_of_fmap in Hb as (y & -> & _); simpl; lia
          | apply sorted_segment; intros; reflexivity | ]).
  apply sorted_segment; intros; reflexivity.
Qed.

Lemma sorted_prefix (l1 l2 : list load_query) :
  l1 `prefix_of` l2 ->
  StronglySorted (fun a b => (phase a <= phase b)%nat) l2 ->
  StronglySorted (fun a b => (phase a <= phase b)%nat) l1.
Proof. intros [k ->]. apply StronglySorted_app_1_l. Qed.

Lemma runs_of_before (tr : list event) (i j : nat) (qi qj : load_query) :
  StronglySorted (fun a b => (phase a <= phase b)%nat) (runs_of tr) ->
  tr !! i = Some (EvRun qi) -> tr !! j = Some (EvRun qj) -> (i < j)%nat ->
  (phase qi <= phase qj)%nat.
Proof.
  intros Hsorted Hi Hj Hlt.
  rewrite <- (take_drop_middle tr j (EvRun qj) Hj) in Hsorted, Hi.
  rewrite lookup_app_l in Hi by (rewrite length_take; apply lookup_lt_Some in Hj; lia).
  rewrite <- (take_drop_middle _ i (EvRun qi) Hi) in Hsorted.
  rewrite !runs_of_app in Hsorted. simpl in Hsorted.
  rewrite <- !app_assoc in Hsorted.
  apply StronglySorted_app_1_r in Hsorted. simpl in Hsorted.
  apply StronglySorted_cons in Hsorted as [Hall _].
  rewrite Forall_forall in Hall. apply Hall. set_solver.
Qed.

(** C7. In every run the bulk statements are issued one after the other
    in an order where every category statement comes before every
    product statement, every customer statement before every order
    statement, and every customer, order and product statement before
    every order-item and event statement. *)
Theorem load_order (w : env) (s : st) :
  exists tr,
    st_trace (etl_try w s).2 = st_trace s ++ tr
    /\ forall (i j : nat) (qi qj : load_query),
         tr !! i = Some (EvRun qi) -> tr !! j = Some (EvRun qj) ->
         must_precede qi qj = true -> (i < j)%nat.
Proof.
  rewrite etl_try_eq.
  destruct (etl_session_trace w (session_opened s)) as (tr & Htr & t & Hpre).
  destruct (etl_session w (session_opened s)) as [r s1]. simpl in *.
  exists ([EvSessionOpen] ++ tr ++ [EvSessionClose; EvPgClose; EvDriverClose]).
  split; [rewrite Htr; by rewrite <- !app_assoc | ].
  assert (StronglySorted (fun a b => (phase a <= phase b)%nat)
            (runs_of ([EvSessionOpen] ++ tr
                      ++ [EvSessionClose; EvPgClose; EvDriverClose]))) as Hsorted.
  { rewrite !runs_of_app. simpl. rewrite app_nil_r.
    eapply sorted_prefix; [exact Hpre | apply load_plan_sorted]. }
  intros i j qi qj Hi Hj Hmust. apply must_precede_phase in Hmust.
  destruct (Nat.lt_total i j) as [Hlt | [-> | Hgt]]; [done | | ].
  - rewrite Hi in Hj. injection Hj as ->. lia.
  - pose proof (runs_of_before _ j i qj qi Hsorted Hj Hi Hgt). lia.
Qed.

(** ** Keyed writes *)

Lemma set_prop_lookup (f f' : string) (v : value) (p : props) :
  set_prop f' v p !! f = if decide (f = f') then stored v else p !! f.
Proof.
  unfold set_prop. case_decide as E.
  - subst. destruct v; simpl; by rewrite ?lookup_delete_eq, ?lookup_insert_eq.
  - destruct v; simpl; by rewrite ?lookup_delete_ne, ?lookup_insert_ne.
Qed.

Lemma set_props_cons (fv : string * value) (a : list (string * value)) (p : props) :
  set_props (fv :: a) p = set_props a (set_prop fv.1 fv.2 p).
Proof. reflexivity. Qed.

Lemma set_props_app (a b : list (string * value)) (p : props) :
  set_props (a ++ b) p = set_props b (set_props a p).
Proof. unfold set_props. apply foldl_app. Qed.

Lemma set_props_lookup (f : string) (a : list (string * value)) :
  forall p : props,
    set_props a p !! f
    = match assigned f a with
      | Some v => stored v
      | None => p !! f
      end.
Proof.
  induction a as [ | fv a IH]; intros p; [done | ].
  rewrite set_props_cons, IH. simpl.
  destruct (assigned f a); [done | ].
  rewrite set_prop_lookup. by case_decide.
Qed.

Lemma set_props_twice (a : list (string * value)) (p : props) :
  set_props a (set_props a p) = set_props a p.
Proof.
  apply map_eq. intros f. rewrite !set_props_lookup.
  by destruct (assigned f a).
Qed.

Section upserts.
Context {K : Type} `{Countable K} (init : K -> props).

Lemma run_upserts_cons (u : K * list (string * value)) us (m : gmap K props) :
  run_upserts init (u :: us) m = run_upserts init us (upsert init u m).
Proof. reflexivity. Qed.

Lemma run_upserts_app us1 us2 (m : gmap K props) :
  run_upserts init (us1 ++ us2) m
  = run_upserts init us2 (run_upserts init us1 m).
Proof. unfold run_upserts. apply foldl_app. Qed.

Lemma assigns_for_cons_eq (k : K) (a : list (string * value)) us :
  assigns_for k ((k, a) :: us) = a ++ assigns_for k us.
Proof. unfold assigns_for. rewrite filter_cons. simpl. by rewrite decide_True. Qed.

Lemma assigns_for_cons_ne (k k' : K) (a : list (string * value)) us :
  k' <> k -> assigns_for k ((k', a) :: us) = assigns_for k us.
Proof.
  intros Hne. unfold assigns_for. rewrite filter_cons. simpl.
  by rewrite decide_False.
Qed.

Lemma assigns_for_absent (k : K) us : k ∉ us.*1 -> assigns_for k us = [].
Proof.
  induction us as [ | [k' a] us IH]; intros Hk; [done | ].
  rewrite assigns_for_cons_ne by set_solver. apply IH. set_solver.
Qed.

Lemma run_upserts_lookup (k : K) us :
  forall m : gmap K props,
    run_upserts init us m !! k
    = if decide (k ∈ us.*1)
      then Some (set_props (assigns_for k us) (default (init k) (m !! k)))
      else m !! k.
Proof.
  induction us as [ | [k' a] us IH]; intros m.
  - rewrite decide_False by apply not_elem_of_nil. done.
  - rewrite run_upserts_cons, IH. unfold upsert. rewrite fmap_cons.
    cbn [fst snd].
    destruct (decide (k' = k)) as [-> | Hne].
    + rewrite lookup_insert_eq, assigns_for_cons_eq, set_props_app.
      cbn [default].
      rewrite (decide_True (P := k ∈ k :: us.*1)) by by left.
      destruct (decide (k ∈ us.*1)) as [Hin | Hnot]; [done | ].
      by rewrite (assigns_for_absent k us Hnot).
    + rewrite lookup_insert_ne, assigns_for_cons_ne by done.
      destruct (decide (k ∈ us.*1)) as [Hin | Hnot].
      * by rewrite (decide_True (P := k ∈ k' :: us.*1)) by by right.
      * rewrite (decide_False (P := k ∈ k' :: us.*1)); [done | ].
        intros [? | ?]%elem_of_cons; simpl in *; congruence.
Qed.

Lemma run_upserts_idem us (m : gmap K props) :
  run_upserts init us (run_upserts init us m) = run_upserts init us m.
Proof.
  apply map_eq. intros k. rewrite !run_upserts_lookup.
  case_decide; [ | done]. simpl. by rewrite set_props_twice.
Qed.

Lemma run_upserts_dom us (m : gmap K props) :
  dom (run_upserts init us m) = dom m ∪ list_to_set us.*1.
Proof.
  revert m. induction us as [ | u us IH]; intros m.
  - simpl. set_solver.
  - rewrite run_upserts_cons, IH. unfold upsert. rewrite dom_insert_L.
    simpl. set_solver.
Qed.
End upserts.

(** ** Bulk statements as keyed writes *)

Lemma graph_eq (g1 g2 : graph) :
  nodes g1 = nodes g2 -> edges g1 = edges g2 -> g1 = g2.
Proof. destruct g1, g2. simpl. by intros -> ->. Qed.

Lemma merge_node_eq (k : node_key) (g : graph) :
  merge_node k g
  = Graph (<[k := default (node_init k) (nodes g !! k)]> (nodes g)) (edges g).
Proof.
  unfold merge_node. destruct (nodes g !! k) as [p | ] eqn:E; simpl; [ | done].
  apply graph_eq; simpl; [ | done]. by rewrite insert_id.
Qed.

Lemma set_node_insert (k : node_key) (f : string) (v : value) (x : props)
  (m : gmap (label * Z) props) (e : gmap (label * Z * rel_kind * (label * Z)) props) :
  set_node k f v (Graph (<[k := x]> m) e) = Graph (<[k := set_prop f v x]> m) e.
Proof. unfold set_node. simpl. by rewrite alter_insert_eq. Qed.

Lemma merge_rel_eq (e : edge_key) (g : graph) :
  merge_rel e g
  = Graph (nodes g) (<[e := default (edge_init e) (edges g !! e)]> (edges g)).
Proof.
  unfold merge_rel. destruct (edges g !! e) as [p | ] eqn:E; simpl; [ | done].
  apply graph_eq; simpl; [done | ]. by rewrite insert_id.
Qed.

Lemma set_rel_insert (k : edge_key) (f : string) (v : value) (x : props)
  (m : gmap (label * Z) props) (e : gmap (label * Z * rel_kind * (label * Z)) props) :
  set_rel k f v (Graph m (<[k := x]> e)) = Graph m (<[k := set_prop f v x]> e).
Proof. unfold set_rel. simpl. by rewrite alter_insert_eq. Qed.

Lemma category_row_ops (row : category_row) (g : graph) :
  category_row_query row g = run_ops (category_ops row) g.
Proof.
  unfold category_row_query. by rewrite merge_node_eq, set_node_insert.
Qed.

Lemma customer_row_ops (row : customer_row) (g : graph) :
  customer_row_query row g = run_ops (customer_ops row) g.
Proof.
  unfold customer_row_query. by rewrite merge_node_eq, !set_node_insert.
Qed.

Lemma product_row_ops (row : product_row) (g : graph) :
  product_row_query row g = run_ops (product_ops row) g.
Proof.
  unfold product_row_query. rewrite merge_node_eq, !set_node_insert.
  unfold product_ops, run_ops. cbn [foldl].
  set (g1 := run_op (NodeUp _ _) g).
  change (Graph _ (edges g)) with g1.
  unfold run_op at 1. cbn [forallb]. rewrite andb_true_r.
  destruct (match_node _ g1); [ | done]. by rewrite merge_rel_eq.
Qed.

Lemma order_row_ops (row : order_row) (g : graph) :
  order_row_query row g = run_ops (order_ops row) g.
Proof.
  unfold order_row_query. rewrite merge_node_eq, !set_node_insert.
  unfold order_ops, run_ops. cbn [foldl].
  set (g1 := run_op (NodeUp _ _) g).
  change (Graph _ (edges g)) with g1.
  unfold run_op at 1. cbn [forallb]. rewrite andb_true_r.
  destruct (match_node _ g1); [ | done]. by rewrite merge_rel_eq.
Qed.

Lemma order_item_row_ops (row : order_item_row) (g : graph) :
  order_item_row_query row g = run_ops (order_item_ops row) g.
Proof.
  unfold order_item_row_query, order_item_ops, run_ops. cbn [foldl run_op forallb].
  rewrite andb_true_r.
  destruct (match_node _ g); [ | done]. destruct (match_node _ g); [ | done].
  by rewrite merge_rel_eq, set_rel_insert.
Qed.

Lemma event_row_ops (kind : rel_kind) (row : event_row) (g : graph) :
  event_row_query kind row g = run_ops (event_ops kind row) g.
Proof.
  unfold event_row_query, event_ops, run_ops. cbn [foldl run_op forallb].
  rewrite andb_true_r.
  destruct (match_node _ g); [ | done]. destruct (match_node _ g); [ | done].
  by rewrite merge_rel_eq, set_rel_insert.
Qed.

Lemma run_ops_app (a b : list op) (g : graph) :
  run_ops (a ++ b) g = run_ops b (run_ops a g).
Proof. unfold run_ops. apply foldl_app. Qed.

Lemma foldl_run_ops {A : Type} (f : A -> graph -> graph) (ops : A -> list op)
  (xs : list A) :
  (forall x g, f x g = run_ops (ops x) g) ->
  forall g, foldl (fun g x => f x g) g xs = run_ops (flat_map ops xs) g.
Proof.
  intros Hf. induction xs as [ | x xs IH]; intros g; [done | ].
  simpl. by rewrite run_ops_app, IH, Hf.
Qed.

Lemma apply_query_ops (q : load_query) (g : graph) :
  apply_query q g = run_ops (query_ops q) g.
Proof.
  destruct q; simpl; apply foldl_run_ops; intros row g'.
  - apply category_row_ops.
  - apply product_row_ops.
  - apply customer_row_ops.
  - apply order_row_ops.
  - apply order_item_row_ops.
  - apply event_row_ops.
  - apply event_row_ops.
  - apply event_row_ops.
Qed.

Lemma node_upds_app (a b : list op) : node_upds (a ++ b) = node_upds a ++ node_upds b.
Proof. apply omap_app. Qed.

Lemma edge_upds_app (S : gset node_key) (a b : list op) :
  edge_upds S (a ++ b) = edge_upds S a ++ edge_upds S b.
Proof. apply omap_app. Qed.

Lemma run_ops_nodes (ops : list op) :
  forall g, nodes (run_ops ops g) = run_upserts node_init (node_upds ops) (nodes g).
Proof.
  induction ops as [ | o ops IH]; intros g; [done | ].
  change (run_ops (o :: ops) g) with (run_ops ops (run_op o g)). rewrite IH.
  destruct o as [k a | tests e a]; simpl; [done | ].
  by destruct (forallb _ tests).
Qed.

Lemma forallb_agree {A : Type} (f g : A -> bool) (l : list A) :
  (forall x, x ∈ l -> f x = g x) -> forallb f l = forallb g l.
Proof.
  induction l as [ | x l IH]; intros Hfg; [done | ]. simpl.
  rewrite Hfg by by left. f_equal. apply IH. intros y Hy. apply Hfg. by right.
Qed.

Lemma match_node_dom (k : node_key) (g : graph) :
  match_node k g = bool_decide (k ∈ dom (nodes g)).
Proof. unfold match_node. apply bool_decide_ext. by rewrite elem_of_dom. Qed.

Lemma edge_upds_node (S : gset node_key) (k : node_key)
  (a : list (string * value)) (ops : list op) :
  edge_upds S (NodeUp k a :: ops) = edge_upds S ops.
Proof. reflexivity. Qed.

Lemma edge_upds_edge (S : gset node_key) (tests : list node_key) (e : edge_key)
  (a : list (string * value)) (ops : list op) :
  edge_upds S (EdgeIf tests e a :: ops)
  = if forallb (fun k => bool_decide (k ∈ S)) tests
    then (e, a) :: edge_upds S ops
    else edge_upds S ops.
Proof.
  unfold edge_upds. cbn [omap list_omap].
  by destruct (forallb _ tests).
Qed.

Lemma node_upds_node (k : node_key) (a : list (string * value)) (ops : list op) :
  node_upds (NodeUp k a :: ops) = (k, a) :: node_upds ops.
Proof. reflexivity. Qed.

Lemma node_upds_edge (tests : list node_key) (e : edge_key)
  (a : list (string * value)) (ops : list op) :
  node_upds (EdgeIf tests e a :: ops) = node_upds ops.
Proof. reflexivity. Qed.

Lemma run_ops_edges (ops : list op) :
  forall g,
    staged ops ->
    edges (run_ops ops g)
    = run_upserts edge_init
        (edge_upds (dom (nodes g) ∪ list_to_set (node_upds ops).*1) ops)
        (edges g).
Proof.
  induction ops as [ | o ops IH]; intros g Hst; [done | ].
  destruct Hst as [Htests Hst].
  change (run_ops (o :: ops) g) with (run_ops ops (run_op o g)).
  rewrite (IH _ Hst). destruct o as [k a | tests e a].
  - rewrite edge_upds_node, node_upds_node. cbn [run_op nodes edges].
    unfold upsert at 1. rewrite dom_insert_L, fmap_cons.
    cbn [fst list_to_set]. f_equal. f_equal. set_solver.
  - rewrite node_upds_edge.
    set (S := dom (nodes g) ∪ list_to_set (node_upds ops).*1).
    assert (forallb (fun k => match_node k g) tests
            = forallb (fun k => bool_decide (k ∈ S)) tests) as Hguard.
    { apply forallb_agree. intros x Hx. rewrite match_node_dom.
      apply bool_decide_ext. specialize (Htests x Hx). set_solver. }
    rewrite edge_upds_edge. cbn [run_op]. rewrite Hguard. clear Hguard.
    destruct (forallb (fun k => bool_decide (k ∈ S)) tests);
      cbn [nodes edges]; fold S; done.
Qed.

Lemma staged_of_phases (ops : list op) :
  StronglySorted (fun a b => (op_phase a <= op_phase b)%nat) ops ->
  Forall tests_ok ops ->
  staged ops.
Proof.
  induction ops as [ | o ops IH]; intros Hsorted Hok; [done | ].
  apply StronglySorted_cons in Hsorted as [Hle Hsorted].
  inversion Hok as [ | ? ? Ho Hops]; subst.
  split; [ | by apply IH].
  intros x Hx Hin. destruct o as [k a | tests e a]; [by apply elem_of_nil in Hx | ].
  cbn [op_tests] in Hx. unfold tests_ok in Ho.
  rewrite Forall_forall in Ho. rewrite Forall_forall in Hle.
  apply list_elem_of_fmap in Hin as ([k a'] & -> & Hin).
  apply list_elem_of_omap in Hin as (o' & Ho' & Heq).
  destruct o' as [k' a'' | ]; [ | done]. injection Heq as -> ->.
  specialize (Hle _ Ho'). specialize (Ho _ Hx). simpl in *. lia.
Qed.

Lemma run_ops_idem (ops : list op) (g : graph) :
  staged ops -> run_ops ops (run_ops ops g) = run_ops ops g.
Proof.
  intros Hst. apply graph_eq.
  - rewrite !run_ops_nodes. apply run_upserts_idem.
  - rewrite !(run_ops_edges ops _ Hst), run_ops_nodes, run_upserts_dom.
    replace (dom (nodes g) ∪ list_to_set (node_upds ops).*1
             ∪ list_to_set (node_upds ops).*1)
      with (dom (nodes g) ∪ list_to_set (node_upds ops).*1) by set_solver.
    apply run_upserts_idem.
Qed.

Lemma Forall_flat_map_ops {A : Type} (P : op -> Prop) (f : A -> list op)
  (xs : list A) :
  (forall x, Forall P (f x)) -> Forall P (flat_map f xs).
Proof.
  intros Hf. induction xs as [ | x xs IH]; simpl; [constructor | ].
  apply Forall_app. split; [apply Hf | exact IH].
Qed.

Lemma query_ops_phase (q : load_query) :
  Forall (fun o => op_phase o = phase q) (query_ops q).
Proof.
  destruct q; simpl; apply Forall_flat_map_ops; intros row;
    repeat constructor.
Qed.

Lemma query_ops_tests_ok (q : load_query) : Forall tests_ok (query_ops q).
Proof.
  destruct q; simpl; apply Forall_flat_map_ops; intros row;
    repeat constructor; simpl; lia.
Qed.

Lemma sorted_same_phase (n : nat) (ops : list op) :
  Forall (fun o => op_phase o = n) ops ->
  StronglySorted (fun a b => (op_phase a <= op_phase b)%nat) ops.
Proof.
  induction 1 as [ | o ops Ho Hops IH]; constructor; [done | ].
  eapply Forall_impl; [exact Hops | ]. simpl. intros o' Ho'. lia.
Qed.

Lemma plan_ops_sorted (qs : list load_query) :
  StronglySorted (fun a b => (phase a <= phase b)%nat) qs ->
  StronglySorted (fun a b => (op_phase a <= op_phase b)%nat)
    (flat_map query_ops qs).
Proof.
  induction 1 as [ | q qs Hqs IH Hle]; simpl; [constructor | ].
  apply StronglySorted_app_2; [ | | exact IH].
  - intros o1 o2 H1 H2.
    pose proof (query_ops_phase q) as Hq. rewrite Forall_forall in Hq.
    rewrite (Hq _ H1).
    apply list_elem_of_In, in_flat_map in H2 as (q' & Hq' & H2).
    apply list_elem_of_In in Hq', H2.
    pose proof (query_ops_phase q') as Hp. rewrite Forall_forall in Hp.
    rewrite (Hp _ H2). rewrite Forall_forall in Hle. by apply Hle.
  - eapply sorted_same_phase, query_ops_phase.
Qed.

Lemma plan_ops_staged (qs : list load_query) :
  StronglySorted (fun a b => (phase a <= phase b)%nat) qs ->
  staged (flat_map query_ops qs).
Proof.
  intros Hqs. apply staged_of_phases; [by apply plan_ops_sorted | ].
  apply Forall_flat_map_ops, query_ops_tests_ok.
Qed.

Lemma run_plan_ops (qs : list load_query) (g : graph) :
  foldl (fun g q => apply_query q g) g qs = run_ops (flat_map query_ops qs) g.
Proof. apply foldl_run_ops, apply_query_ops. Qed.

(** The graph of a load phase that ends without an exception. *)
Lemma load_phase_graph (w : env) (t : snapshot) (s : st) :
  (load_phase w t s).1 = Ok tt ->
  st_graph (load_phase w t s).2
  = run_ops (flat_map query_ops (load_plan t)) (st_graph s).
Proof.
  rewrite load_phase_plan, <- run_plan_ops.
  generalize (load_plan t). intros qs. revert s.
  induction qs as [ | q qs IH]; intros s Hok; [done | ].
  rewrite for_each_cons, session_run_eq in Hok |- *.
  destruct (run_fault w (st_trace s)); [done | ].
  by rewrite (IH _ Hok).
Qed.

Lemma load_phase_ok (w : env) (t : snapshot) (s : st) :
  (forall tr, run_fault w tr = None) -> (load_phase w t s).1 = Ok tt.
Proof.
  intros Hquiet. by rewrite load_phase_plan, for_each_run_ok.
Qed.

(** C2. Two load phases in a row on the same snapshot, both ending
    without an exception, leave the graph that the first one left: the
    same nodes and relationships with the same properties, hence the same
    node and relationship counts. Nodes are upserted by (label, id) and
    relationships by (source, kind, target), so nothing is duplicated.
    When the store raises no exception, both phases do end without one. *)
Theorem load_idempotent (w : env) (t : snapshot) (s : st) :
  let run1 := load_phase w t s in
  let run2 := load_phase w t run1.2 in
  (run1.1 = Ok tt -> run2.1 = Ok tt ->
   st_graph run2.2 = st_graph run1.2
   /\ size (nodes (st_graph run2.2)) = size (nodes (st_graph run1.2))
   /\ size (edges (st_graph run2.2)) = size (edges (st_graph run1.2)))
  /\ ((forall tr, run_fault w tr = None) -> run1.1 = Ok tt /\ run2.1 = Ok tt).
Proof.
  intros run1 run2. split.
  - intros H1 H2.
    assert (st_graph run2.2 = st_graph run1.2) as Heq.
    { unfold run2. rewrite (load_phase_graph _ _ _ H2).
      unfold run1. rewrite (load_phase_graph _ _ _ H1).
      apply run_ops_idem, plan_ops_staged, load_plan_sorted. }
    by rewrite Heq.
  - intros Hquiet. split; by apply load_phase_ok.
Qed.

(** ** Dangling references *)

Lemma edge_upds_agree (S1 S2 : gset node_key) (ops : list op) :
  Forall (fun o => forall x, x ∈ op_tests o -> x ∈ S1 <-> x ∈ S2) ops ->
  edge_upds S1 ops = edge_upds S2 ops.
Proof.
  induction 1 as [ | o ops Ho _ IH]; [done | ].
  destruct o as [k a | tests e a].
  - by rewrite !edge_upds_node.
  - rewrite !edge_upds_edge, IH.
    rewrite (forallb_agree (fun k => bool_decide (k ∈ S1))
               (fun k => bool_decide (k ∈ S2)) tests); [done | ].
    intros x Hx. apply bool_decide_ext. by apply Ho.
Qed.

(** The guards of a statement never look up a node of the label that the
    statement itself writes. *)
Lemma query_tests_not_written (q : load_query) :
  Forall (fun o => forall x, x ∈ op_tests o -> x ∉ (node_upds (query_ops q)).*1)
    (query_ops q).
Proof.
  pose proof (query_ops_phase q) as Hphase.
  pose proof (query_ops_tests_ok q) as Hok.
  rewrite Forall_forall in Hphase, Hok |- *.
  intros o Ho x Hx Hin.
  apply list_elem_of_fmap in Hin as ([k a] & -> & Hin).
  apply list_elem_of_omap in Hin as (o' & Ho' & Heq).
  destruct o' as [k' a' | ]; [ | done]. injection Heq as -> ->.
  pose proof (Hphase _ Ho') as Hk. pose proof (Hphase _ Ho) as Hq.
  pose proof (Hok _ Ho) as Ht.
  destruct o as [ | tests e a']; [by apply elem_of_nil in Hx | ].
  unfold tests_ok in Ht. rewrite Forall_forall in Ht. specialize (Ht _ Hx).
  simpl in *. lia.
Qed.

Lemma query_ops_staged (q : load_query) : staged (query_ops q).
Proof.
  apply staged_of_phases; [ | apply query_ops_tests_ok].
  eapply sorted_same_phase, query_ops_phase.
Qed.

Lemma apply_query_edges (q : load_query) (g : graph) :
  edges (apply_query q g)
  = run_upserts edge_init (edge_upds (dom (nodes g)) (query_ops q)) (edges g).
Proof.
  rewrite apply_query_ops, (run_ops_edges _ _ (query_ops_staged q)).
  f_equal. apply edge_upds_agree.
  eapply Forall_impl; [apply query_tests_not_written | ].
  intros o Ho x Hx. specialize (Ho x Hx). set_solver.
Qed.

Lemma apply_query_nodes_dom (q : load_query) (g : graph) :
  dom (nodes (apply_query q g))
  = dom (nodes g) ∪ list_to_set (node_upds (query_ops q)).*1.
Proof. by rewrite apply_query_ops, run_ops_nodes, run_upserts_dom. Qed.

Lemma edge_upds_flat_map_nil {A : Type} (S : gset node_key) (f : A -> list op)
  (rows : list A) :
  Forall (fun r => edge_upds S (f r) = []) rows ->
  edge_upds S (flat_map f rows) = [].
Proof.
  induction 1 as [ | r rows Hr _ IH]; [done | ].
  simpl. by rewrite edge_upds_app, Hr, IH.
Qed.

Lemma merged_nodes_written (q : load_query) :
  merged_nodes q = (node_upds (query_ops q)).*1.
Proof.
  destruct q as [rows | rows | rows | rows | rows | rows | rows | rows];
    simpl; induction rows as [ | r rows IH]; simpl; by f_equal.
Qed.

Lemma elem_of_flat_map {A B : Type} (f : A -> list B) (l : list A) (y : B) :
  y ∈ flat_map f l <-> exists x, x ∈ l /\ y ∈ f x.
Proof.
  rewrite list_elem_of_In, in_flat_map.
  split; intros (x & Hx & Hy); exists x; by rewrite ?list_elem_of_In in *.
Qed.

Lemma elem_of_map {A B : Type} (f : A -> B) (l : list A) (y : B) :
  y ∈ map f l <-> exists x, x ∈ l /\ y = f x.
Proof.
  rewrite list_elem_of_In, in_map_iff.
  split; intros (x & Hx & Hy); exists x; by rewrite ?list_elem_of_In in *.
Qed.

(** The guarded relationship writes of a statement are those of its rows,
    each guarded by the endpoints that it looks up. *)
Lemma query_ops_edges (q : load_query) (tests : list node_key) (e : edge_key) :
  (exists a, EdgeIf tests e a ∈ query_ops q)
  <-> e ∈ row_edges q /\ tests = looked_up e.
Proof.
  split.
  - intros (a & Hin).
    destruct q as [rows | rows | rows | rows | rows | rows | rows | rows];
      cbn [query_ops row_edges] in *; rewrite ?elem_of_map;
      apply elem_of_flat_map in Hin as (r & Hr & Ho);
      apply list_elem_of_In in Ho; simpl in Ho;
      repeat (destruct Ho as [Ho | Ho]); try done;
      injection Ho as <- <- <-; (split; [by exists r | done]).
  - intros [Hin ->].
    destruct q as [rows | rows | rows | rows | rows | rows | rows | rows];
      cbn [query_ops row_edges] in *; rewrite ?elem_of_map in Hin;
      try (by apply not_elem_of_nil in Hin);
      destruct Hin as (r & Hr & ->); eexists; apply elem_of_flat_map;
      exists r; (split; [exact Hr | ]); apply list_elem_of_In; simpl; eauto.
Qed.

Lemma edge_upds_elem (S : gset node_key) (ops : list op) (e : edge_key) :
  e ∈ (edge_upds S ops).*1
  <-> exists tests a, EdgeIf tests e a ∈ ops /\ Forall (fun k => k ∈ S) tests.
Proof.
  unfold edge_upds. rewrite list_elem_of_fmap. split.
  - intros ([e' a] & Heq & Hin). simpl in Heq. subst e'.
    apply list_elem_of_omap in Hin as (o & Ho & Hsome).
    destruct o as [k a' | tests e'' a']; [done | ].
    destruct (forallb _ tests) eqn:Hall; [ | done].
    injection Hsome as -> ->. exists tests, a. split; [done | ].
    apply Forall_forall. intros k Hk.
    rewrite forallb_forall in Hall. apply list_elem_of_In in Hk.
    specialize (Hall k Hk). by apply bool_decide_eq_true in Hall.
  - intros (tests & a & Hin & Hall). exists (e, a). split; [done | ].
    apply list_elem_of_omap. exists (EdgeIf tests e a). split; [done | ].
    replace (forallb _ tests) with true; [done | ].
    symmetry. apply forallb_forall. intros k Hk%list_elem_of_In.
    apply bool_decide_eq_true. by eapply Forall_forall in Hall.
Qed.

(** The relationships that a statement writes: those of its rows whose
    looked-up endpoints are all in the graph. *)
Lemma apply_query_edge_written (q : load_query) (g : graph) (e : edge_key) :
  e ∈ (edge_upds (dom (nodes g)) (query_ops q)).*1
  <-> e ∈ row_edges q /\ Forall (fun k => is_Some (nodes g !! k)) (looked_up e).
Proof.
  rewrite edge_upds_elem. split.
  - intros (tests & a & Hin & Hall).
    destruct (proj1 (query_ops_edges q tests e) (ex_intro _ a Hin)) as [He ->].
    split; [done | ]. eapply Forall_impl; [exact Hall | ].
    intros k Hk. by apply elem_of_dom.
  - intros [He Hall].
    destruct (proj2 (query_ops_edges q (looked_up e) e) (conj He eq_refl)) as [a Ha].
    exists (looked_up e), a. split; [done | ].
    eapply Forall_impl; [exact Hall | ]. intros k Hk. by apply elem_of_dom.
Qed.

Lemma looked_up_endpoint (e : edge_key) (k : node_key) :
  k ∈ looked_up e -> k = e.1.1 \/ k = e.2.
Proof.
  unfold looked_up. destruct e.1.2; set_solver.
Qed.

(** C4. No relationship statement raises because an endpoint is missing:
    whatever its rows and the graph, the statement completes, so that
    [session.run] raises only when the store client fails. A row that
    looks up a node that is not in the graph leaves its relationship as
    it was, which in a well-formed graph means that there is none, while
    the rows of the same statement whose looked-up nodes are all in the
    graph get their relationship. The nodes that the statement merges are
    in the graph afterwards all the same; in particular a product whose
    category is absent becomes a Product node without an IN_CATEGORY
    relationship. *)
Theorem dangling_endpoint_noop (w : env) (q : load_query) (s : st) :
  let g := st_graph s in
  exists g',
    run_query q g = Ok g'
    /\ (forall x, (session_run w q s).1 = Raise x <-> run_fault w (st_trace s) = Some x)
    /\ (run_fault w (st_trace s) = None ->
        session_run w q s = (Ok tt, with_graph g' (add_trace [EvRun q] s)))
    /\ (forall e, e ∈ row_edges q ->
          (exists k, k ∈ looked_up e /\ nodes g !! k = None) ->
          edges g' !! e = edges g !! e
          /\ (well_formed g -> edges g' !! e = None))
    /\ (forall e, e ∈ row_edges q ->
          Forall (fun k => is_Some (nodes g !! k)) (looked_up e) ->
          is_Some (edges g' !! e))
    /\ Forall (fun k => is_Some (nodes g' !! k)) (merged_nodes q).
Proof.
  intros g. exists (apply_query q g).
  split; [apply run_query_ok | ].
  split.
  { intros x. unfold session_run. rewrite run_query_ok.
    destruct (run_fault w (st_trace s)); simpl; split; congruence. }
  split.
  { intros Hfault. by rewrite session_run_eq, Hfault. }
  split; [ | split].
  - intros e He (k & Hk & Hmiss).
    assert (edges (apply_query q g) !! e = edges g !! e) as Hsame.
    { rewrite apply_query_edges, run_upserts_lookup. rewrite decide_False; [done | ].
      intros [_ Hall]%apply_query_edge_written.
      eapply Forall_forall in Hall; [ | exact Hk].
      rewrite Hmiss in Hall. by destruct Hall. }
    split; [exact Hsame | ].
    intros Hwf. rewrite Hsame. apply not_elem_of_dom. intros Hin.
    destruct (Hwf e Hin) as (Hsrc & Htgt & _).
    apply not_elem_of_dom in Hmiss.
    by destruct (looked_up_endpoint e k Hk) as [-> | ->].
  - intros e He Hall. rewrite apply_query_edges, run_upserts_lookup.
    rewrite decide_True; [done | ]. by apply apply_query_edge_written.
  - apply Forall_forall. intros k Hk. apply elem_of_dom.
    rewrite apply_query_nodes_dom, <- merged_nodes_written. set_solver.
Qed.

(** ** Events of an unknown type *)

Lemma batches_nil {A : Type} : batches (@nil A) = [].
Proof. reflexivity. Qed.

Lemma filter_unknown_type (ty : string) (r : event_row) (evs1 evs2 : list event_row) :
  ev_event_type r <> ty ->
  filter (fun r => ev_event_type r = ty) (evs1 ++ r :: evs2)
  = filter (fun r => ev_event_type r = ty) (evs1 ++ evs2).
Proof.
  intros Hty. rewrite !filter_app, filter_cons. by rewrite decide_False.
Qed.

Lemma filter_all_unknown (ty : string) (evs : list event_row) :
  known_event_type ty ->
  Forall (fun r => ~ known_event_type (ev_event_type r)) evs ->
  filter (fun r => ev_event_type r = ty) evs = [].
Proof.
  intros Hty. induction 1 as [ | r evs Hr _ IH]; [done | ].
  rewrite filter_cons, IH. rewrite decide_False; [done | ].
  intros E. apply Hr. by rewrite E.
Qed.

(** C9. An event row whose type is not exactly ["view"], ["click"] or
    ["add_to_cart"] is selected by none of the three filters: the load
    phase runs exactly as if the row were not in the table, so the row
    creates no relationship and raises nothing; and when no event has a
    known type the load phase of the events issues no statement at all. *)
Theorem unknown_event_dropped (w : env) (t : snapshot) (r : event_row)
  (evs1 evs2 : list event_row) (s : st) :
  ~ known_event_type (ev_event_type r) ->
  load_phase w (with_events t (evs1 ++ r :: evs2)) s
  = load_phase w (with_events t (evs1 ++ evs2)) s
  /\ (Forall (fun r' => ~ known_event_type (ev_event_type r')) (evs1 ++ evs2) ->
      load_phase w (only_events (evs1 ++ r :: evs2)) s = (Ok tt, s)).
Proof.
  intros Hr. unfold known_event_type in Hr. split.
  - rewrite !load_phase_plan. unfold load_plan, with_events. simpl.
    rewrite !filter_unknown_type; [done | | | ]; intros E; apply Hr; auto.
  - intros Hall. rewrite load_phase_plan. unfold load_plan, only_events. simpl.
    assert (Forall (fun r' => ~ known_event_type (ev_event_type r'))
              (evs1 ++ r :: evs2)) as Hall'.
    { apply Forall_app in Hall as [H1 H2]. apply Forall_app. split; [done | ].
      by constructor. }
    rewrite !filter_all_unknown; [done | | done | | done | | done];
      unfold known_event_type; auto.
Qed.

(** ** Event partitioning *)

Lemma event_filters_cover (evs : list event_row) :
  Forall (fun r => known_event_type (ev_event_type r)) evs ->
  filter (fun r => ev_event_type r = "view") evs
  ++ filter (fun r => ev_event_type r = "click") evs
  ++ filter (fun r => ev_event_type r = "add_to_cart") evs
  ≡ₚ evs.
Proof.
  induction 1 as [ | r evs Hr _ IH]; [done | ].
  rewrite !filter_cons.
  destruct Hr as [E | [E | E]]; rewrite E; simpl.
  - by rewrite IH.
  - rewrite <- Permutation_middle. by rewrite IH.
  - rewrite app_assoc, <- Permutation_middle, <- app_assoc. by rewrite IH.
Qed.

Lemma flat_map_query_ops_map {A : Type} (K : list A -> load_query)
  (f : A -> list op) (bs : list (list A)) :
  (forall rows, query_ops (K rows) = flat_map f rows) ->
  flat_map query_ops (map K bs) = flat_map f (concat bs).
Proof.
  intros HK. induction bs as [ | b bs IH]; [done | ].
  simpl. by rewrite flat_map_app, HK, IH.
Qed.

Lemma only_events_ops (evs : list event_row) :
  flat_map query_ops (load_plan (only_events evs))
  = flat_map (event_ops VIEW) (filter (fun r => ev_event_type r = "view") evs)
    ++ flat_map (event_ops CLICK) (filter (fun r => ev_event_type r = "click") evs)
    ++ flat_map (event_ops ADD_TO_CART)
         (filter (fun r => ev_event_type r = "add_to_cart") evs).
Proof.
  unfold load_plan, only_events. simpl. rewrite !flat_map_app.
  rewrite (flat_map_query_ops_map LoadViews (event_ops VIEW)) by done.
  rewrite (flat_map_query_ops_map LoadClicks (event_ops CLICK)) by done.
  rewrite (flat_map_query_ops_map LoadAddToCarts (event_ops ADD_TO_CART)) by done.
  by rewrite !batches_concat.
Qed.

Lemma event_ops_no_node (kind : rel_kind) (rows : list event_row) :
  node_upds (flat_map (event_ops kind) rows) = [].
Proof. induction rows as [ | r rows IH]; [done | ]. simpl. exact IH. Qed.

Lemma event_ops_edges (S : gset node_key) (kind : rel_kind) (ty : string)
  (evs : list event_row) :
  event_kind ty = Some kind ->
  Forall (fun r => (Customer, ev_customer_id r) ∈ S
                   /\ (Product, ev_product_id r) ∈ S) evs ->
  (edge_upds S (flat_map (event_ops kind)
                  (filter (fun r => ev_event_type r = ty) evs))).*1
  = omap event_edge (filter (fun r => ev_event_type r = ty) evs).
Proof.
  intros Hkind. induction 1 as [ | r evs [Hc Hp] _ IH]; [done | ].
  rewrite filter_cons. case_decide as E; [ | exact IH].
  cbn [flat_map event_ops app]. rewrite edge_upds_edge. cbn [forallb].
  rewrite !bool_decide_eq_true_2 by done. cbn [andb].
  rewrite fmap_cons, IH. cbn [omap list_omap fst].
  unfold event_edge at 2. by rewrite E, Hkind.
Qed.

Lemma event_kind_known (ty : string) :
  known_event_type ty -> is_Some (event_kind ty).
Proof. unfold event_kind. intros [-> | [-> | ->]]; by eexists. Qed.

Lemma event_kind_inj (ty1 ty2 : string) (kind : rel_kind) :
  event_kind ty1 = Some kind -> event_kind ty2 = Some kind -> ty1 = ty2.
Proof.
  unfold event_kind. repeat case_decide; subst; intros; simplify_eq; done.
Qed.

Lemma event_edge_inj (r1 r2 : event_row) (e : edge_key) :
  event_edge r1 = Some e -> event_edge r2 = Some e ->
  event_triple r1 = event_triple r2.
Proof.
  unfold event_edge, event_triple, event_key.
  destruct (event_kind (ev_event_type r1)) as [k1 | ] eqn:E1; [ | done].
  destruct (event_kind (ev_event_type r2)) as [k2 | ] eqn:E2; [ | done].
  intros [= <-] [= Hc Hk Hp]. subst k2.
  by rewrite Hc, Hp, (event_kind_inj _ _ _ E1 E2).
Qed.

Lemma event_edges_nodup (evs : list event_row) :
  Forall (fun r => known_event_type (ev_event_type r)) evs ->
  NoDup (map event_triple evs) ->
  NoDup (omap event_edge evs) /\ length (omap event_edge evs) = length evs.
Proof.
  induction 1 as [ | r evs Hr _ IH]; intros Hnd; [split; [constructor | done] | ].
  simpl in Hnd. apply NoDup_cons in Hnd as [Hnew Hnd].
  destruct (IH Hnd) as [IH1 IH2].
  destruct (event_kind_known _ Hr) as [kind Hkind].
  assert (event_edge r = Some (event_key kind r)) as He.
  { unfold event_edge. by rewrite Hkind. }
  cbn [omap list_omap]. rewrite He. split; [ | simpl; by f_equal].
  apply NoDup_cons. split; [ | done].
  intros (r' & Hr' & He')%list_elem_of_omap. apply Hnew.
  rewrite (event_edge_inj _ _ _ He He').
  apply list_elem_of_fmap. by exists r'.
Qed.

(** C3, as the code has it. When every event row has one of the three
    known types and endpoints that are in the graph, and the
    (customer, product, type) triples of the rows are pairwise distinct
    and not yet relationships of the graph, loading the events creates
    exactly one relationship per row, of the kind of the row's type: the
    three filters select every row exactly once. *)
Theorem event_partitioning (w : env) (evs : list event_row) (s : st) :
  (forall tr, run_fault w tr = None) ->
  Forall (fun r => known_event_type (ev_event_type r)) evs ->
  Forall (valid_endpoints (st_graph s)) evs ->
  NoDup (map event_triple evs) ->
  Forall (fun r => forall e, event_edge r = Some e ->
                             edges (st_graph s) !! e = None) evs ->
  let run := load_phase w (only_events evs) s in
  run.1 = Ok tt
  /\ nodes (st_graph run.2) = nodes (st_graph s)
  /\ dom (edges (st_graph run.2))
     = dom (edges (st_graph s)) ∪ list_to_set (omap event_edge evs)
  /\ size (edges (st_graph run.2)) = (size (edges (st_graph s)) + length evs)%nat
  /\ filter (fun r => ev_event_type r = "view") evs
     ++ filter (fun r => ev_event_type r = "click") evs
     ++ filter (fun r => ev_event_type r = "add_to_cart") evs
     ≡ₚ evs.
Proof.
  intros Hquiet Hknown Hvalid Hnd Hfresh run.
  pose proof (load_phase_ok w (only_events evs) s Hquiet) as Hok.
  pose proof (load_phase_graph w (only_events evs) s Hok) as Hg.
  fold run in Hok, Hg. rewrite only_events_ops in Hg.
  set (g := st_graph s) in *.
  set (ops := flat_map (event_ops VIEW) _ ++ _) in Hg.
  assert (node_upds ops = []) as Hno.
  { unfold ops. by rewrite !node_upds_app, !event_ops_no_node. }
  assert (staged ops) as Hst.
  { unfold ops. rewrite <- only_events_ops.
    apply plan_ops_staged, load_plan_sorted. }
  assert (nodes (st_graph run.2) = nodes g) as Hnodes.
  { by rewrite Hg, run_ops_nodes, Hno. }
  assert (Forall (fun r => (Customer, ev_customer_id r) ∈ dom (nodes g)
                           /\ (Product, ev_product_id r) ∈ dom (nodes g)) evs)
    as Hdom.
  { eapply Forall_impl; [exact Hvalid | ]. intros r [Hc Hp].
    split; by apply elem_of_dom. }
  pose proof (event_filters_cover evs Hknown) as Hcover.
  assert (dom (edges (st_graph run.2))
          = dom (edges g) ∪ list_to_set (omap event_edge evs)) as Hedges.
  { rewrite Hg, (run_ops_edges _ _ Hst), Hno, run_upserts_dom.
    replace (dom (nodes g) ∪ list_to_set ([] : list (node_key * _)).*1)
      with (dom (nodes g)) by set_solver.
    unfold ops. rewrite !edge_upds_app, !fmap_app.
    rewrite (event_ops_edges _ VIEW "view"), (event_ops_edges _ CLICK "click"),
      (event_ops_edges _ ADD_TO_CART "add_to_cart") by done.
    rewrite <- !omap_app. f_equal.
    apply list_to_set_perm_L. by rewrite Hcover. }
  destruct (event_edges_nodup evs Hknown Hnd) as [Hnodup Hlen].
  repeat split; trivial.
  rewrite <- !size_dom, Hedges, size_union.
  - by rewrite size_list_to_set, Hlen.
  - intros e He Hin. apply elem_of_list_to_set in Hin.
    apply list_elem_of_omap in Hin as (r & Hr & Hre).
    rewrite Forall_forall in Hfresh. specialize (Hfresh r Hr e Hre).
    apply elem_of_dom in He as [? He]. congruence.
Qed.

(** * The sample run *)

(** The whole of [etl] on the sample store: two refused connections, then
    the schema, the six reads, one bulk statement per table, and the
    release of the session and of the two connections. *)
Example etl_sample_trace :
  (fun o : option (result unit * st) =>
     match o with Some (r, s) => Some (r, st_trace s) | None => None end)
    (etl sample_env 3 initial_state)
  = Some (Ok tt,
          [EvProbe "postgres" false; EvSleep 2; EvProbe "postgres" false;
           EvSleep 2; EvProbe "postgres" true; EvProbe "neo4j" true;
           EvPgConnect; EvDriverCreate; EvSessionOpen; EvReadText;
           EvRunSchema (text_of "CREATE CONSTRAINT c1");
           EvRunSchema (text_of "CREATE CONSTRAINT c2");
           EvReadSql "customers"; EvReadSql "categories"; EvReadSql "products";
           EvReadSql "orders"; EvReadSql "order_items"; EvReadSql "events";
           EvRun (LoadCategories (categories sample_snapshot));
           EvRun (LoadProducts (products sample_snapshot));
           EvRun (LoadCustomers (customers sample_snapshot));
           EvRun (LoadOrders (orders sample_snapshot));
           EvRun (LoadOrderItems (order_items sample_snapshot));
           EvRun (LoadViews (events sample_snapshot));
           EvSessionClose; EvPgClose; EvDriverClose]).
Proof. vm_compute. reflexivity. Qed.

(** With too little fuel the run is still in the first gate. *)
Example etl_sample_blocked : etl sample_env 2 initial_state = None.
Proof. vm_compute. reflexivity. Qed.

(** The graph of the sample run: four nodes and four relationships, the
    CONTAINS relationship with quantity 3 and the VIEW relationship with
    the time of the event. *)
Example etl_sample_graph :
  let g := st_graph (etl_try sample_env initial_state).2 in
  dom (nodes g) = {[ (Category, 7); (Product, 3); (Customer, 1); (Order, 5) ]}
  /\ dom (edges g)
     = {[ ((Product, 3), IN_CATEGORY, (Category, 7));
          ((Customer, 1), PLACED, (Order, 5));
          ((Order, 5), CONTAINS, (Product, 3));
          ((Customer, 1), VIEW, (Product, 3)) ]}
  /\ edges g !! ((Order, 5), CONTAINS, (Product, 3)) = Some {[ "quantity" := VInt 3 ]}
  /\ edges g !! ((Customer, 1), VIEW, (Product, 3)) = Some {[ "ts" := VStr "t1" ]}.
Proof.
  intros g. repeat split; apply (bool_decide_unpack _); vm_compute; reflexivity.
Qed.

(** A schema statement that fails ends the run before any table is read,
    and the connections are released. *)
Example etl_failing_schema :
  (fun rs : result unit * st => (rs.1, st_trace rs.2, pg_open rs.2, driver_open rs.2))
    (etl_try failing_schema_env seeded_state)
  = (Raise (StoreError "syntax error"),
     [EvSessionOpen; EvReadText;
      EvRunSchema (text_of "CREATE CONSTRAINT c1");
      EvRunSchema (text_of "CREATE CONSTRAINT c2");
      EvSessionClose; EvPgClose; EvDriverClose],
     false, false).
Proof. vm_compute. reflexivity. Qed.

(** A bulk statement that fails ends the run, the statements after it are
    not issued, and the connections are released. *)
Example etl_failing_load :
  (fun rs : result unit * st => (rs.1, runs_of (st_trace rs.2), pg_open rs.2, driver_open rs.2))
    (etl_try failing_load_env seeded_state)
  = (Raise (StoreError "connection lost"),
     [LoadCategories (categories sample_snapshot);
      LoadProducts (products sample_snapshot);
      LoadCustomers (customers sample_snapshot)],
     false, false).
Proof. vm_compute. reflexivity. Qed.

(** * Instances of the theorems *)

Lemma readiness_gates_witness :
  wait_for_postgres sample_env 3 initial_state
  = Some (Ok tt, add_trace (gate_trace "postgres" PG_RETRY_SECONDS 2) initial_state)
  /\ attempts (gate_trace "postgres" PG_RETRY_SECONDS 2) = 3%nat.
Proof.
  destruct (readiness_gates sample_env) as [(_ & Hfirst & _) _].
  destruct (Hfirst 2%nat eq_refl) as (k & Hk & Hok & Hmin & Hatt & Hrun).
  assert (k = 2%nat) as ->.
  { destruct k as [ | [ | [ | k]]]; [discriminate Hok | discriminate Hok | done | lia]. }
  split; [apply Hrun; lia | exact Hatt].
Defined.

Lemma schema_loader_witness :
  queries_file failing_schema_env = Ok sample_file
  /\ statements_of sample_file
     = filter (fun t => t <> []) (map py_strip (py_split semicolon sample_file))
  /\ exists pre g_pre bad post e,
       run_all failing_schema_env pre (st_graph seeded_state) = Ok g_pre
       /\ statements_of sample_file = pre ++ bad :: post
       /\ run_cypher_file failing_schema_env seeded_state
          = (Raise e,
             with_graph g_pre
               (add_trace (EvReadText :: map EvRunSchema (pre ++ [bad])) seeded_state)).
Proof.
  split; [reflexivity | ].
  destruct (schema_loader failing_schema_env sample_file seeded_state eq_refl)
    as (_ & _ & Hstmts & _ & pre & g_pre & Hpre & [[_ Hrun] | Hfail]).
  - exfalso. vm_compute in Hrun. discriminate Hrun.
  - split; [exact Hstmts | ].
    destruct Hfail as (bad & post & e & Hsplit & _ & Hrun).
    by exists pre, g_pre, bad, post, e.
Defined.

Lemma load_idempotent_witness :
  (load_phase sample_env sample_snapshot initial_state).1 = Ok tt
  /\ (load_phase sample_env sample_snapshot
        (load_phase sample_env sample_snapshot initial_state).2).1 = Ok tt
  /\ st_graph (load_phase sample_env sample_snapshot
                 (load_phase sample_env sample_snapshot initial_state).2).2
     = st_graph (load_phase sample_env sample_snapshot initial_state).2.
Proof.
  split; [vm_compute; reflexivity | ]. split; [vm_compute; reflexivity | ].
  destruct (load_idempotent sample_env sample_snapshot initial_state) as [H _].
  apply H; vm_compute; reflexivity.
Defined.

Lemma dangling_endpoint_noop_witness :
  session_run sample_env (LoadProducts mixed_products) (with_graph one_category initial_state)
  = (Ok tt,
     with_graph (apply_query (LoadProducts mixed_products) one_category)
       (add_trace [EvRun (LoadProducts mixed_products)]
          (with_graph one_category initial_state)))
  /\ (let g' := apply_query (LoadProducts mixed_products) one_category in
      is_Some (nodes g' !! (Product, 3))
      /\ is_Some (nodes g' !! (Product, 4))
      /\ is_Some (edges g' !! ((Product, 3), IN_CATEGORY, (Category, 7)))
      /\ edges g' !! ((Product, 4), IN_CATEGORY, (Category, 9)) = None).
Proof.
  destruct (dangling_endpoint_noop sample_env (LoadProducts mixed_products)
              (with_graph one_category initial_state))
    as (g' & Hrun & _ & Hok & Hmiss & Hedge & Hnodes).
  rewrite run_query_ok in Hrun. injection Hrun as <-.
  split; [by apply Hok | ].
  cbv zeta.
  apply Forall_cons in Hnodes as [H3 Hnodes].
  apply Forall_cons in Hnodes as [H4 _].
  split; [exact H3 | ]. split; [exact H4 | ].
  split.
  - apply Hedge; [by left | ].
    constructor; [ | constructor]. by apply (bool_decide_unpack _).
  - apply Hmiss.
    + right. by left.
    + exists (Category, 9). split; [by left | ]. by apply (bool_decide_unpack _).
    + intros e He. simpl in He. rewrite dom_empty_L in He.
      by apply not_elem_of_empty in He.
Defined.

Lemma unknown_event_dropped_witness :
  ~ known_event_type (ev_event_type capital_view)
  /\ load_phase sample_env (with_events sample_snapshot ([] ++ capital_view :: two_views))
       initial_state
     = load_phase sample_env (with_events sample_snapshot ([] ++ two_views))
         initial_state.
Proof.
  assert (~ known_event_type (ev_event_type capital_view)) as Hty.
  { intros [H | [H | H]]; discriminate H. }
  split; [exact Hty | ].
  apply (unknown_event_dropped sample_env sample_snapshot capital_view [] two_views
           initial_state Hty).
Defined.

Lemma event_partitioning_witness :
  (load_phase sample_env (only_events view_and_click) seeded_state).1 = Ok tt
  /\ size (edges (st_graph (load_phase sample_env (only_events view_and_click)
                              seeded_state).2))
     = (size (edges (st_graph seeded_state)) + length view_and_click)%nat.
Proof.
  assert (Forall (fun r => known_event_type (ev_event_type r)) view_and_click)
    as Hknown.
  { constructor; [by left | ]. constructor; [by right; left | constructor]. }
  assert (Forall (valid_endpoints (st_graph seeded_state)) view_and_click) as Hvalid.
  { repeat constructor; by eexists. }
  assert (NoDup (map event_triple view_and_click)) as Hnd.
  { apply NoDup_cons. split; [ | apply NoDup_singleton].
    intros [= ]%list_elem_of_singleton. }
  assert (Forall (fun r => forall e, event_edge r = Some e ->
                                     edges (st_graph seeded_state) !! e = None)
            view_and_click) as Hfresh.
  { repeat constructor; intros e _; apply lookup_empty. }
  destruct (event_partitioning sample_env view_and_click seeded_state
              (fun _ => eq_refl) Hknown Hvalid Hnd Hfresh)
    as (Hok & _ & _ & Hsize & _).
  by split.
Defined.

(** C3, as the claim states it, fails. Customer 1 and product 3 are in
    the graph, so both rows of [two_views] have valid endpoints; the load
    phase succeeds; yet it creates one relationship for the two rows,
    because a relationship is upserted by (source, kind, target). And the
    row [capital_view], whose type is none of the three, creates none. *)
Lemma event_partitioning_counterexample :
  Forall (valid_endpoints (st_graph seeded_state)) two_views
  /\ (load_phase sample_env (only_events two_views) seeded_state).1 = Ok tt
  /\ size (edges (st_graph seeded_state)) = 0%nat
  /\ size (edges (st_graph (load_phase sample_env (only_events two_views)
                              seeded_state).2)) = 1%nat
  /\ length two_views = 2%nat
  /\ valid_endpoints (st_graph seeded_state) capital_view
  /\ size (edges (st_graph (load_phase sample_env (only_events [capital_view])
                              seeded_state).2)) = 0%nat.
Proof.
  split; [repeat constructor; by eexists | ].
  split; [vm_compute; reflexivity | ].
  split; [vm_compute; reflexivity | ].
  split; [vm_compute; reflexivity | ].
  split; [reflexivity | ].
  split; [split; by eexists | ].
  vm_compute; reflexivity.
Qed.

(** * Further properties *)

(** ** The chunker *)

Lemma windows_nonempty {A : Type} (df : list A) (size : Z) (b : list A) :
  0 < size ->
  b ∈ windows df (Z.to_nat size) (Z.to_nat (ceil_div (Z.of_nat (length df)) size)) ->
  (0 < length b <= Z.to_nat size)%nat.
Proof.
  intros Hs Hb.
  pose proof (ceil_div_bounds (Z.of_nat (length df)) size Hs ltac:(lia)) as Hc.
  apply list_elem_of_lookup in Hb as [i Hi].
  apply windows_lookup in Hi as [Hi ->].
  rewrite length_take, length_drop. nia.
Qed.

(** X1. With a positive batch size the chunker never yields an empty
    batch, and no batch is longer than the batch size: the loops of [etl]
    never send a bulk statement without rows. *)
Theorem chunk_no_empty_batch {A : Type} (df : list A) (size : Z)
  (bs : list (list A)) (b : list A) :
  0 < size ->
  drain (chunk df size) = Ok bs ->
  b ∈ bs ->
  b <> [] /\ 0 < Z.of_nat (length b) <= size.
Proof.
  intros Hs Hbs Hb. rewrite chunk_drain_pos in Hbs by done.
  injection Hbs as <-. apply windows_nonempty in Hb; [ | done].
  split; [ | lia]. intros ->. simpl in Hb. lia.
Qed.

Lemma chunk_no_empty_batch_witness :
  0 < 2
  /\ drain (chunk [1; 2; 3]%nat 2) = Ok [[1; 2]; [3]]%nat
  /\ [3]%nat ∈ [[1; 2]; [3]]%nat
  /\ [3]%nat <> [] /\ 0 < Z.of_nat (length [3]%nat) <= 2.
Proof.
  assert ([3]%nat ∈ [[1; 2]; [3]]%nat) as Hin by (right; left).
  split; [lia | ]. split; [reflexivity | ]. split; [exact Hin | ].
  apply (chunk_no_empty_batch [1; 2; 3]%nat 2 [[1; 2]; [3]]%nat [3]%nat);
    [lia | reflexivity | exact Hin].
Defined.

(** X2. Edge cases of the chunker: an empty row collection yields no
    batch, whatever the non-zero batch size; a non-empty collection that
    fits in one batch is yielded whole, as that one batch. *)
Theorem chunk_small_inputs {A : Type} (df : list A) (size : Z) :
  size <> 0 ->
  drain (chunk (@nil A) size) = Ok []
  /\ (df <> [] -> Z.of_nat (length df) <= size -> drain (chunk df size) = Ok [df]).
Proof.
  intros Hnz. split.
  - unfold chunk, drain, py_range, range_len. simpl.
    destruct (Z.eqb_spec size 0) as [? | _]; [done | ].
    destruct (0 <? size); reflexivity.
  - intros Hne Hfit.
    assert (0 < Z.of_nat (length df)) as Hpos.
    { destruct df; [done | simpl; lia]. }
    rewrite chunk_drain_pos by lia.
    assert (ceil_div (Z.of_nat (length df)) size = 1) as ->.
    { unfold ceil_div. symmetry.
      apply Z.div_unique with (r := Z.of_nat (length df) - 1); lia. }
    unfold windows. simpl. rewrite drop_0, take_ge by lia. reflexivity.
Qed.

Lemma chunk_small_inputs_witness :
  100 <> 0
  /\ drain (chunk (@nil nat) 100) = Ok []
  /\ drain (chunk [1; 2; 3]%nat 100) = Ok [[1; 2; 3]%nat].
Proof.
  assert (100 <> 0) as Hnz by lia.
  destruct (chunk_small_inputs [1; 2; 3]%nat 100 Hnz) as [Hnil Hone].
  split; [exact Hnz | ]. split; [exact Hnil | ].
  apply Hone; [discriminate | simpl; lia].
Defined.

Lemma nexts_done {A : Type} (n : nat) :
  nexts n (@ChunkDone A) = replicate n StopIteration.
Proof. induction n as [ | n IH]; [done | ]. simpl. by rewrite IH. Qed.

Lemma nexts_suspended {A : Type} (df : list A) (size : Z) (pending : list Z) :
  forall n,
    nexts n (ChunkSuspended df size pending)
    = map Yielded (take n (drain_pending df size pending))
      ++ replicate (n - length pending) StopIteration.
Proof.
  induction pending as [ | start rest IH]; intros [ | n]; try done.
  - simpl. by rewrite nexts_done.
  - simpl. by rewrite IH.
Qed.

Lemma drain_pending_length {A : Type} (df : list A) (size : Z) (pending : list Z) :
  length (drain_pending df size pending) = length pending.
Proof. induction pending as [ | start rest IH]; simpl; by f_equal. Qed.

(** X3. The protocol of the generator: successive calls of [next] yield
    the batches one by one, in order, and every call after the last batch
    ends in [StopIteration]; a generator whose first [next] raises is
    finished too, and every later [next] ends in [StopIteration]. The
    sequence cannot be restarted. *)
Theorem chunk_next_protocol {A : Type} (df : list A) (size : Z) (n : nat) :
  match drain (chunk df size) with
  | Ok bs =>
      nexts n (chunk df size)
      = map Yielded (take n bs) ++ replicate (n - length bs) StopIteration
  | Raise e =>
      nexts (S n) (chunk df size) = Raised e :: replicate n StopIteration
  end.
Proof.
  unfold chunk, drain.
  destruct (py_range 0 (Z.of_nat (length df)) size) as [pending | e] eqn:E.
  - destruct n as [ | n]; [done | ].
    cbn [nexts gen_next]. rewrite E.
    destruct pending as [ | start rest]; cbn [chunk_resume drain_pending].
    + simpl. by rewrite nexts_done.
    + rewrite nexts_suspended. simpl. by rewrite !drain_pending_length.
  - simpl. rewrite E. by rewrite nexts_done.
Qed.

(** ** The schema file *)

Lemma py_split_length (sep : N) (s : text) :
  length (py_split sep s) = S (length (filter (fun c => c = sep) s)).
Proof.
  induction s as [ | c s IH]; [done | ].
  rewrite filter_cons. simpl. destruct (N.eqb_spec c sep) as [-> | Hne].
  - rewrite decide_True by done. simpl. by rewrite IH.
  - rewrite decide_False by done.
    destruct (py_split_cons sep s) as (f & fs & E). rewrite E in *. exact IH.
Qed.

(** X4. The schema loader cuts the file at every [;], wherever it stands
    (inside a quoted string or a comment too): the file has one fragment
    more than it has semicolons, and at most that many statements are
    executed. *)
Theorem schema_statement_count (file : text) :
  length (py_split semicolon file)
  = S (length (filter (fun c => c = semicolon) file))
  /\ (length (statements_of file)
      <= S (length (filter (fun c => c = semicolon) file)))%nat.
Proof.
  split; [apply py_split_length | ].
  rewrite <- py_split_length. unfold statements_of.
  rewrite length_map. apply length_filter.
Qed.

(** A semicolon inside a quoted string cuts the statement in two. *)
Example quoted_semicolon_splits :
  statements_of (text_of "RETURN 'a;b'")
  = [text_of "RETURN 'a"; text_of "b'"].
Proof. vm_compute. reflexivity. Qed.

Lemma py_split_no_sep_id (sep : N) (f : text) :
  sep ∉ f -> py_split sep f = [f].
Proof.
  induction f as [ | c f IH]; intros Hf; [done | ]. simpl.
  destruct (N.eqb_spec c sep) as [-> | Hne]; [set_solver | ].
  rewrite IH by set_solver. done.
Qed.

Lemma py_split_app_sep (sep : N) (f rest : text) :
  sep ∉ f -> py_split sep (f ++ sep :: rest) = f :: py_split sep rest.
Proof.
  induction f as [ | c f IH]; intros Hf; simpl.
  - by rewrite N.eqb_refl.
  - destruct (N.eqb_spec c sep) as [-> | Hne]; [set_solver | ].
    rewrite IH by set_solver. done.
Qed.

Lemma py_split_join_inv (sep : N) (f : text) (fs : list text) :
  Forall (fun f => sep ∉ f) (f :: fs) ->
  py_split sep (py_join sep (f :: fs)) = f :: fs.
Proof.
  revert f. induction fs as [ | g fs IH]; intros f Hall.
  - simpl. apply py_split_no_sep_id. by inversion Hall.
  - inversion Hall as [ | ? ? Hf Hrest]; subst.
    change (py_join sep (f :: g :: fs)) with (f ++ sep :: py_join sep (g :: fs)).
    rewrite py_split_app_sep by done. by rewrite IH.
Qed.

Lemma py_lstrip_id (t : text) :
  (forall c rest, t = c :: rest -> py_isspace c = false) -> py_lstrip t = t.
Proof.
  destruct t as [ | c rest]; [done | ]. intros Hhd. simpl.
  by rewrite (Hhd c rest eq_refl).
Qed.

Lemma py_strip_id (t : text) :
  (forall c rest, t = c :: rest -> py_isspace c = false) ->
  (forall c, last t = Some c -> py_isspace c = false) ->
  py_strip t = t.
Proof.
  intros Hhd Hlast. unfold py_strip, py_rstrip.
  rewrite (py_lstrip_id t Hhd), py_lstrip_id; [apply reverse_involutive | ].
  intros c rest Hrev. apply Hlast. rewrite <- (reverse_involutive t), Hrev.
  by rewrite last_reverse.
Qed.

Lemma statements_of_normal (file : text) :
  Forall (fun t => t <> [] /\ (semicolon ∉ t) /\ py_strip t = t) (statements_of file).
Proof.
  rewrite statements_of_trim_discard. apply Forall_forall. intros t Ht.
  apply list_elem_of_filter in Ht as [Hne Ht].
  apply list_elem_of_fmap in Ht as (f & -> & Hf).
  split; [done | ].
  destruct (py_strip_trimmed f) as ((l & r & Hsplit & _ & _) & Hhd & Hlast).
  split; [ | by apply py_strip_id].
  pose proof (py_split_no_sep semicolon file) as Hsep.
  rewrite Forall_forall in Hsep. specialize (Hsep f Hf).
  intros Hin. apply Hsep. rewrite Hsplit. set_solver.
Qed.

(** X5. The statements that the schema loader executes are in normal
    form: none is empty, none contains a [;], none starts or ends with
    whitespace. Writing them back separated by [;] and loading that file
    executes the same statements. *)
Theorem statements_round_trip (file : text) :
  Forall (fun t => t <> [] /\ (semicolon ∉ t) /\ py_strip t = t) (statements_of file)
  /\ statements_of (py_join semicolon (statements_of file)) = statements_of file.
Proof.
  pose proof (statements_of_normal file) as Hnormal. split; [exact Hnormal | ].
  destruct (statements_of file) as [ | t ts] eqn:E; [reflexivity | ].
  rewrite statements_of_trim_discard, py_split_join_inv.
  - clear E. induction Hnormal as [ | u us (Hne & _ & Hid) _ IH]; [done | ].
    cbn [map]. rewrite filter_cons, Hid, decide_True by done. by rewrite IH.
  - eapply Forall_impl; [exact Hnormal | ]. by intros u (_ & Hu & _).
Qed.

(** ** Extraction *)

Lemma extract_eq (w : env) (s : st) :
  extract w s
  = (match first_error (table_errors w) with
     | Some e => Raise e
     | None => Ok (tables_of w)
     end,
     add_trace
       (map EvReadSql (take (reads_attempted (table_errors w)) table_names)) s).
Proof.
  unfold extract, read_sql, table_errors, tables_of.
  rewrite !bind_eq, emit_add_trace.
  destruct (tbl_customers w) as [cu | e]; [ | done]. cbn [lift ret].
  rewrite !bind_eq, emit_add_trace, add_trace_app.
  destruct (tbl_categories w) as [ca | e]; [ | done]. cbn [lift ret].
  rewrite !bind_eq, emit_add_trace, add_trace_app.
  destruct (tbl_products w) as [pr | e]; [ | done]. cbn [lift ret].
  rewrite !bind_eq, emit_add_trace, add_trace_app.
  destruct (tbl_orders w) as [ord | e]; [ | done]. cbn [lift ret].
  rewrite !bind_eq, emit_add_trace, add_trace_app.
  destruct (tbl_order_items w) as [oi | e]; [ | done]. cbn [lift ret].
  rewrite !bind_eq, emit_add_trace, add_trace_app.
  destruct (tbl_events w) as [ev | e]; done.
Qed.

Lemma first_error_at (errs : list (option exn)) :
  forall (i : nat) (e : exn),
    errs !! i = Some (Some e) ->
    (forall j, (j < i)%nat -> errs !! j = Some None) ->
    first_error errs = Some e /\ reads_attempted errs = S i.
Proof.
  induction errs as [ | o errs IH]; intros i e Hi Hbefore; [done | ].
  destruct i as [ | i].
  - simpl in Hi. injection Hi as ->. done.
  - pose proof (Hbefore 0%nat ltac:(lia)) as H0. simpl in H0. injection H0 as ->.
    simpl in Hi. destruct (IH i e Hi) as [H1 H2].
    + intros j Hj. apply (Hbefore (S j)). lia.
    + simpl. by rewrite H1, H2.
Qed.

Lemma first_error_none (errs : list (option exn)) :
  Forall (fun o => o = None) errs ->
  first_error errs = None /\ reads_attempted errs = length errs.
Proof.
  induction 1 as [ | o errs -> _ [IH1 IH2]]; [done | ].
  simpl. by rewrite IH1, IH2.
Qed.

(** X6. The extraction reads the six tables in a fixed order. When all
    reads succeed it returns the six tables, each in its own field. When
    a read fails, the reads after it are not attempted and its exception
    is the one that propagates, also when a later table is unreadable
    too. In either case the graph is not touched. *)
Theorem extract_outcome (w : env) (s : st) :
  (Forall (fun o => o = None) (table_errors w) ->
   extract w s = (Ok (tables_of w), add_trace (map EvReadSql table_names) s))
  /\ (forall (i : nat) (e : exn),
        table_errors w !! i = Some (Some e) ->
        (forall j, (j < i)%nat -> table_errors w !! j = Some None) ->
        extract w s
        = (Raise e, add_trace (map EvReadSql (take (S i) table_names)) s)).
Proof.
  split.
  - intros Hall. rewrite extract_eq.
    destruct (first_error_none _ Hall) as [-> ->]. done.
  - intros i e Hi Hbefore. rewrite extract_eq.
    destruct (first_error_at _ i e Hi Hbefore) as [-> ->]. done.
Qed.

Lemma extract_outcome_witness :
  table_errors failing_read_env !! 2%nat
  = Some (Some (StoreError "relation products does not exist"))
  /\ extract failing_read_env initial_state
     = (Raise (StoreError "relation products does not exist"),
        add_trace [EvReadSql "customers"; EvReadSql "categories"; EvReadSql "products"]
          initial_state).
Proof.
  split; [reflexivity | ].
  apply (proj2 (extract_outcome failing_read_env initial_state) 2%nat);
    [reflexivity | ].
  intros [ | [ | j]] Hj; [reflexivity | reflexivity | lia].
Defined.

(** ** The session *)

Lemma run_cypher_file_unreadable (w : env) (e : exn) (s : st) :
  queries_file w = Raise e ->
  run_cypher_file w s = (Raise e, add_trace [EvReadText] s).
Proof.
  intros Hfile. unfold run_cypher_file.
  by rewrite !bind_eq, emit_add_trace, Hfile.
Qed.

Lemma run_cypher_file_readable (w : env) (file : text) (s : st) :
  queries_file w = Ok file ->
  run_cypher_file w s
  = for_each (statements_of file) (session_run_schema w) (add_trace [EvReadText] s).
Proof.
  intros Hfile. unfold run_cypher_file.
  by rewrite !bind_eq, emit_add_trace, Hfile.
Qed.

Lemma run_all_failure (w : env) (pre : list text) (bad : text) (post : list text)
  (e : exn) :
  forall g g_pre : graph,
    run_all w pre g = Ok g_pre ->
    run_schema w bad g_pre = Raise e ->
    run_all w (pre ++ bad :: post) g = Raise e.
Proof.
  induction pre as [ | stmt pre IH]; intros g g_pre Hpre Hbad; simpl in *.
  - injection Hpre as <-. by rewrite Hbad.
  - destruct (run_schema w stmt g) as [g' | e']; [by eapply IH | done].
Qed.

(** X7. The shape of every session: the schema file is read, then schema
    statements are executed, then tables are read, then bulk statements
    are issued, and nothing else. No table is read before every schema
    statement has succeeded: when a table is read, all the statements of
    the file have been executed and none of them has failed, and when
    one of them fails no table is read, no bulk statement is issued and
    the exception of the statement ends the session. No bulk statement
    is issued before all six tables have been read; a session that ends
    without an exception has read every table and issued the whole plan
    of the tables. *)
Theorem etl_session_shape (w : env) (s : st) :
  exists (ss : list text) (ts : list string) (qs : list load_query),
    st_trace (etl_session w s).2
    = st_trace s ++ EvReadText :: map EvRunSchema ss ++ map EvReadSql ts
        ++ map EvRun qs
    /\ (forall file, queries_file w = Ok file -> ss `prefix_of` statements_of file)
    /\ (is_ok (queries_file w) = false -> ss = [])
    /\ ts `prefix_of` table_names
    /\ qs `prefix_of` load_plan (tables_of w)
    /\ (ts <> [] ->
        exists file g,
          queries_file w = Ok file /\ ss = statements_of file
          /\ run_all w ss (st_graph s) = Ok g)
    /\ (forall file e,
          queries_file w = Ok file ->
          run_all w (statements_of file) (st_graph s) = Raise e ->
          ts = [] /\ qs = [] /\ (etl_session w s).1 = Raise e)
    /\ (qs <> [] -> ts = table_names /\ first_error (table_errors w) = None)
    /\ ((etl_session w s).1 = Ok tt ->
        ts = table_names /\ qs = load_plan (tables_of w)).
Proof.
  unfold etl_session. rewrite bind_eq.
  destruct (queries_file w) as [file | e] eqn:Hfile.
  2:{ rewrite (run_cypher_file_unreadable w e s Hfile).
      exists [], [], []. simpl.
      split; [done | ]. split; [done | ]. split; [done | ].
      split; [apply prefix_nil | ]. split; [apply prefix_nil | ]. done. }
  rewrite (run_cypher_file_readable w file s Hfile).
  destruct (for_each_schema w (statements_of file) (add_trace [EvReadText] s))
    as (pre & g_pre & Hpre & [[-> Hrun] | (bad & post & e & Hsplit & Hbad & Hrun)]);
    rewrite Hrun; cbn [add_trace st_graph] in Hpre.
  2:{ exists (pre ++ [bad]), [], []. simpl. rewrite app_nil_r.
      split; [by rewrite <- app_assoc | ].
      split.
      { intros file' [= <-]. rewrite Hsplit.
        exists post. by rewrite <- app_assoc. }
      split; [done | ].
      split; [apply prefix_nil | ]. split; [apply prefix_nil | ].
      split; [done | ].
      split; [ | done].
      intros file' e' [= <-] Hfail.
      rewrite Hsplit, (run_all_failure w pre bad post e _ _ Hpre Hbad) in Hfail.
      by injection Hfail as <-. }
  rewrite bind_eq, extract_eq.
  set (s1 := with_graph g_pre _).
  assert (st_trace s1 = st_trace s ++ EvReadText :: map EvRunSchema (statements_of file))
    as Hs1.
  { unfold s1. simpl. by rewrite <- app_assoc. }
  assert (forall file' e',
            Ok file = Ok file' ->
            run_all w (statements_of file') (st_graph s) = Raise e' -> False)
    as Hnofail.
  { intros file' e' [= <-] Hfail. by rewrite Hpre in Hfail. }
  destruct (first_error (table_errors w)) as [e | ] eqn:Herr.
  { exists (statements_of file), (take (reads_attempted (table_errors w)) table_names), [].
    cbn [snd add_trace st_trace map]. rewrite Hs1, app_nil_r.
    split; [by rewrite <- app_assoc | ].
    split; [by intros file' [= <-] | ].
    split; [done | ].
    split; [apply prefix_take | ]. split; [apply prefix_nil | ].
    split; [intros _; by exists file, g_pre | ].
    split; [intros file' e' Hf Hfail; by destruct (Hnofail file' e' Hf Hfail) | ].
    done. }
  assert (reads_attempted (table_errors w) = 6%nat) as ->.
  { clear -Herr. unfold table_errors in *.
    destruct (tbl_customers w), (tbl_categories w), (tbl_products w),
      (tbl_orders w), (tbl_order_items w), (tbl_events w); done. }
  change (take 6 table_names) with table_names.
  rewrite load_phase_plan.
  set (s2 := add_trace (map EvReadSql table_names) s1).
  destruct (for_each_run w (load_plan (tables_of w)) s2) as (done & Hpre' & Htr & Hok).
  exists (statements_of file), table_names, done.
  split.
  { rewrite Htr. unfold s2. cbn [add_trace st_trace]. rewrite Hs1.
    by rewrite <- !app_assoc. }
  split; [by intros file' [= <-] | ].
  split; [done | ].
  split; [done | ]. split; [done | ].
  split; [intros _; by exists file, g_pre | ].
  split; [intros file' e' Hf Hfail; by destruct (Hnofail file' e' Hf Hfail) | ].
  split; [done | ].
  intros H. split; [done | by apply Hok].
Qed.

(** ** The whole of [etl] *)

Lemma wait_loop_mono (store : string) (retry : Z) (probe : nat -> result unit) :
  forall (fuel fuel' n : nat) (s : st) (x : result unit * st),
    wait_loop store retry probe fuel n s = Some x ->
    (fuel <= fuel')%nat ->
    wait_loop store retry probe fuel' n s = Some x.
Proof.
  induction fuel as [ | fuel IH]; intros fuel' n s x Hrun Hle; [done | ].
  destruct fuel' as [ | fuel']; [lia | ].
  rewrite wait_loop_S in Hrun |- *.
  destruct (probe n); [done | ]. apply (IH fuel'); [done | lia].
Qed.

Lemma wait_loop_returns (store : string) (retry : Z) (probe : nat -> result unit) :
  forall (fuel n : nat) (s : st) (x : result unit * st),
    wait_loop store retry probe fuel n s = Some x ->
    (exists k, is_ok (probe k) = true)
    /\ exists tr, Forall gate_event tr /\ x = (Ok tt, add_trace tr s).
Proof.
  induction fuel as [ | fuel IH]; intros n s x Hrun; [done | ].
  rewrite wait_loop_S in Hrun. destruct (probe n) as [u | e] eqn:E.
  - injection Hrun as <-. split; [exists n; by rewrite E | ].
    exists [EvProbe store true]. split; [by repeat constructor | done].
  - destruct (IH _ _ _ Hrun) as [Hk (tr & Htr & ->)]. split; [done | ].
    exists ([EvProbe store false; EvSleep retry] ++ tr).
    split; [by repeat constructor | by rewrite add_trace_app].
Qed.

Lemma etl_eq (w : env) (fuel : nat) (s : st) (x : result unit * st) :
  etl w fuel s = Some x ->
  exists tr, Forall gate_event tr /\ x = after_gates w (add_trace tr s).
Proof.
  unfold etl, wait_for_postgres, wait_for_neo4j. intros Hrun.
  destruct (wait_loop "postgres" _ _ fuel 0 s) as [x1 | ] eqn:E1; [ | done].
  destruct (wait_loop_returns _ _ _ _ _ _ _ E1) as [_ (tr1 & Htr1 & ->)].
  destruct (wait_loop "neo4j" _ _ fuel 0 _) as [x2 | ] eqn:E2; [ | done].
  destruct (wait_loop_returns _ _ _ _ _ _ _ E2) as [_ (tr2 & Htr2 & ->)].
  injection Hrun as <-. exists (tr1 ++ tr2).
  split; [by apply Forall_app | by rewrite add_trace_app].
Qed.

(** X8. [etl] returns exactly when each store accepts a connectivity
    check at some point; until then it is blocked in a gate. Once it
    returns, waiting longer changes nothing of its outcome. *)
Theorem etl_returns_iff (w : env) (s : st) :
  ((exists fuel x, etl w fuel s = Some x)
   <-> (exists n, is_ok (pg_probe w n) = true)
       /\ (exists m, is_ok (neo4j_probe w m) = true))
  /\ (forall fuel fuel' x,
        etl w fuel s = Some x -> (fuel <= fuel')%nat -> etl w fuel' s = Some x).
Proof.
  split; [split | ].
  - intros (fuel & x & Hrun). unfold etl, wait_for_postgres, wait_for_neo4j in Hrun.
    destruct (wait_loop "postgres" _ _ fuel 0 s) as [x1 | ] eqn:E1; [ | done].
    destruct (wait_loop_returns _ _ _ _ _ _ _ E1) as [Hpg (tr1 & _ & ->)].
    destruct (wait_loop "neo4j" _ _ fuel 0 _) as [x2 | ] eqn:E2; [ | done].
    by destruct (wait_loop_returns _ _ _ _ _ _ _ E2) as [Hneo _].
  - intros [[n Hn] [m Hm]].
    destruct (wait_loop_spec "postgres" PG_RETRY_SECONDS (pg_probe w))
      as (_ & Hpg & _).
    destruct (wait_loop_spec "neo4j" NEO4J_RETRY_SECONDS (neo4j_probe w))
      as (_ & Hneo & _).
    destruct (Hpg n Hn) as (k1 & _ & _ & _ & _ & Hrun1).
    destruct (Hneo m Hm) as (k2 & _ & _ & _ & _ & Hrun2).
    exists (S (k1 `max` k2)). eexists.
    unfold etl, wait_for_postgres, wait_for_neo4j.
    rewrite Hrun1 by lia. rewrite Hrun2 by lia. reflexivity.
  - intros fuel fuel' x Hrun Hle.
    unfold etl, wait_for_postgres, wait_for_neo4j in *.
    destruct (wait_loop "postgres" _ _ fuel 0 s) as [x1 | ] eqn:E1; [ | done].
    rewrite (wait_loop_mono _ _ _ _ _ _ _ _ E1 Hle).
    destruct x1 as [[[] | e] s1]; [ | done].
    destruct (wait_loop "neo4j" _ _ fuel 0 s1) as [x2 | ] eqn:E2; [ | done].
    by rewrite (wait_loop_mono _ _ _ _ _ _ _ _ E2 Hle).
Qed.

(** X9. When the relational store passes the gate and then refuses the
    connection of [etl] itself, the exception propagates; beyond the
    checks and sleeps of the gates, the run has done nothing but that
    connection attempt: no driver, no session, no statement, and the
    graph and the connection state are as they were. *)
Theorem etl_connect_failure (w : env) (e : exn) (fuel : nat) (s : st)
  (r : result unit) (s' : st) :
  pg_connect w = Raise e ->
  etl w fuel s = Some (r, s') ->
  r = Raise e
  /\ st_graph s' = st_graph s
  /\ pg_open s' = pg_open s
  /\ driver_open s' = driver_open s
  /\ session_open s' = session_open s
  /\ exists tr, Forall gate_event tr
                /\ st_trace s' = st_trace s ++ tr ++ [EvPgConnect].
Proof.
  intros Hconn Hrun. apply etl_eq in Hrun as (tr & Htr & Hrun).
  unfold after_gates in Hrun. rewrite !bind_eq, emit_add_trace, Hconn in Hrun.
  simpl in Hrun. injection Hrun as -> ->. simpl.
  repeat split; trivial. exists tr. split; [done | by rewrite <- app_assoc].
Qed.

Lemma etl_connect_failure_witness :
  pg_connect refusing_env = Raise (StoreError "too many connections")
  /\ (exists s', etl refusing_env 3 initial_state
                 = Some (Raise (StoreError "too many connections"), s')
                 /\ st_graph s' = empty_graph).
Proof.
  split; [reflexivity | ].
  destruct (etl refusing_env 3 initial_state) as [[r s'] | ] eqn:E;
    [ | vm_compute in E; discriminate E].
  destruct (etl_connect_failure refusing_env _ 3 initial_state r s' eq_refl E)
    as (-> & Hg & _).
  exists s'. split; [reflexivity | exact Hg].
Defined.

(** X10. Whenever [etl] returns after its own connection to the
    relational store succeeded, with or without an exception, the
    session, the relational connection and the graph driver are closed,
    and closing them is the last thing the run does. *)
Theorem etl_releases (w : env) (fuel : nat) (s : st) (r : result unit) (s' : st) :
  is_ok (pg_connect w) = true ->
  etl w fuel s = Some (r, s') ->
  pg_open s' = false
  /\ driver_open s' = false
  /\ session_open s' = false
  /\ exists tr, st_trace s'
                = st_trace s ++ tr ++ [EvSessionClose; EvPgClose; EvDriverClose].
Proof.
  intros Hconn Hrun. apply etl_eq in Hrun as (tr & Htr & Hrun).
  unfold after_gates in Hrun. destruct (pg_connect w) as [[] | ]; [ | done].
  cbv [mbind M_bind bind emit lift ret set_pg set_driver] in Hrun.
  cbn [st_graph st_trace pg_open driver_open session_open] in Hrun.
  rewrite etl_try_eq in Hrun.
  match type of Hrun with
  | context [etl_session w ?s0] =>
      destruct (etl_session_trace w s0) as (tr' & Htr' & _);
      destruct (etl_session w s0) as [r1 s1]
  end.
  injection Hrun as -> ->. cbn [pg_open driver_open session_open st_trace].
  repeat split; trivial. simpl in Htr'. rewrite Htr'.
  exists (tr ++ [EvPgConnect; EvDriverCreate; EvSessionOpen] ++ tr').
  by rewrite <- !app_assoc.
Qed.

Lemma etl_releases_witness :
  is_ok (pg_connect failing_load_env) = true
  /\ (exists r s', etl failing_load_env 3 initial_state = Some (r, s')
                   /\ pg_open s' = false /\ driver_open s' = false).
Proof.
  split; [reflexivity | ].
  destruct (etl failing_load_env 3 initial_state) as [[r s'] | ] eqn:E;
    [ | vm_compute in E; discriminate E].
  destruct (etl_releases failing_load_env 3 initial_state r s' eq_refl E)
    as (Hpg & Hdrv & _).
  exists r, s'. split; [reflexivity | ]. split; [exact Hpg | exact Hdrv].
Defined.

(** ** Composition of bulk statements *)

(** X11. A bulk statement is idempotent: executing it a second time on
    the graph it has produced changes nothing, so a batch that is sent
    again does no harm. *)
Theorem bulk_statement_idempotent (q : load_query) (g : graph) :
  apply_query q (apply_query q g) = apply_query q g.
Proof. rewrite !apply_query_ops. apply run_ops_idem, query_ops_staged. Qed.

Lemma plan_ops_unbatched (t : snapshot) :
  flat_map query_ops (load_plan t) = flat_map query_ops (unbatched_plan t).
Proof.
  unfold load_plan, unbatched_plan. rewrite !flat_map_app.
  rewrite (flat_map_query_ops_map LoadCategories category_ops) by done.
  rewrite (flat_map_query_ops_map LoadProducts product_ops) by done.
  rewrite (flat_map_query_ops_map LoadCustomers customer_ops) by done.
  rewrite (flat_map_query_ops_map LoadOrders order_ops) by done.
  rewrite (flat_map_query_ops_map LoadOrderItems order_item_ops) by done.
  rewrite (flat_map_query_ops_map LoadViews (event_ops VIEW)) by done.
  rewrite (flat_map_query_ops_map LoadClicks (event_ops CLICK)) by done.
  rewrite (flat_map_query_ops_map LoadAddToCarts (event_ops ADD_TO_CART)) by done.
  rewrite !batches_concat. simpl. by rewrite app_nil_r.
Qed.

(** X12. Cutting the tables into batches of 100 rows does not change what
    is loaded: a load phase that ends without an exception leaves the
    graph that one bulk statement per table, holding all the rows of the
    table, would leave. *)
Theorem batching_irrelevant (w : env) (t : snapshot) (s : st) :
  (load_phase w t s).1 = Ok tt ->
  st_graph (load_phase w t s).2
  = foldl (fun g q => apply_query q g) (st_graph s) (unbatched_plan t).
Proof.
  intros Hok. rewrite (load_phase_graph w t s Hok), run_plan_ops.
  by rewrite plan_ops_unbatched.
Qed.

Lemma batching_irrelevant_witness :
  (load_phase sample_env sample_snapshot initial_state).1 = Ok tt
  /\ st_graph (load_phase sample_env sample_snapshot initial_state).2
     = foldl (fun g q => apply_query q g) empty_graph (unbatched_plan sample_snapshot).
Proof.
  assert ((load_phase sample_env sample_snapshot initial_state).1 = Ok tt) as Hok
    by (vm_compute; reflexivity).
  split; [exact Hok | ].
  exact (batching_irrelevant sample_env sample_snapshot initial_state Hok).
Defined.

(** ** Restart after a failure *)

Lemma assigned_app (f : string) (a b : list (string * value)) :
  assigned f (a ++ b)
  = match assigned f b with Some v => Some v | None => assigned f a end.
Proof.
  induction a as [ | fv a IH]; simpl.
  - by destruct (assigned f b).
  - rewrite IH. by destruct (assigned f b).
Qed.

Lemma set_props_resume (a b : list (string * value)) (p : props) :
  set_props (a ++ b) (set_props a p) = set_props (a ++ b) p.
Proof.
  apply map_eq. intros f. rewrite !set_props_lookup, assigned_app.
  destruct (assigned f b); [done | ]. by destruct (assigned f a).
Qed.

Section resume.
Context {K : Type} `{Countable K} (init : K -> props).

Lemma assigns_for_app (k : K) (us1 us2 : list (K * list (string * value))) :
  assigns_for k (us1 ++ us2) = assigns_for k us1 ++ assigns_for k us2.
Proof. unfold assigns_for. by rewrite filter_app, map_app, concat_app. Qed.

Lemma run_upserts_resume (us1 us2 : list (K * list (string * value)))
  (m : gmap K props) :
  run_upserts init (us1 ++ us2) (run_upserts init us1 m)
  = run_upserts init (us1 ++ us2) m.
Proof.
  apply map_eq. intros k. rewrite !run_upserts_lookup, fmap_app.
  destruct (decide (k ∈ us1.*1 ++ us2.*1)) as [Hin | Hnot].
  - f_equal. destruct (decide (k ∈ us1.*1)) as [H1 | H1].
    + simpl. rewrite assigns_for_app. apply set_props_resume.
    + done.
  - rewrite decide_False; [done | ]. set_solver.
Qed.
End resume.

Lemma staged_app (a b : list op) :
  staged (a ++ b) ->
  staged a
  /\ Forall (fun o => forall x, x ∈ op_tests o -> x ∉ (node_upds b).*1) a.
Proof.
  induction a as [ | o a IH]; simpl; [done | ].
  intros [Ho Hst]. destruct (IH Hst) as [IH1 IH2].
  split; [split; [ | done] | constructor; [ | done]].
  - intros x Hx Hin. apply (Ho x Hx). rewrite node_upds_app, fmap_app. set_solver.
  - intros x Hx Hin. apply (Ho x Hx). rewrite node_upds_app, fmap_app. set_solver.
Qed.

Lemma run_ops_resume (pre rest : list op) (g : graph) :
  staged (pre ++ rest) ->
  run_ops (pre ++ rest) (run_ops pre g) = run_ops (pre ++ rest) g.
Proof.
  intros Hst. destruct (staged_app _ _ Hst) as [Hpre Hcross].
  apply graph_eq.
  - rewrite !run_ops_nodes, node_upds_app. apply run_upserts_resume.
  - rewrite !(run_ops_edges (pre ++ rest) _ Hst), (run_ops_edges pre _ Hpre).
    rewrite run_ops_nodes, run_upserts_dom.
    set (S := dom (nodes g) ∪ list_to_set (node_upds (pre ++ rest)).*1).
    replace (dom (nodes g) ∪ list_to_set (node_upds pre).*1
             ∪ list_to_set (node_upds (pre ++ rest)).*1) with S.
    2:{ unfold S. rewrite node_upds_app, fmap_app. set_solver. }
    rewrite (edge_upds_agree (dom (nodes g) ∪ list_to_set (node_upds pre).*1) S pre).
    + rewrite edge_upds_app. apply run_upserts_resume.
    + eapply Forall_impl; [exact Hcross | ]. intros o Ho x Hx.
      specialize (Ho x Hx). unfold S. rewrite node_upds_app, fmap_app. set_solver.
Qed.

Lemma for_each_run_graph (w : env) (qs : list load_query) :
  forall s : st,
  exists n,
    st_graph (for_each qs (session_run w) s).2
    = foldl (fun g q => apply_query q g) (st_graph s) (take n qs).
Proof.
  induction qs as [ | q qs IH]; intros s.
  - by exists 0%nat.
  - rewrite for_each_cons, session_run_eq.
    destruct (run_fault w (st_trace s)) as [e | ].
    + by exists 0%nat.
    + destruct (IH (with_graph (apply_query q (st_graph s)) (add_trace [EvRun q] s)))
        as [n Hn].
      exists (S n). by rewrite Hn.
Qed.

(** The graph of any load phase, failed or not: the effect of the bulk
    statements that succeeded, which are the first ones of the plan. *)
Lemma load_phase_partial (w : env) (t : snapshot) (s : st) :
  exists n,
    st_graph (load_phase w t s).2
    = run_ops (flat_map query_ops (take n (load_plan t))) (st_graph s).
Proof.
  rewrite load_phase_plan.
  destruct (for_each_run_graph w (load_plan t) s) as [n Hn].
  exists n. by rewrite Hn, run_plan_ops.
Qed.

(** X13. Restart after a failure: when a load phase stops on an
    exception, the statements before the failing one stay loaded, and a
    second load phase of the same snapshot that meets no exception leaves
    the graph that a single uninterrupted load phase would have left. *)
Theorem load_resume (w w' : env) (t : snapshot) (s : st) :
  (forall tr, run_fault w' tr = None) ->
  st_graph (load_phase w' t (load_phase w t s).2).2
  = st_graph (load_phase w' t s).2.
Proof.
  intros Hquiet.
  rewrite !(load_phase_graph w' t _ (load_phase_ok w' t _ Hquiet)).
  destruct (load_phase_partial w t s) as [n ->].
  rewrite <- (take_drop n (load_plan t)) at 1 3. rewrite flat_map_app.
  apply run_ops_resume. rewrite <- flat_map_app, take_drop.
  apply plan_ops_staged, load_plan_sorted.
Qed.

Lemma load_resume_witness :
  (load_phase failing_load_env sample_snapshot initial_state).1
  = Raise (StoreError "connection lost")
  /\ st_graph (load_phase sample_env sample_snapshot
                 (load_phase failing_load_env sample_snapshot initial_state).2).2
     = st_graph (load_phase sample_env sample_snapshot initial_state).2.
Proof.
  split; [vm_compute; reflexivity | ].
  apply (load_resume failing_load_env sample_env sample_snapshot initial_state).
  intros tr. reflexivity.
Defined.

(** ** What the load phase keeps *)

Lemma assigned_absent (f : string) (a : list (string * value)) :
  f ∉ a.*1 -> assigned f a = None.
Proof.
  induction a as [ | fv a IH]; intros Hf; [done | ]. simpl.
  rewrite IH by set_solver. rewrite decide_False; [done | ]. set_solver.
Qed.

Lemma elem_of_concat {A : Type} (x : A) (ls : list (list A)) :
  x ∈ concat ls -> exists l, x ∈ l /\ l ∈ ls.
Proof.
  rewrite list_elem_of_In, in_concat. intros (l & Hl & Hx).
  exists l. by rewrite !list_elem_of_In.
Qed.

Lemma query_ops_fields_ok (q : load_query) : Forall fields_ok (query_ops q).
Proof.
  destruct q; simpl; apply Forall_flat_map_ops; intros row;
    repeat constructor; simpl; set_solver.
Qed.

Lemma node_upds_fields (ops : list op) (k : node_key) (f : string) :
  Forall fields_ok ops -> f ∉ node_fields ->
  assigned f (assigns_for k (node_upds ops)) = None.
Proof.
  intros Hok Hf. apply assigned_absent. intros Hin. apply Hf.
  apply list_elem_of_fmap in Hin as ([f' v] & -> & Hin).
  unfold assigns_for in Hin. apply elem_of_concat in Hin as (a & Hfv & Ha).
  apply list_elem_of_fmap in Ha as ([k' a'] & -> & Ha).
  apply list_elem_of_filter in Ha as [_ Ha].
  apply list_elem_of_omap in Ha as (o & Ho & Heq).
  destruct o as [k'' a'' | ]; [ | done]. injection Heq as -> ->.
  rewrite Forall_forall in Hok. specialize (Hok _ Ho). simpl in Hok.
  rewrite Forall_forall in Hok. by apply (Hok (f', v)).
Qed.

Lemma edge_upds_fields (S : gset node_key) (ops : list op) (e : edge_key)
  (f : string) :
  Forall fields_ok ops -> f ∉ edge_fields ->
  assigned f (assigns_for e (edge_upds S ops)) = None.
Proof.
  intros Hok Hf. apply assigned_absent. intros Hin. apply Hf.
  apply list_elem_of_fmap in Hin as ([f' v] & -> & Hin).
  unfold assigns_for in Hin. apply elem_of_concat in Hin as (a & Hfv & Ha).
  apply list_elem_of_fmap in Ha as ([k' a'] & -> & Ha).
  apply list_elem_of_filter in Ha as [_ Ha].
  apply list_elem_of_omap in Ha as (o & Ho & Heq).
  destruct o as [ | tests e' a'']; [done | ].
  destruct (forallb _ tests); [ | done]. injection Heq as -> ->.
  rewrite Forall_forall in Hok. specialize (Hok _ Ho). simpl in Hok.
  rewrite Forall_forall in Hok. by apply (Hok (f', v)).
Qed.

Lemma run_upserts_keeps {K : Type} `{Countable K} (init : K -> props)
  (us : list (K * list (string * value))) (m : gmap K props) (k : K) (p : props)
  (fields : list string) :
  (forall f, f ∉ fields -> assigned f (assigns_for k us) = None) ->
  m !! k = Some p ->
  exists p', run_upserts init us m !! k = Some p'
             /\ forall f, f ∉ fields -> p' !! f = p !! f.
Proof.
  intros Hfields Hk. rewrite run_upserts_lookup, Hk. case_decide.
  - eexists. split; [done | ]. intros f Hf.
    by rewrite set_props_lookup, (Hfields f Hf).
  - by exists p.
Qed.

Lemma plan_prefix_staged (t : snapshot) (n : nat) :
  staged (flat_map query_ops (take n (load_plan t))).
Proof.
  apply plan_ops_staged. eapply sorted_prefix; [apply prefix_take | ].
  apply load_plan_sorted.
Qed.

(** X14. The load phase never deletes. Whatever happens in it, a node or
    a relationship that was in the graph before is still there after,
    and of its properties only those that the bulk statements assign
    ([name], [price], [join_date], [ts] on nodes, [quantity], [ts] on
    relationships) can have changed. *)
Theorem load_never_deletes (w : env) (t : snapshot) (s : st) :
  (forall k p, nodes (st_graph s) !! k = Some p ->
     exists p', nodes (st_graph (load_phase w t s).2) !! k = Some p'
                /\ forall f, f ∉ node_fields -> p' !! f = p !! f)
  /\ (forall e p, edges (st_graph s) !! e = Some p ->
        exists p', edges (st_graph (load_phase w t s).2) !! e = Some p'
                   /\ forall f, f ∉ edge_fields -> p' !! f = p !! f).
Proof.
  destruct (load_phase_partial w t s) as [n ->].
  assert (Forall fields_ok (flat_map query_ops (take n (load_plan t)))) as Hok.
  { apply Forall_flat_map_ops, query_ops_fields_ok. }
  split.
  - intros k p Hk. rewrite run_ops_nodes.
    apply run_upserts_keeps; [ | done]. intros f Hf. by apply node_upds_fields.
  - intros e p He. rewrite (run_ops_edges _ _ (plan_prefix_staged t n)).
    apply run_upserts_keeps; [ | done]. intros f Hf. by apply edge_upds_fields.
Qed.

(** X15. The load phase keeps the key of every node in its [id] property:
    when every node of the graph carries its id, as the nodes that the
    load phase creates do, every node carries its id afterwards, whatever
    happens in the load phase. *)
Theorem node_id_kept (w : env) (t : snapshot) (s : st) :
  (forall k p, nodes (st_graph s) !! k = Some p -> p !! "id" = Some (VInt k.2)) ->
  forall k p, nodes (st_graph (load_phase w t s).2) !! k = Some p ->
              p !! "id" = Some (VInt k.2).
Proof.
  intros Hid k p. destruct (load_phase_partial w t s) as [n ->].
  rewrite run_ops_nodes, run_upserts_lookup. case_decide as Hin.
  - intros [= <-]. rewrite set_props_lookup, node_upds_fields.
    + destruct (nodes (st_graph s) !! k) as [p0 | ] eqn:E; simpl; [by apply Hid | ].
      unfold node_init. by rewrite lookup_singleton_eq.
    + apply Forall_flat_map_ops, query_ops_fields_ok.
    + unfold node_fields. set_solver.
  - apply Hid.
Qed.

Lemma node_id_kept_witness :
  (forall k p, nodes (st_graph initial_state) !! k = Some p ->
               p !! "id" = Some (VInt k.2))
  /\ forall k p,
       nodes (st_graph (load_phase sample_env sample_snapshot initial_state).2) !! k
       = Some p ->
       p !! "id" = Some (VInt k.2).
Proof.
  assert (forall k p, nodes (st_graph initial_state) !! k = Some p ->
                      p !! "id" = Some (VInt k.2)) as Hinit.
  { intros k p Hk. simpl in Hk. by rewrite lookup_empty in Hk. }
  split; [exact Hinit | ].
  exact (node_id_kept sample_env sample_snapshot initial_state Hinit).
Defined.

(** ** The nodes of a loaded graph *)

Lemma flat_map_merged_nodes (qs : list load_query) :
  (node_upds (flat_map query_ops qs)).*1 = flat_map merged_nodes qs.
Proof.
  induction qs as [ | q qs IH]; [done | ].
  simpl. by rewrite node_upds_app, fmap_app, IH, merged_nodes_written.
Qed.

(** X16. The nodes of the graph after a load phase that ends without an
    exception are the nodes it had before and one node per distinct id of
    the category, product, customer and order tables; order items and
    events create no node. *)
Theorem load_node_set (w : env) (t : snapshot) (s : st) :
  (load_phase w t s).1 = Ok tt ->
  dom (nodes (st_graph (load_phase w t s).2))
  = dom (nodes (st_graph s)) ∪ list_to_set (snapshot_nodes t).
Proof.
  intros Hok. rewrite (load_phase_graph w t s Hok), plan_ops_unbatched.
  rewrite run_ops_nodes, run_upserts_dom, flat_map_merged_nodes.
  unfold unbatched_plan, snapshot_nodes. simpl. by rewrite !app_nil_r.
Qed.

Lemma load_node_set_witness :
  (load_phase sample_env sample_snapshot initial_state).1 = Ok tt
  /\ dom (nodes (st_graph (load_phase sample_env sample_snapshot initial_state).2))
     = dom (nodes (st_graph initial_state))
       ∪ list_to_set (snapshot_nodes sample_snapshot).
Proof.
  assert ((load_phase sample_env sample_snapshot initial_state).1 = Ok tt) as Hok
    by (vm_compute; reflexivity).
  split; [exact Hok | ].
  exact (load_node_set sample_env sample_snapshot initial_state Hok).
Defined.

(** ** The relationships of a loaded graph *)

Lemma edge_upds_flat_map {A : Type} (S : gset node_key) (f : A -> list op)
  (h : A -> option edge_key) (rows : list A) :
  (forall r, (edge_upds S (f r)).*1 = option_list (h r)) ->
  (edge_upds S (flat_map f rows)).*1 = omap h rows.
Proof.
  intros Hf. induction rows as [ | r rows IH]; [done | ].
  cbn [flat_map omap list_omap]. rewrite edge_upds_app, fmap_app, Hf, IH.
  by destruct (h r).
Qed.

Lemma product_ops_edge (S : gset node_key) (r : product_row) :
  (edge_upds S (product_ops r)).*1
  = option_list
      (if bool_decide ((Category, pr_category_id r) ∈ S)
       then Some ((Product, pr_id r), IN_CATEGORY, (Category, pr_category_id r))
       else None).
Proof.
  unfold product_ops. rewrite edge_upds_node, edge_upds_edge. cbn [forallb].
  rewrite andb_true_r. by destruct (bool_decide _).
Qed.

Lemma order_ops_edge (S : gset node_key) (r : order_row) :
  (edge_upds S (order_ops r)).*1
  = option_list
      (if bool_decide ((Customer, or_customer_id r) ∈ S)
       then Some ((Customer, or_customer_id r), PLACED, (Order, or_id r))
       else None).
Proof.
  unfold order_ops. rewrite edge_upds_node, edge_upds_edge. cbn [forallb].
  rewrite andb_true_r. by destruct (bool_decide _).
Qed.

Lemma order_item_ops_edge (S : gset node_key) (r : order_item_row) :
  (edge_upds S (order_item_ops r)).*1
  = option_list
      (if bool_decide ((Order, oi_order_id r) ∈ S)
          && bool_decide ((Product, oi_product_id r) ∈ S)
       then Some ((Order, oi_order_id r), CONTAINS, (Product, oi_product_id r))
       else None).
Proof.
  unfold order_item_ops. rewrite edge_upds_edge. cbn [forallb].
  rewrite andb_true_r. by destruct (_ && _).
Qed.

Lemma event_ops_edge (S : gset node_key) (kind : rel_kind) (r : event_row) :
  (edge_upds S (event_ops kind r)).*1
  = option_list
      (if bool_decide ((Customer, ev_customer_id r) ∈ S)
          && bool_decide ((Product, ev_product_id r) ∈ S)
       then Some (event_key kind r)
       else None).
Proof.
  unfold event_ops. rewrite edge_upds_edge. cbn [forallb].
  rewrite andb_true_r. by destruct (_ && _).
Qed.

Lemma no_edge_ops {A : Type} (S : gset node_key) (f : A -> list op) (rows : list A) :
  (forall r, edge_upds S (f r) = []) -> edge_upds S (flat_map f rows) = [].
Proof.
  intros Hf. apply edge_upds_flat_map_nil, Forall_forall. by intros r _.
Qed.

(** The relationships of the events of one type, among those of all the
    events. *)
Lemma event_pass_edges (S : gset node_key) (kind : rel_kind) (ty : string)
  (evs : list event_row) (e : edge_key) :
  event_kind ty = Some kind ->
  e ∈ (edge_upds S (flat_map (event_ops kind)
                      (filter (fun r => ev_event_type r = ty) evs))).*1
  <-> exists r, r ∈ evs /\ ev_event_type r = ty
                /\ (Customer, ev_customer_id r) ∈ S
                /\ (Product, ev_product_id r) ∈ S
                /\ event_edge r = Some e.
Proof.
  intros Hkind.
  rewrite (edge_upds_flat_map S (event_ops kind) _ _ (event_ops_edge S kind)).
  rewrite list_elem_of_omap. split.
  - intros (r & Hr & He). apply list_elem_of_filter in Hr as [Hty Hr].
    exists r. destruct (bool_decide_reflect ((Customer, ev_customer_id r) ∈ S));
      [ | done].
    destruct (bool_decide_reflect ((Product, ev_product_id r) ∈ S)); [ | done].
    simpl in He. injection He as <-.
    repeat split; trivial. unfold event_edge. by rewrite Hty, Hkind.
  - intros (r & Hr & Hty & Hc & Hp & He). exists r.
    split; [by apply list_elem_of_filter | ].
    rewrite !bool_decide_eq_true_2 by done. simpl.
    unfold event_edge in He. by rewrite Hty, Hkind in He.
Qed.

Lemma event_edge_type (r : event_row) (e : edge_key) :
  event_edge r = Some e -> known_event_type (ev_event_type r).
Proof.
  unfold event_edge, event_kind, known_event_type.
  repeat case_decide; intros; try done; auto.
Qed.

(** X17. The relationships of the graph after a load phase that ends
    without an exception are the relationships it had before and, for
    every product, order, order-item and event row whose looked-up
    endpoints are nodes of the loaded graph, the relationship of that
    row; rows with the same endpoints and kind share one relationship. *)
Theorem load_edge_set (w : env) (t : snapshot) (s : st) :
  (load_phase w t s).1 = Ok tt ->
  dom (edges (st_graph (load_phase w t s).2))
  = dom (edges (st_graph s))
    ∪ list_to_set
        (snapshot_edges (dom (nodes (st_graph (load_phase w t s).2))) t).
Proof.
  intros Hok. rewrite (load_phase_graph w t s Hok).
  assert (staged (flat_map query_ops (load_plan t))) as Hst
    by apply plan_ops_staged, load_plan_sorted.
  rewrite (run_ops_edges _ _ Hst), run_upserts_dom.
  rewrite run_ops_nodes, run_upserts_dom.
  set (S := dom (nodes (st_graph s)) ∪ _).
  f_equal. rewrite plan_ops_unbatched. unfold unbatched_plan, snapshot_edges.
  cbn [flat_map query_ops]. rewrite app_nil_r, !edge_upds_app, !fmap_app.
  rewrite (no_edge_ops S category_ops) by done.
  rewrite (no_edge_ops S customer_ops) by done.
  rewrite (edge_upds_flat_map S product_ops _ _ (product_ops_edge S)).
  rewrite (edge_upds_flat_map S order_ops _ _ (order_ops_edge S)).
  rewrite (edge_upds_flat_map S order_item_ops _ _ (order_item_ops_edge S)).
  cbn [fmap list_fmap app]. rewrite !list_to_set_app_L. do 3 f_equal.
  apply set_eq. intros e.
  rewrite !elem_of_union, !elem_of_list_to_set.
  rewrite (event_pass_edges S VIEW "view"), (event_pass_edges S CLICK "click"),
    (event_pass_edges S ADD_TO_CART "add_to_cart") by done.
  rewrite list_elem_of_omap. split.
  - intros [(r & Hr & _ & Hc & Hp & He) | [(r & Hr & _ & Hc & Hp & He)
                                           | (r & Hr & _ & Hc & Hp & He)]];
      exists r; by rewrite !bool_decide_eq_true_2.
  - intros (r & Hr & He).
    destruct (bool_decide_reflect ((Customer, ev_customer_id r) ∈ S)); [ | done].
    destruct (bool_decide_reflect ((Product, ev_product_id r) ∈ S)); [ | done].
    simpl in He. destruct (event_edge_type r e He) as [Hty | [Hty | Hty]].
    + left. by exists r.
    + right. left. by exists r.
    + right. right. by exists r.
Qed.

Lemma load_edge_set_witness :
  (load_phase sample_env sample_snapshot initial_state).1 = Ok tt
  /\ dom (edges (st_graph (load_phase sample_env sample_snapshot initial_state).2))
     = dom (edges (st_graph initial_state))
       ∪ list_to_set
           (snapshot_edges
              (dom (nodes (st_graph (load_phase sample_env sample_snapshot
                                       initial_state).2)))
              sample_snapshot).
Proof.
  assert ((load_phase sample_env sample_snapshot initial_state).1 = Ok tt) as Hok
    by (vm_compute; reflexivity).
  split; [exact Hok | ].
  exact (load_edge_set sample_env sample_snapshot initial_state Hok).
Defined.

(** ** Well-formed graphs *)

Lemma merge_node_dom (k : node_key) (g : graph) :
  dom (nodes (merge_node k g)) = {[ k ]} ∪ dom (nodes g).
Proof. rewrite merge_node_eq. simpl. apply dom_insert_L. Qed.

Lemma well_formed_merge_node (k : node_key) (g : graph) :
  well_formed g -> well_formed (merge_node k g).
Proof.
  intros Hwf e He. rewrite merge_node_dom.
  assert (edges (merge_node k g) = edges g) as Hedges
    by by rewrite merge_node_eq.
  rewrite Hedges in He. destruct (Hwf e He) as (H1 & H2 & H3).
  repeat split; [set_solver | set_solver | done].
Qed.

Lemma well_formed_set_node (k : node_key) (f : string) (v : value) (g : graph) :
  well_formed g -> well_formed (set_node k f v g).
Proof.
  intros Hwf e He. unfold set_node in *. simpl in *. rewrite dom_alter_L.
  by apply Hwf.
Qed.

Lemma set_node_dom (k : node_key) (f : string) (v : value) (g : graph) :
  dom (nodes (set_node k f v g)) = dom (nodes g).
Proof. unfold set_node. simpl. apply dom_alter_L. Qed.

Lemma well_formed_merge_rel (e : edge_key) (g : graph) :
  well_formed g ->
  e.1.1 ∈ dom (nodes g) -> e.2 ∈ dom (nodes g) ->
  (e.1.1.1, e.2.1) = edge_signature e.1.2 ->
  well_formed (merge_rel e g).
Proof.
  intros Hwf Hsrc Htgt Hsig e' He'. rewrite merge_rel_eq in *. simpl in *.
  rewrite dom_insert_L in He'. apply elem_of_union in He' as [He' | He'].
  - apply elem_of_singleton in He' as ->. done.
  - by apply Hwf.
Qed.

Lemma well_formed_set_rel (e : edge_key) (f : string) (v : value) (g : graph) :
  well_formed g -> well_formed (set_rel e f v g).
Proof.
  intros Hwf e' He'. unfold set_rel in *. simpl in *.
  rewrite dom_alter_L in He'. by apply Hwf.
Qed.

Lemma match_node_elem (k : node_key) (g : graph) :
  match_node k g = true -> k ∈ dom (nodes g).
Proof. rewrite match_node_dom. apply bool_decide_eq_true_1. Qed.

Lemma well_formed_apply_query (q : load_query) (g : graph) :
  well_formed g -> well_formed (apply_query q g).
Proof.
  assert (forall (A : Type) (f : A -> graph -> graph) (rows : list A),
            (forall r g, well_formed g -> well_formed (f r g)) ->
            forall g, well_formed g ->
                      well_formed (foldl (fun g r => f r g) g rows)) as Hfold.
  { intros A f rows Hf. induction rows as [ | r rows IH]; intros g0 Hg0; [done | ].
    simpl. by apply IH, Hf. }
  revert g. destruct q as [rows | rows | rows | rows | rows | rows | rows | rows];
    simpl; apply Hfold; clear; intros r g Hwf.
  - unfold category_row_query.
    by apply well_formed_set_node, well_formed_merge_node.
  - unfold product_row_query.
    set (g3 := set_node _ "price" _ _).
    assert (well_formed g3) as Hwf3
      by by do 2 apply well_formed_set_node; apply well_formed_merge_node.
    destruct (match_node _ g3) eqn:Hc; [ | done].
    apply well_formed_merge_rel; [done | | by apply match_node_elem | done].
    unfold g3. rewrite !set_node_dom, merge_node_dom. set_solver.
  - unfold customer_row_query.
    by do 2 apply well_formed_set_node; apply well_formed_merge_node.
  - unfold order_row_query.
    set (g2 := set_node _ "ts" _ _).
    assert (well_formed g2) as Hwf2
      by by apply well_formed_set_node, well_formed_merge_node.
    destruct (match_node _ g2) eqn:Hc; [ | done].
    apply well_formed_merge_rel; [done | by apply match_node_elem | | done].
    unfold g2. rewrite !set_node_dom, merge_node_dom. set_solver.
  - unfold order_item_row_query.
    destruct (match_node (Order, _) g) eqn:Ho; [ | done].
    destruct (match_node (Product, _) g) eqn:Hp; [ | done].
    apply well_formed_set_rel, well_formed_merge_rel;
      [done | by apply match_node_elem | by apply match_node_elem | done].
  - unfold event_row_query.
    destruct (match_node (Customer, _) g) eqn:Ho; [ | done].
    destruct (match_node (Product, _) g) eqn:Hp; [ | done].
    apply well_formed_set_rel, well_formed_merge_rel;
      [done | by apply match_node_elem | by apply match_node_elem | done].
  - unfold event_row_query.
    destruct (match_node (Customer, _) g) eqn:Ho; [ | done].
    destruct (match_node (Product, _) g) eqn:Hp; [ | done].
    apply well_formed_set_rel, well_formed_merge_rel;
      [done | by apply match_node_elem | by apply match_node_elem | done].
  - unfold event_row_query.
    destruct (match_node (Customer, _) g) eqn:Ho; [ | done].
    destruct (match_node (Product, _) g) eqn:Hp; [ | done].
    apply well_formed_set_rel, well_formed_merge_rel;
      [done | by apply match_node_elem | by apply match_node_elem | done].
Qed.

(** X18. The load phase keeps the graph well formed, whatever happens in
    it: when every relationship of the graph joins two nodes of the
    graph, of the labels of its type, this is so afterwards too. No
    statement leaves a relationship without one of its endpoints. *)
Theorem load_keeps_well_formed (w : env) (t : snapshot) (s : st) :
  well_formed (st_graph s) -> well_formed (st_graph (load_phase w t s).2).
Proof.
  intros Hwf. rewrite load_phase_plan.
  destruct (for_each_run_graph w (load_plan t) s) as [n ->].
  generalize (take n (load_plan t)). intros qs. revert Hwf.
  generalize (st_graph s). induction qs as [ | q qs IH]; intros g Hwf; [done | ].
  simpl. by apply IH, well_formed_apply_query.
Qed.

Lemma load_keeps_well_formed_witness :
  well_formed (st_graph initial_state)
  /\ well_formed
       (st_graph (load_phase failing_load_env sample_snapshot initial_state).2).
Proof.
  assert (well_formed (st_graph initial_state)) as Hwf.
  { intros e He. simpl in He. by rewrite dom_empty_L in He. }
  split; [exact Hwf | ].
  exact (load_keeps_well_formed failing_load_env sample_snapshot initial_state Hwf).
Defined.

(** ** Rows that share an id *)

Lemma assigned_concat_last {A : Type} (f : string) (asg : A -> list (string * value))
  (v : A -> value) (rows : list A) :
  (forall r, assigned f (asg r) = Some (v r)) ->
  assigned f (concat (map asg rows)) = v <$> last rows.
Proof.
  intros Hf. induction rows as [ | r rows IH] using rev_ind; [done | ].
  rewrite map_app, concat_app, assigned_app. simpl. rewrite app_nil_r, Hf.
  by rewrite last_snoc.
Qed.

Lemma node_upds_flat_map {A : Type} (f : A -> list op)
  (U : A -> node_key * list (string * value)) (rows : list A) :
  (forall r, node_upds (f r) = [U r]) ->
  node_upds (flat_map f rows) = map U rows.
Proof.
  intros Hf. induction rows as [ | r rows IH]; [done | ].
  simpl. by rewrite node_upds_app, Hf, IH.
Qed.

Lemma node_upds_flat_map_nil {A : Type} (f : A -> list op) (rows : list A) :
  (forall r, node_upds (f r) = []) -> node_upds (flat_map f rows) = [].
Proof.
  intros Hf. induction rows as [ | r rows IH]; [done | ].
  simpl. by rewrite node_upds_app, Hf, IH.
Qed.

Lemma assigns_for_rows {A : Type} (lbl : label) (id : A -> Z)
  (asg : A -> list (string * value)) (rows : list A) (i : Z) :
  assigns_for (lbl, i) (map (fun r => ((lbl, id r), asg r)) rows)
  = concat (map asg (filter (fun r => id r = i) rows)).
Proof.
  induction rows as [ | r rows IH]; [done | ].
  cbn [map]. rewrite filter_cons. destruct (decide (id r = i)) as [<- | Hne].
  - rewrite assigns_for_cons_eq, IH. done.
  - rewrite assigns_for_cons_ne, IH; [done | congruence].
Qed.

Lemma assigns_for_other_label {A : Type} (lbl lbl' : label) (id : A -> Z)
  (asg : A -> list (string * value)) (rows : list A) (i : Z) :
  lbl <> lbl' ->
  (lbl, i) ∉ (map (fun r => ((lbl', id r), asg r)) rows).*1.
Proof.
  intros Hne Hin. apply list_elem_of_fmap in Hin as ([k a] & Hk & Hin).
  apply list_elem_of_fmap in Hin as (r & [= -> _] & _). simpl in Hk. congruence.
Qed.

Lemma plan_node_upds (t : snapshot) :
  node_upds (flat_map query_ops (load_plan t))
  = map (fun r => ((Category, ca_id r), [("name", ca_name r)])) (categories t)
    ++ map (fun r => ((Product, pr_id r),
                      [("name", pr_name r); ("price", pr_price r)])) (products t)
    ++ map (fun r => ((Customer, cu_id r),
                      [("name", cu_name r); ("join_date", cu_join_date r)]))
         (customers t)
    ++ map (fun r => ((Order, or_id r), [("ts", or_ts r)])) (orders t).
Proof.
  rewrite plan_ops_unbatched. unfold unbatched_plan.
  cbn [flat_map query_ops]. rewrite !node_upds_app.
  rewrite (node_upds_flat_map category_ops _ _ (fun _ => eq_refl)).
  rewrite (node_upds_flat_map product_ops _ _ (fun _ => eq_refl)).
  rewrite (node_upds_flat_map customer_ops _ _ (fun _ => eq_refl)).
  rewrite (node_upds_flat_map order_ops _ _ (fun _ => eq_refl)).
  rewrite (node_upds_flat_map_nil order_item_ops) by done.
  rewrite !(node_upds_flat_map_nil (event_ops _)) by done.
  simpl. by rewrite !app_nil_r.
Qed.

Lemma last_filter_elem {A : Type} (P : A -> Prop) `{forall x, Decision (P x)}
  (rows : list A) (r : A) :
  last (filter P rows) = Some r -> r ∈ rows /\ P r.
Proof.
  intros Hlast. apply last_Some_elem_of in Hlast.
  apply list_elem_of_filter in Hlast as [? ?]. done.
Qed.

(** The node of the id [i] after the upserts of a table, between those of
    the tables of other labels: its properties are those of the last row
    with that id. *)
Lemma table_last_row {A : Type} (lbl : label) (id : A -> Z)
  (asg : A -> list (string * value)) (rows : list A)
  (U1 U2 : list (node_key * list (string * value)))
  (m : gmap (label * Z) props) (i : Z) (r : A) :
  last (filter (fun r => id r = i) rows) = Some r ->
  (lbl, i) ∉ U1.*1 -> (lbl, i) ∉ U2.*1 ->
  exists p,
    run_upserts node_init (U1 ++ map (fun r => ((lbl, id r), asg r)) rows ++ U2) m
      !! (lbl, i) = Some p
    /\ forall (f : string) (v : A -> value),
         (forall r', assigned f (asg r') = Some (v r')) -> p !! f = stored (v r).
Proof.
  intros Hlast H1 H2.
  destruct (last_filter_elem _ _ _ Hlast) as [Hr Hid].
  rewrite run_upserts_lookup. rewrite decide_True.
  - eexists. split; [done | ]. intros f v Hf.
    rewrite set_props_lookup, !assigns_for_app.
    rewrite (assigns_for_absent node_init (lbl, i) U1 H1),
      (assigns_for_absent node_init (lbl, i) U2 H2).
    rewrite app_nil_r, assigns_for_rows. simpl.
    by rewrite (assigned_concat_last f asg v _ Hf), Hlast.
  - rewrite !fmap_app, !elem_of_app. right. left.
    apply list_elem_of_fmap. exists ((lbl, id r), asg r).
    split; [simpl; by rewrite Hid | ]. apply list_elem_of_fmap. by exists r.
Qed.

(** X19. When several rows of a table have the same id, they are loaded
    into one node, and after a load phase that ends without an exception
    the properties of that node are those of the last such row: the name
    for a category; the name and the price for a product; the name and
    the join date for a customer; the time for an order. The scalar of
    that last row is stored as it was sent, not-a-number included; only
    a [None] leaves the node without the property. *)
Theorem last_row_wins (w : env) (t : snapshot) (s : st) :
  (load_phase w t s).1 = Ok tt ->
  let g := st_graph (load_phase w t s).2 in
  (forall i r,
     last (filter (fun r => ca_id r = i) (categories t)) = Some r ->
     exists p, nodes g !! (Category, i) = Some p
               /\ p !! "name" = stored (ca_name r))
  /\ (forall i r,
        last (filter (fun r => pr_id r = i) (products t)) = Some r ->
        exists p, nodes g !! (Product, i) = Some p
                  /\ p !! "name" = stored (pr_name r)
                  /\ p !! "price" = stored (pr_price r))
  /\ (forall i r,
        last (filter (fun r => cu_id r = i) (customers t)) = Some r ->
        exists p, nodes g !! (Customer, i) = Some p
                  /\ p !! "name" = stored (cu_name r)
                  /\ p !! "join_date" = stored (cu_join_date r))
  /\ (forall i r,
        last (filter (fun r => or_id r = i) (orders t)) = Some r ->
        exists p, nodes g !! (Order, i) = Some p
                  /\ p !! "ts" = stored (or_ts r)).
Proof.
  intros Hok g. unfold g.
  rewrite (load_phase_graph w t s Hok), run_ops_nodes, plan_node_upds.
  set (Ucat := map _ (categories t)). set (Uprod := map _ (products t)).
  set (Ucust := map _ (customers t)). set (Uord := map _ (orders t)).
  set (m := nodes (st_graph s)).
  split; [ | split; [ | split]]; intros i r Hlast.
  - destruct (table_last_row Category ca_id (fun r => [("name", ca_name r)])
                (categories t) [] (Uprod ++ Ucust ++ Uord) m i r Hlast)
      as (p & Hp & Hf).
    + apply not_elem_of_nil.
    + rewrite !fmap_app, !elem_of_app.
      intros [H | [H | H]]; by eapply assigns_for_other_label in H.
    + exists p. split; [exact Hp | ]. by apply (Hf "name" ca_name).
  - destruct (table_last_row Product pr_id
                (fun r => [("name", pr_name r); ("price", pr_price r)])
                (products t) Ucat (Ucust ++ Uord) m i r Hlast)
      as (p & Hp & Hf).
    + intros H; by eapply assigns_for_other_label in H.
    + rewrite !fmap_app, !elem_of_app.
      intros [H | H]; by eapply assigns_for_other_label in H.
    + exists p. split; [exact Hp | ].
      split; [by apply (Hf "name" pr_name) | by apply (Hf "price" pr_price)].
  - destruct (table_last_row Customer cu_id
                (fun r => [("name", cu_name r); ("join_date", cu_join_date r)])
                (customers t) (Ucat ++ Uprod) Uord m i r Hlast)
      as (p & Hp & Hf).
    + rewrite !fmap_app, !elem_of_app.
      intros [H | H]; by eapply assigns_for_other_label in H.
    + intros H; by eapply assigns_for_other_label in H.
    + exists p. split; [by rewrite <- app_assoc in Hp | ].
      split; [by apply (Hf "name" cu_name)
             | by apply (Hf "join_date" cu_join_date)].
  - destruct (table_last_row Order or_id (fun r => [("ts", or_ts r)])
                (orders t) (Ucat ++ Uprod ++ Ucust) [] m i r Hlast)
      as (p & Hp & Hf).
    + rewrite !fmap_app, !elem_of_app.
      intros [H | [H | H]]; by eapply assigns_for_other_label in H.
    + apply not_elem_of_nil.
    + exists p. split; [by rewrite app_nil_r, <- !app_assoc in Hp | ].
      by apply (Hf "ts" or_ts).
Qed.

Lemma last_row_wins_witness :
  (load_phase sample_env repriced_products initial_state).1 = Ok tt
  /\ exists p,
       nodes (st_graph (load_phase sample_env repriced_products initial_state).2)
         !! (Product, 3) = Some p
       /\ p !! "name" = None
       /\ p !! "price" = Some VNaN.
Proof.
  assert ((load_phase sample_env repriced_products initial_state).1 = Ok tt) as Hok
    by (vm_compute; reflexivity).
  split; [exact Hok | ].
  destruct (last_row_wins sample_env repriced_products initial_state Hok)
    as (_ & Hprod & _).
  exact (Hprod 3 {| pr_id := 3; pr_name := VNull; pr_price := VNaN;
                    pr_category_id := 7 |} eq_refl).
Defined.

(** ** Rows that share a relationship *)

Lemma edge_upds_flat_map_rows {A : Type} (S : gset node_key) (f : A -> list op)
  (h : A -> option (edge_key * list (string * value))) (rows : list A) :
  (forall r, edge_upds S (f r) = option_list (h r)) ->
  edge_upds S (flat_map f rows) = omap h rows.
Proof.
  intros Hf. induction rows as [ | r rows IH]; [done | ].
  cbn [flat_map omap list_omap]. rewrite edge_upds_app, Hf, IH.
  by destruct (h r).
Qed.

(** The relationship writes of a table whose rows write the relationship
    [key r] when [guard r] holds: the assignments to one relationship. *)
Lemma assigns_for_guarded {A : Type} (guard : A -> bool) (key : A -> edge_key)
  (asg : A -> list (string * value)) (rows : list A) (e : edge_key) :
  assigns_for e (omap (fun r => if guard r then Some (key r, asg r) else None) rows)
  = concat (map asg (filter (fun r => guard r = true /\ key r = e) rows)).
Proof.
  induction rows as [ | r rows IH]; [done | ].
  cbn [omap list_omap]. rewrite filter_cons.
  destruct (guard r) eqn:Hg.
  - destruct (decide (key r = e)) as [<- | Hne].
    + rewrite assigns_for_cons_eq, IH. rewrite decide_True by done. done.
    + rewrite assigns_for_cons_ne, IH by done.
      rewrite decide_False; [done | ]. by intros [_ ?].
  - rewrite IH. rewrite decide_False; [done | ]. by intros [? _].
Qed.

Lemma guarded_keys_kind {A : Type} (guard : A -> bool) (key : A -> edge_key)
  (asg : A -> list (string * value)) (rows : list A) (e : edge_key) :
  (forall r, (key r).1.2 <> e.1.2) ->
  e ∉ (omap (fun r => if guard r then Some (key r, asg r) else None) rows).*1.
Proof.
  intros Hkind Hin. apply list_elem_of_fmap in Hin as ([k a] & -> & Hin).
  apply list_elem_of_omap in Hin as (r & _ & Hr).
  destruct (guard r); [ | done]. injection Hr as <- _. by apply (Hkind r).
Qed.

Lemma plan_edge_upds (S : gset node_key) (t : snapshot) :
  edge_upds S (flat_map query_ops (load_plan t))
  = omap (fun r => if bool_decide ((Category, pr_category_id r) ∈ S)
                   then Some (((Product, pr_id r), IN_CATEGORY,
                               (Category, pr_category_id r)), [])
                   else None) (products t)
    ++ omap (fun r => if bool_decide ((Customer, or_customer_id r) ∈ S)
                      then Some (((Customer, or_customer_id r), PLACED,
                                  (Order, or_id r)), [])
                      else None) (orders t)
    ++ omap (fun r => if bool_decide ((Order, oi_order_id r) ∈ S)
                         && bool_decide ((Product, oi_product_id r) ∈ S)
                      then Some (((Order, oi_order_id r), CONTAINS,
                                  (Product, oi_product_id r)),
                                 [("quantity", oi_quantity r)])
                      else None) (order_items t)
    ++ omap (fun r => if bool_decide ((Customer, ev_customer_id r) ∈ S)
                         && bool_decide ((Product, ev_product_id r) ∈ S)
                      then Some (event_key VIEW r, [("ts", ev_ts r)])
                      else None)
         (filter (fun r => ev_event_type r = "view") (events t))
    ++ omap (fun r => if bool_decide ((Customer, ev_customer_id r) ∈ S)
                         && bool_decide ((Product, ev_product_id r) ∈ S)
                      then Some (event_key CLICK r, [("ts", ev_ts r)])
                      else None)
         (filter (fun r => ev_event_type r = "click") (events t))
    ++ omap (fun r => if bool_decide ((Customer, ev_customer_id r) ∈ S)
                         && bool_decide ((Product, ev_product_id r) ∈ S)
                      then Some (event_key ADD_TO_CART r, [("ts", ev_ts r)])
                      else None)
         (filter (fun r => ev_event_type r = "add_to_cart") (events t)).
Proof.
  rewrite plan_ops_unbatched. unfold unbatched_plan.
  cbn [flat_map query_ops]. rewrite app_nil_r, !edge_upds_app.
  rewrite (no_edge_ops S category_ops) by done.
  rewrite (no_edge_ops S customer_ops) by done.
  cbn [app]. repeat f_equal.
  - apply edge_upds_flat_map_rows. intros r. unfold product_ops.
    rewrite edge_upds_node, edge_upds_edge. cbn [forallb].
    rewrite andb_true_r. by destruct (bool_decide _).
  - apply edge_upds_flat_map_rows. intros r. unfold order_ops.
    rewrite edge_upds_node, edge_upds_edge. cbn [forallb].
    rewrite andb_true_r. by destruct (bool_decide _).
  - apply edge_upds_flat_map_rows. intros r. unfold order_item_ops.
    rewrite edge_upds_edge. cbn [forallb].
    rewrite andb_true_r. by destruct (_ && _).
  - apply edge_upds_flat_map_rows. intros r. unfold event_ops.
    rewrite edge_upds_edge. cbn [forallb].
    rewrite andb_true_r. by destruct (_ && _).
  - apply edge_upds_flat_map_rows. intros r. unfold event_ops.
    rewrite edge_upds_edge. cbn [forallb].
    rewrite andb_true_r. by destruct (_ && _).
  - apply edge_upds_flat_map_rows. intros r. unfold event_ops.
    rewrite edge_upds_edge. cbn [forallb].
    rewrite andb_true_r. by destruct (_ && _).
Qed.

Lemma segment_last_row {A : Type} (guard : A -> bool) (key : A -> edge_key)
  (asg : A -> list (string * value)) (rows : list A)
  (U1 U2 : list (edge_key * list (string * value)))
  (m : gmap (label * Z * rel_kind * (label * Z)) props) (e : edge_key)
  (P : A -> Prop) `{!forall x, Decision (P x)} (r : A) :
  (forall r', P r' <-> guard r' = true /\ key r' = e) ->
  last (filter P rows) = Some r ->
  e ∉ U1.*1 -> e ∉ U2.*1 ->
  exists q,
    run_upserts edge_init
      (U1 ++ omap (fun r => if guard r then Some (key r, asg r) else None) rows ++ U2)
      m !! e = Some q
    /\ forall (f : string) (v : A -> value),
         (forall r', assigned f (asg r') = Some (v r')) -> q !! f = stored (v r).
Proof.
  intros HP Hlast H1 H2.
  destruct (last_filter_elem _ _ _ Hlast) as [Hr HPr].
  apply HP in HPr as [Hg Hk].
  rewrite run_upserts_lookup. rewrite decide_True.
  - eexists. split; [done | ]. intros f v Hf.
    rewrite set_props_lookup, !assigns_for_app.
    rewrite (assigns_for_absent edge_init e U1 H1),
      (assigns_for_absent edge_init e U2 H2).
    rewrite app_nil_r, assigns_for_guarded. simpl.
    rewrite <- (list_filter_iff _ _ rows HP).
    by rewrite (assigned_concat_last f asg v _ Hf), Hlast.
  - rewrite !fmap_app, !elem_of_app. right. left.
    apply list_elem_of_fmap. exists (key r, asg r). split; [done | ].
    apply list_elem_of_omap. exists r. split; [done | ]. by rewrite Hg.
Qed.

(** X20. Rows that share a relationship are not accumulated. After a
    load phase that ends without an exception, when the order and the
    product of an order-item row are nodes of the graph, the quantity of
    their CONTAINS relationship is that of the last row for that order
    and product, not a sum; and when the customer and the product of an
    event are nodes of the graph, the time of their relationship of the
    event's type is that of the last event of that type for that customer
    and product. *)
Theorem last_relationship_row_wins (w : env) (t : snapshot) (s : st) :
  (load_phase w t s).1 = Ok tt ->
  let g := st_graph (load_phase w t s).2 in
  (forall o p r,
     last (filter (fun r => oi_order_id r = o /\ oi_product_id r = p)
             (order_items t)) = Some r ->
     (Order, o) ∈ dom (nodes g) -> (Product, p) ∈ dom (nodes g) ->
     exists q, edges g !! ((Order, o), CONTAINS, (Product, p)) = Some q
               /\ q !! "quantity" = stored (oi_quantity r))
  /\ (forall c p ty kind r,
        event_kind ty = Some kind ->
        last (filter (fun r => (ev_customer_id r = c /\ ev_product_id r = p)
                               /\ ev_event_type r = ty) (events t)) = Some r ->
        (Customer, c) ∈ dom (nodes g) -> (Product, p) ∈ dom (nodes g) ->
        exists q, edges g !! ((Customer, c), kind, (Product, p)) = Some q
                  /\ q !! "ts" = stored (ev_ts r)).
Proof.
  intros Hok g.
  assert (staged (flat_map query_ops (load_plan t))) as Hst
    by apply plan_ops_staged, load_plan_sorted.
  assert (dom (nodes g)
          = dom (nodes (st_graph s))
            ∪ list_to_set (node_upds (flat_map query_ops (load_plan t))).*1) as HS.
  { unfold g. by rewrite (load_phase_graph w t s Hok), run_ops_nodes, run_upserts_dom. }
  assert (edges g
          = run_upserts edge_init
              (edge_upds (dom (nodes g)) (flat_map query_ops (load_plan t)))
              (edges (st_graph s))) as Hedges.
  { rewrite HS. unfold g.
    by rewrite (load_phase_graph w t s Hok), (run_ops_edges _ _ Hst). }
  rewrite Hedges, plan_edge_upds. clear Hedges HS Hst.
  set (S := dom (nodes g)). set (m := edges (st_graph s)).
  set (Uprod := omap _ (products t)). set (Uord := omap _ (orders t)).
  set (Uitem := omap _ (order_items t)).
  set (Uview := omap _ (filter (fun r => ev_event_type r = "view") (events t))).
  set (Uclick := omap _ (filter (fun r => ev_event_type r = "click") (events t))).
  set (Uatc := omap _ (filter (fun r => ev_event_type r = "add_to_cart") (events t))).
  split.
  - intros o p r Hlast Ho Hp.
    destruct (segment_last_row
                (fun r => bool_decide ((Order, oi_order_id r) ∈ S)
                          && bool_decide ((Product, oi_product_id r) ∈ S))
                (fun r => ((Order, oi_order_id r), CONTAINS, (Product, oi_product_id r)))
                (fun r => [("quantity", oi_quantity r)])
                (order_items t) (Uprod ++ Uord) (Uview ++ Uclick ++ Uatc) m
                ((Order, o), CONTAINS, (Product, p))
                (fun r => oi_order_id r = o /\ oi_product_id r = p) r)
      as (q & Hq & Hf);
      [ | exact Hlast | | | ].
    + intros r'. split.
      * intros [-> ->]. by rewrite !bool_decide_eq_true_2.
      * by intros [_ [= -> ->]].
    + rewrite fmap_app, elem_of_app.
      intros [Hin | Hin]; by eapply guarded_keys_kind in Hin.
    + rewrite !fmap_app, !elem_of_app.
      intros [Hin | [Hin | Hin]]; by eapply guarded_keys_kind in Hin.
    + exists q. split; [by rewrite <- app_assoc in Hq | ].
      by apply (Hf "quantity" oi_quantity).
  - intros c p ty kind r Hkind Hlast Hc Hp.
    rewrite <- (list_filter_filter
                 (fun r => ev_customer_id r = c /\ ev_product_id r = p)
                 (fun r => ev_event_type r = ty)) in Hlast.
    assert (forall r', ev_customer_id r' = c /\ ev_product_id r' = p
                       <-> bool_decide ((Customer, ev_customer_id r') ∈ S)
                           && bool_decide ((Product, ev_product_id r') ∈ S) = true
                           /\ event_key kind r' = ((Customer, c), kind, (Product, p)))
      as HP.
    { intros r'. split.
      - intros [Hc' Hp']. unfold event_key. rewrite Hc', Hp'.
        by rewrite !bool_decide_eq_true_2.
      - unfold event_key. by intros [_ [= -> ->]]. }
    unfold event_kind in Hkind. repeat case_decide; simplify_eq.
    + destruct (segment_last_row _ (event_key VIEW) (fun r => [("ts", ev_ts r)])
                  _ (Uprod ++ Uord ++ Uitem) (Uclick ++ Uatc) m
                  ((Customer, c), VIEW, (Product, p))
                  (fun r => ev_customer_id r = c /\ ev_product_id r = p) r HP Hlast)
        as (q & Hq & Hf).
      * rewrite !fmap_app, !elem_of_app.
        intros [Hin | [Hin | Hin]]; by eapply guarded_keys_kind in Hin.
      * rewrite !fmap_app, !elem_of_app.
        intros [Hin | Hin]; by eapply guarded_keys_kind in Hin.
      * exists q. split; [by rewrite <- !app_assoc in Hq | ].
        by apply (Hf "ts" ev_ts).
    + destruct (segment_last_row _ (event_key CLICK) (fun r => [("ts", ev_ts r)])
                  _ (Uprod ++ Uord ++ Uitem ++ Uview) Uatc m
                  ((Customer, c), CLICK, (Product, p))
                  (fun r => ev_customer_id r = c /\ ev_product_id r = p) r HP Hlast)
        as (q & Hq & Hf).
      * rewrite !fmap_app, !elem_of_app.
        intros [Hin | [Hin | [Hin | Hin]]]; by eapply guarded_keys_kind in Hin.
      * intros Hin; by eapply guarded_keys_kind in Hin.
      * exists q. split; [by rewrite <- !app_assoc in Hq | ].
        by apply (Hf "ts" ev_ts).
    + destruct (segment_last_row _ (event_key ADD_TO_CART)
                  (fun r => [("ts", ev_ts r)])
                  _ (Uprod ++ Uord ++ Uitem ++ Uview ++ Uclick) [] m
                  ((Customer, c), ADD_TO_CART, (Product, p))
                  (fun r => ev_customer_id r = c /\ ev_product_id r = p) r HP Hlast)
        as (q & Hq & Hf).
      * rewrite !fmap_app, !elem_of_app.
        intros [Hin | [Hin | [Hin | [Hin | Hin]]]]; by eapply guarded_keys_kind in Hin.
      * apply not_elem_of_nil.
      * exists q. split; [by rewrite app_nil_r, <- !app_assoc in Hq | ].
        by apply (Hf "ts" ev_ts).
Qed.

Lemma last_relationship_row_wins_witness :
  (load_phase sample_env repeated_items initial_state).1 = Ok tt
  /\ exists q,
       edges (st_graph (load_phase sample_env repeated_items initial_state).2)
         !! ((Order, 5), CONTAINS, (Product, 3)) = Some q
       /\ q !! "quantity" = Some (VInt 4).
Proof.
  assert ((load_phase sample_env repeated_items initial_state).1 = Ok tt) as Hok
    by (vm_compute; reflexivity).
  split; [exact Hok | ].
  destruct (last_relationship_row_wins sample_env repeated_items initial_state Hok)
    as [Hitems _].
  apply (Hitems 5 3 {| oi_order_id := 5; oi_product_id := 3; oi_quantity := VInt 4 |}).
  - reflexivity.
  - apply elem_of_dom. eexists. vm_compute. reflexivity.
  - apply elem_of_dom. eexists. vm_compute. reflexivity.
Defined.

(** ** Size of the bulk statements *)

Lemma batches_size {A : Type} (rows b : list A) :
  b ∈ batches rows -> (0 < length b <= 100)%nat.
Proof. intros Hb. by apply (windows_nonempty rows 100 b) in Hb. Qed.

Lemma load_plan_rows (t : snapshot) (q : load_query) :
  q ∈ load_plan t -> (0 < query_rows q <= 100)%nat.
Proof.
  unfold load_plan. rewrite !elem_of_app.
  intros [H | [H | [H | [H | [H | [H | [H | H]]]]]]];
    apply list_elem_of_fmap in H as (b & -> & Hb); simpl;
    by apply batches_size in Hb.
Qed.

(** X21. Every bulk statement that a run issues carries at least one row
    and at most 100 rows: no table, however large, is sent in one
    statement, and an empty table or event type is not sent at all. *)
Theorem bulk_statement_size (w : env) (s : st) :
  exists tr,
    st_trace (etl_try w s).2 = st_trace s ++ tr
    /\ forall q, EvRun q ∈ tr -> (0 < query_rows q <= 100)%nat.
Proof.
  rewrite etl_try_eq.
  destruct (etl_session_trace w (session_opened s)) as (tr & Htr & t & Hpre).
  destruct (etl_session w (session_opened s)) as [r s1]. simpl in *.
  exists ([EvSessionOpen] ++ tr ++ [EvSessionClose; EvPgClose; EvDriverClose]).
  split; [rewrite Htr; by rewrite <- !app_assoc | ].
  intros q Hq. apply (load_plan_rows t).
  destruct Hpre as [k ->]. apply elem_of_app. left.
  apply list_elem_of_omap. exists (EvRun q). split; [ | done].
  rewrite !elem_of_app in Hq. destruct Hq as [Hq | [Hq | Hq]]; [ | done | ].
  - apply list_elem_of_singleton in Hq. discriminate Hq.
  - repeat (apply elem_of_cons in Hq as [Hq | Hq]; [discriminate Hq | ]).
    by apply elem_of_nil in Hq.
Qed.
